(** * Task chains and capability dispatch of the Pyr Dev assistant

    A shallow embedding of the class [TaskManager] of
    [src/agent/taskManager.ts] (the task chain engine), of [BaseAgent]
    (single-task execution, the task loop and the conversation window),
    of the [fix], [generate] and [explain] capabilities of [PyrDevAgent]
    with [applyFixes], [generateCode], [explainCode] and [processQuery],
    of [PromptTemplates.formatPrompt], and of the provider choice of
    [LLMProviderManager].

    Conventions of the embedding.
    - A JavaScript string is a sequence of code units.  [string] holds
      8-bit units, so the model covers strings whose code units lie in
      U+0000..U+00FF.
    - Objects that the source shares by reference (a chain reachable from
      the chain map and from a running [executeTaskChain]) live in a
      store and are named by their address.
    - An [async] function is cut at its [await]s into synchronous
      segments; each segment is a function on the engine state.
    - [new Date()] reads the clock of the state and counts the read. *)

From Stdlib Require Import String Ascii List ZArith QArith Lia Bool Sorted.
From stdpp Require Import base option list gmap strings pretty.

Local Open Scope string_scope.
Local Open Scope list_scope.

(** ** Strings *)

(** [String.prototype.toLowerCase] on one code unit below U+0100: the
    letters A-Z and the Latin-1 capitals U+00C0..U+00DE (without the
    multiplication sign U+00D7) move up by 32, everything else stays. *)
Definition lowerUnit (c : ascii) : ascii :=
  let n := nat_of_ascii c in
  if ((65 <=? n)%nat && (n <=? 90)%nat)
     || ((192 <=? n)%nat && (n <=? 222)%nat && negb (n =? 215)%nat)
  then ascii_of_nat (n + 32)
  else c.

Fixpoint toLowerCase (s : string) : string :=
  match s with
  | EmptyString => EmptyString
  | String c s' => String (lowerUnit c) (toLowerCase s')
  end.

(** [String.prototype.includes]: [sub] occurs in [s] at some position. *)
Fixpoint includes (s sub : string) : bool :=
  String.prefix sub s
  || match s with
     | EmptyString => false
     | String _ s' => includes s' sub
     end.

(** [Array.prototype.join]. *)
Fixpoint join (sep : string) (l : list string) : string :=
  match l with
  | [] => ""
  | [x] => x
  | x :: rest => x +:+ sep +:+ join sep rest
  end.

(** ** Data model *)

(** Values of type [any]: what a capability may return. *)
#[warnings="-register-all"]
Inductive any : Type :=
  | AnyUndefined
  | AnyString (s : string)
  | AnyNumber (n : Z)
  | AnyArray (items : list any)
  | AnyObject (fields : list (string * any)).

(** A [Date] is its time value. *)
Definition Date := Z.

(** A thrown [Error]; the source reads only its [message]. *)
Record Error := mkError { message : string }.

Inductive Status := pending | running | completed | failed.

Global Instance Status_eq_dec : EqDecision Status.
Proof. solve_decision. Defined.

Record AgentContext := mkContext {
  code : option string;
  language : option string;
  selection : option string;
  filePath : option string;
  projectContext : option string;
  previousResults : option (list any)
}.

(** The object literal [{}]. *)
Definition emptyContext : AgentContext :=
  mkContext None None None None None None.

Record AgentTask := mkTask {
  task_id : string;
  task_type : string;
  task_description : string;
  task_context : AgentContext;
  task_status : Status;
  task_result : option any;
  task_error : option string;
  task_createdAt : Date;
  task_completedAt : option Date
}.

Record TaskChain := mkChain {
  chain_id : string;
  chain_name : string;
  chain_tasks : list AgentTask;
  chain_status : Status;
  chain_createdAt : Date;
  chain_completedAt : option Date;
  chain_results : list any
}.

Inductive Role := system | user | assistant.

Record LLMMessage := mkMessage { role : Role; content : string }.

Record LLMResponse := mkResponse { response_content : string }.

(** Optional second argument of a capability.  Each capability reads the
    fields it knows. *)
Record Parameters := mkParameters {
  param_issues : option (list string);
  param_description : option string
}.

(** What settles a promise. *)
Inductive Outcome :=
  | Resolved (value : any)
  | Rejected (error : Error).

(** The body of a capability's [execute], up to its result: it returns,
    throws, or awaits the provider and goes on with the response.  A
    provider call that rejects rejects the capability, no capability
    catches.  The engine looks at a run only to know how it may settle;
    what it proves of a chain holds for every outcome. *)
Inductive Run :=
  | Return (value : any)
  | Throw (error : Error)
  | GenerateResponse (messages : list LLMMessage) (k : LLMResponse -> Run).

Record AgentCapability := mkCapability {
  cap_name : string;
  cap_description : string;
  execute : AgentContext -> option Parameters -> Run
}.

(** [o] is a way for the run to settle, for some behaviour of the
    provider. *)
Inductive settles : Run -> Outcome -> Prop :=
  | settles_return v : settles (Return v) (Resolved v)
  | settles_throw e : settles (Throw e) (Rejected e)
  | settles_provider_error msgs k e :
      settles (GenerateResponse msgs k) (Rejected e)
  | settles_provider_response msgs k r o :
      settles (k r) o -> settles (GenerateResponse msgs k) o.

(** ** BaseAgent *)

Record BaseAgent := mkAgent {
  capabilities : gmap string AgentCapability;
  conversationHistory : list LLMMessage;
  taskQueue : list AgentTask
}.

(** The constructor, given the registry [initializeCapabilities] fills. *)
Definition newAgent (caps : gmap string AgentCapability) : BaseAgent :=
  mkAgent caps [] [].

(** [Array.prototype.slice(-n)]. *)
Definition sliceLast {A} (n : nat) (l : list A) : list A :=
  drop (length l - n) l.

Definition addToConversation (a : BaseAgent) (r : Role) (c : string) : BaseAgent :=
  let pushed := conversationHistory a ++ [mkMessage r c] in
  mkAgent (capabilities a)
          (if (20 <? length pushed)%nat then sliceLast 20 pushed else pushed)
          (taskQueue a).

Definition clearConversation (a : BaseAgent) : BaseAgent :=
  mkAgent (capabilities a) [] (taskQueue a).

(** Assignments to the fields of a task object. *)
Definition setStatus (task : AgentTask) (s : Status) : AgentTask :=
  mkTask (task_id task) (task_type task) (task_description task)
         (task_context task) s (task_result task) (task_error task)
         (task_createdAt task) (task_completedAt task).

Definition setResult (task : AgentTask) (result : any) : AgentTask :=
  mkTask (task_id task) (task_type task) (task_description task)
         (task_context task) (task_status task) (Some result) (task_error task)
         (task_createdAt task) (task_completedAt task).

Definition setError (task : AgentTask) (msg : string) : AgentTask :=
  mkTask (task_id task) (task_type task) (task_description task)
         (task_context task) (task_status task) (task_result task) (Some msg)
         (task_createdAt task) (task_completedAt task).

Definition setCompletedAt (task : AgentTask) (d : Date) : AgentTask :=
  mkTask (task_id task) (task_type task) (task_description task)
         (task_context task) (task_status task) (task_result task) (task_error task)
         (task_createdAt task) (Some d).

(** [executeTask] from its call to its first [await].  [d] is the value
    of [new Date()] in the [catch] block, read only when the capability is
    missing.  The result is the task as mutated so far and either the
    capability run now awaited, or the outcome the promise already has. *)
Definition executeTask_call (a : BaseAgent) (d : Date) (task : AgentTask)
  : AgentTask * (Run + Outcome) :=
  let task1 := setStatus task running in
  match capabilities a !! task_type task with
  | None =>
      let error := mkError ("Unknown task type: " +:+ task_type task) in
      (setCompletedAt (setError (setStatus task1 failed) (message error)) d,
       inr (Rejected error))
  | Some capability =>
      (task1, inl (execute capability (task_context task1) None))
  end.

(** [executeTask] from the settling of [capability.execute] to its end: the
    task as finally mutated and the outcome of the [executeTask] promise. *)
Definition executeTask_resume (d : Date) (task : AgentTask) (o : Outcome)
  : AgentTask * Outcome :=
  match o with
  | Resolved result =>
      (setCompletedAt (setStatus (setResult task result) completed) d,
       Resolved result)
  | Rejected error =>
      (setCompletedAt (setError (setStatus task failed) (message error)) d,
       Rejected error)
  end.

(** ** PromptTemplates *)

Definition CODE_FIX_PROMPT : string :=
"Fix the following issues in the code:
Issues: {issues}

Original Code:
{code}

Provide the corrected code with explanations for each fix.".

Definition SYSTEM_PROMPT : string :=
"You are Pyr Dev, an advanced AI code assistant. You help developers write, debug, and improve code.

Key capabilities:
- Analyze code for bugs, performance issues, and best practices
- Generate high-quality code from natural language descriptions
- Explain complex code in simple terms
- Suggest improvements and optimizations
- Support multiple programming languages

Guidelines:
- Provide clear, concise explanations
- Include code examples when helpful
- Focus on best practices and clean code
- Be specific about potential issues and solutions
- Consider performance, security, and maintainability".

(** The replacement text of [String.prototype.replace] for one match of a
    pattern without capture groups: in [value], [$$] stands for a dollar
    sign, [$&] for the match, [$`] for the text before it and [$'] for the
    text after it; any other character stands for itself. *)
Fixpoint getSubstitution (matched before after value : string) : string :=
  match value with
  | EmptyString => EmptyString
  | String "$" (String "$" rest) =>
      String "$" (getSubstitution matched before after rest)
  | String "$" (String "&" rest) =>
      matched +:+ getSubstitution matched before after rest
  | String "$" (String "`" rest) =>
      before +:+ getSubstitution matched before after rest
  | String "$" (String "'" rest) =>
      after +:+ getSubstitution matched before after rest
  | String c rest => String c (getSubstitution matched before after rest)
  end.

(** [s.replace(new RegExp(pat, "g"), value)] for a pattern that matches
    the text [pat] itself and nothing else.  The source builds the
    pattern [{key}] from the key as it is, without escaping: it matches
    its own text when the key is an identifier ([identifierKey] below), as
    are all the keys the repository passes; a key with a character that
    a regular expression reads as an operator is outside this model.  The
    matches are found left to right in the original string and do not
    overlap; [skip] counts the units of the current match still to pass,
    [before] is the original text read so far. *)
Fixpoint replaceFrom (pat value : string) (skip : nat) (before s : string) : string :=
  match s with
  | EmptyString => EmptyString
  | String c s' =>
      let before' := before +:+ String c EmptyString in
      match skip with
      | S skip' => replaceFrom pat value skip' before' s'
      | O =>
          if String.prefix pat s
          then getSubstitution pat before
                 (string_of_list_ascii (drop (String.length pat) (list_ascii_of_string s)))
                 value
               +:+ replaceFrom pat value (String.length pat - 1) before' s'
          else String c (replaceFrom pat value O before' s')
      end
  end.

Definition replaceAll (pat value s : string) : string :=
  replaceFrom pat value O EmptyString s.

(** [formatPrompt]: the variables are substituted one after the other, in
    the order of [Object.entries].  It embeds the source for variables
    whose keys are identifiers. *)
Definition formatPrompt (template : string) (variables : list (string * string)) : string :=
  foldl (fun formatted kv => replaceAll ("{" +:+ fst kv +:+ "}") (snd kv) formatted)
        template variables.

(** The keys for which the pattern [{key}] is read as its own text: a
    letter or an underscore, then letters, digits and underscores.  Such
    a key holds no operator of regular expressions, and the braces around
    it are no quantifier, which would need a digit first. *)
Definition identifierStart (c : ascii) : bool :=
  let n := nat_of_ascii c in
  ((65 <=? n)%nat && (n <=? 90)%nat) || ((97 <=? n)%nat && (n <=? 122)%nat)
  || (n =? 95)%nat.

Definition identifierPart (c : ascii) : bool :=
  let n := nat_of_ascii c in
  identifierStart c || ((48 <=? n)%nat && (n <=? 57)%nat).

Fixpoint allUnits (p : ascii -> bool) (s : string) : bool :=
  match s with
  | EmptyString => true
  | String c rest => p c && allUnits p rest
  end.

Definition identifierKey (key : string) : bool :=
  match key with
  | EmptyString => false
  | String c rest => identifierStart c && allUnits identifierPart rest
  end.

(** ** PyrDevAgent *)

Inductive Severity := sev_error | sev_warning | sev_info | sev_hint.

Definition severity_string (s : Severity) : string :=
  match s with
  | sev_error => "error"
  | sev_warning => "warning"
  | sev_info => "info"
  | sev_hint => "hint"
  end.

(** The fields of a [CodeIssue] that [applyFixes] reads. *)
Record CodeIssue := mkIssue {
  issue_severity : Severity;
  issue_message : string;
  issue_line : N
}.

(** An optional string in a boolean position: [undefined] and the empty
    string are falsy. *)
Definition truthy (s : option string) : option string :=
  match s with
  | Some EmptyString => None
  | other => other
  end.

(** The [fix] entry that [initializeCapabilities] registers. *)
Definition fixCapability : AgentCapability :=
  mkCapability "Code Fixing" "Fix identified issues in code"
    (fun context parameters =>
       match truthy (code context) with
       | None => Throw (mkError "No code provided for fixing")
       | Some code =>
           let issues := default [] (parameters ≫= param_issues) in
           let prompt := formatPrompt CODE_FIX_PROMPT
                           [("code", code); ("issues", join (String "010" "") issues)] in
           GenerateResponse
             [mkMessage system SYSTEM_PROMPT; mkMessage user prompt]
             (fun response => Return (AnyString (response_content response)))
       end).

(** The text [applyFixes] builds for one issue. *)
Definition issueDescription (issue : CodeIssue) : string :=
  severity_string (issue_severity issue) +:+ ": " +:+ issue_message issue
  +:+ " (Line " +:+ pretty (issue_line issue) +:+ ")".

(** [applyFixes] up to the first [await] inside it.  Its call
    [this.executeTask(task, { issues: issueDescriptions })] hands over a
    second argument; [executeTask] has one parameter, so the argument is
    evaluated and dropped.  [stamp] is [Date.now()] as text, [created] the
    [new Date()] of the task, [d] the one of the [catch] block. *)
Definition applyFixes_call (a : BaseAgent) (created d : Date) (stamp : string)
    (code : string) (issues : list CodeIssue) : AgentTask * (Run + Outcome) :=
  let context := mkContext (Some code) None None None None None in
  let issueDescriptions := map issueDescription issues in
  let dropped := mkParameters (Some issueDescriptions) None in
  executeTask_call a d
    (mkTask ("fix-" +:+ stamp) "fix" "Fix code issues" context pending
            None None created None).

(** The messages of the provider call a pending [executeTask] awaits. *)
Definition sentMessages (r : AgentTask * (Run + Outcome)) : option (list LLMMessage) :=
  match snd r with
  | inl (GenerateResponse messages _) => Some messages
  | _ => None
  end.

(** ** TaskManager *)

(** The value of a [number] that comes out of a division of two counts:
    what IEEE 754 gives when the divisor is zero, and otherwise the
    quotient, written exactly (the double is the nearest to it, and lies
    between 0 and 1 when the quotient does). *)
Inductive Number :=
  | NaN
  | Infinity
  | Finite (q : Q).

(** [a / b] on two array lengths. *)
Definition divide (a b : nat) : Number :=
  match b with
  | O => match a with O => NaN | S _ => Infinity end
  | S _ => Finite (Z.of_nat a # Pos.of_nat b)
  end.

(** The engine and what it shares with its callers.
    - [store]: the chain objects, by address; an object stays in the store
      when the map forgets it, a running [executeTaskChain] still holds it.
    - [taskChains]: [Map<string, TaskChain>], from id to address.
    - [activeTasks]: [Map<string, AgentTask>]; a task object is named by the
      address of its chain and its index in [tasks].
    - [clock], [reads]: the value of the n-th [new Date()], and how many
      were evaluated so far. *)
Record Engine := mkEngine {
  store : list TaskChain;
  taskChains : gmap string nat;
  activeTasks : gmap string (nat * nat);
  clock : nat -> Date;
  reads : nat
}.

Definition newEngine (clock : nat -> Date) : Engine :=
  mkEngine [] ∅ ∅ clock 0.

(** [this.taskChains.get(chainId)], with the address.  The map holds
    addresses of the store only. *)
Definition getTaskChainAt (e : Engine) (chainId : string) : option (nat * TaskChain) :=
  match taskChains e !! chainId with
  | None => None
  | Some l =>
      match store e !! l with
      | None => None
      | Some chain => Some (l, chain)
      end
  end.

Definition getTaskChain (e : Engine) (chainId : string) : option TaskChain :=
  snd <$> getTaskChainAt e chainId.

Definition inferTaskType (description : string) : string :=
  let lowerDesc := toLowerCase description in
  if includes lowerDesc "analyze" || includes lowerDesc "check" || includes lowerDesc "review"
  then "analyze"
  else if includes lowerDesc "fix" || includes lowerDesc "correct" || includes lowerDesc "repair"
  then "fix"
  else if includes lowerDesc "generate" || includes lowerDesc "create" || includes lowerDesc "write"
  then "generate"
  else if includes lowerDesc "explain" || includes lowerDesc "describe" || includes lowerDesc "clarify"
  then "explain"
  else "general".

(** The task inference as the specification words it: a priority list of
    keyword groups, the first group with a keyword in the lower-cased
    description gives the type, [general] when none has. *)
Definition keywordGroups : list (list string * string) :=
  [ (["analyze"; "check"; "review"], "analyze");
    (["fix"; "correct"; "repair"], "fix");
    (["generate"; "create"; "write"], "generate");
    (["explain"; "describe"; "clarify"], "explain") ].

Fixpoint firstMatch (lowerDesc : string) (groups : list (list string * string)) : string :=
  match groups with
  | [] => "general"
  | (keywords, type) :: rest =>
      if existsb (includes lowerDesc) keywords then type
      else firstMatch lowerDesc rest
  end.

Definition inferTaskType_spec (description : string) : string :=
  firstMatch (toLowerCase description) keywordGroups.

(** The tasks [createTaskChain] maps the descriptions to; [index] is the
    index of the first description of the list, the [index]-th task reads
    the clock after the ones before it. *)
Fixpoint newTasks (e : Engine) (chainId : string) (context : AgentContext)
    (index : nat) (taskDescriptions : list string) : list AgentTask :=
  match taskDescriptions with
  | [] => []
  | description :: rest =>
      mkTask (chainId +:+ "-task-" +:+ pretty index)
             (inferTaskType description) description context pending
             None None (clock e (reads e + index)) None
      :: newTasks e chainId context (S index) rest
  end.

(** The chain object [createTaskChain] builds. *)
Definition newTaskChain (e : Engine) (chainId name : string)
    (taskDescriptions : list string) (initialContext : option AgentContext) : TaskChain :=
  mkChain chainId name
          (newTasks e chainId (default emptyContext initialContext) 0 taskDescriptions)
          pending
          (clock e (reads e + length taskDescriptions))
          None
          [].

(** [createTaskChain].  [chainId] is the identifier the source makes from
    [Date.now()] and [Math.random()]. *)
Definition createTaskChain (e : Engine) (chainId name : string)
    (taskDescriptions : list string) (initialContext : option AgentContext)
  : Engine * TaskChain :=
  let taskChain := newTaskChain e chainId name taskDescriptions initialContext in
  (mkEngine (store e ++ [taskChain])
            (<[chainId := length (store e)]> (taskChains e))
            (activeTasks e)
            (clock e)
            (reads e + length taskDescriptions + 1),
   taskChain).

(** Writes to the objects of the store. *)
Definition setChain (e : Engine) (l : nat) (chain : TaskChain) : Engine :=
  mkEngine (<[l := chain]> (store e)) (taskChains e) (activeTasks e) (clock e) (reads e).

Definition setActiveTasks (e : Engine) (m : gmap string (nat * nat)) : Engine :=
  mkEngine (store e) (taskChains e) m (clock e) (reads e).

(** [new Date()]. *)
Definition now (e : Engine) : Date := clock e (reads e).

Definition tick (e : Engine) : Engine :=
  mkEngine (store e) (taskChains e) (activeTasks e) (clock e) (S (reads e)).

Definition withTasks (chain : TaskChain) (tasks : list AgentTask) : TaskChain :=
  mkChain (chain_id chain) (chain_name chain) tasks (chain_status chain)
          (chain_createdAt chain) (chain_completedAt chain) (chain_results chain).

Definition withStatus (chain : TaskChain) (s : Status) : TaskChain :=
  mkChain (chain_id chain) (chain_name chain) (chain_tasks chain) s
          (chain_createdAt chain) (chain_completedAt chain) (chain_results chain).

Definition withCompletedAt (chain : TaskChain) (d : Date) : TaskChain :=
  mkChain (chain_id chain) (chain_name chain) (chain_tasks chain) (chain_status chain)
          (chain_createdAt chain) (Some d) (chain_results chain).

Definition withResults (chain : TaskChain) (results : list any) : TaskChain :=
  mkChain (chain_id chain) (chain_name chain) (chain_tasks chain) (chain_status chain)
          (chain_createdAt chain) (chain_completedAt chain) results.

(** [{ ...task.context, previousResults: results }] put into the task. *)
Definition withPreviousResults (task : AgentTask) (results : list any) : AgentTask :=
  let c := task_context task in
  mkTask (task_id task) (task_type task) (task_description task)
         (mkContext (code c) (language c) (selection c) (filePath c)
                    (projectContext c) (Some results))
         (task_status task) (task_result task) (task_error task)
         (task_createdAt task) (task_completedAt task).

(** The result of [executeTaskChain]. *)
Inductive ChainOutcome :=
  | ChainResolved (results : list any)
  | ChainRejected (error : Error).

(** Where a suspended [executeTaskChain] waits: inside [agent.executeTask]
    for the capability, or for the promise of [agent.executeTask], which
    already has its outcome. *)
Inductive Phase :=
  | AwaitCapability (r : Run)
  | AwaitExecuteTask (o : Outcome).

(** The locals of a suspended [executeTaskChain]: the chain object, the
    agent, [results], the loop index [i], and the phase. *)
Record Execution := mkExecution {
  exec_chain : nat;
  exec_agent : BaseAgent;
  exec_results : list any;
  exec_i : nat;
  exec_phase : Phase
}.

Inductive Activity :=
  | Suspended (x : Execution)
  | Settled (o : ChainOutcome).

(** The loop of [executeTaskChain] from the test [i < chain.tasks.length]
    to the next [await], or to the [return] when the test fails.  [chain]
    is the content of the chain object at address [l], written back with
    the changes.  [previousResults] receives the array [results] itself;
    the model keeps its content at this moment, which is what the
    capability is called with. *)
Definition executeTaskChain_loop (e : Engine) (l : nat) (chain : TaskChain)
    (agent : BaseAgent) (results : list any) (i : nat) : Engine * Activity :=
  match chain_tasks chain !! i with
  | Some task =>
      let task1 := withPreviousResults task results in
      let active := <[task_id task1 := (l, i)]> (activeTasks e) in
      let called := executeTask_call agent (now e) task1 in
      let chain1 := withTasks chain (<[i := fst called]> (chain_tasks chain)) in
      let e1 := setActiveTasks (setChain e l chain1) active in
      match snd called with
      | inl r => (e1, Suspended (mkExecution l agent results i (AwaitCapability r)))
      | inr o => (tick e1, Suspended (mkExecution l agent results i (AwaitExecuteTask o)))
      end
  | None =>
      let chain1 := withCompletedAt (withStatus chain completed) (now e) in
      (tick (setChain e l chain1), Settled (ChainResolved results))
  end.

(** [executeTaskChain] from its call to its first [await], or to its end
    when there is none. *)
Definition executeTaskChain_call (e : Engine) (chainId : string) (agent : BaseAgent)
  : Engine * Activity :=
  match getTaskChainAt e chainId with
  | None =>
      (e, Settled (ChainRejected (mkError ("Task chain " +:+ chainId +:+ " not found"))))
  | Some (l, chain) =>
      executeTaskChain_loop e l (withStatus chain running) agent [] 0
  end.

(** The capability a suspended execution awaits settles with [o]: the rest
    of [agent.executeTask] runs on the task object.  An execution in the
    other phase is left as it is. *)
Definition executeTask_settled (e : Engine) (x : Execution) (o : Outcome)
  : Engine * Activity :=
  match exec_phase x, store e !! exec_chain x with
  | AwaitCapability _, Some chain =>
      match chain_tasks chain !! exec_i x with
      | Some task =>
          let resumed := executeTask_resume (now e) task o in
          let chain1 := withTasks chain (<[exec_i x := fst resumed]> (chain_tasks chain)) in
          (tick (setChain e (exec_chain x) chain1),
           Suspended (mkExecution (exec_chain x) (exec_agent x) (exec_results x)
                                  (exec_i x) (AwaitExecuteTask (snd resumed))))
      | None => (e, Suspended x)
      end
  | _, _ => (e, Suspended x)
  end.

(** [executeTaskChain] resumes after [await agent.executeTask(task)]: the
    two [push]es and the [finally] block, then the loop again; or the
    [finally] block and the [catch] block. *)
Definition executeTaskChain_resume (e : Engine) (x : Execution) : Engine * Activity :=
  match exec_phase x, store e !! exec_chain x with
  | AwaitExecuteTask o, Some chain =>
      match chain_tasks chain !! exec_i x with
      | Some task =>
          let e1 := setActiveTasks e (delete (task_id task) (activeTasks e)) in
          match o with
          | Resolved result =>
              executeTaskChain_loop e1 (exec_chain x)
                (withResults chain (chain_results chain ++ [result]))
                (exec_agent x) (exec_results x ++ [result]) (S (exec_i x))
          | Rejected error =>
              let chain1 := withCompletedAt (withStatus chain failed) (now e1) in
              (tick (setChain e1 (exec_chain x) chain1), Settled (ChainRejected error))
          end
      | None => (e, Suspended x)
      end
  | _, _ => (e, Suspended x)
  end.

(** An execution driven to its end with nothing in between: the
    capabilities settle as [script] says, one outcome for each capability
    awaited.  [None] when the script ends before the execution does. *)
Fixpoint drive (fuel : nat) (ea : Engine * Activity) (script : list Outcome)
  : Engine * option ChainOutcome :=
  match snd ea with
  | Settled o => (fst ea, Some o)
  | Suspended x =>
      match fuel with
      | O => (fst ea, None)
      | S fuel' =>
          match exec_phase x with
          | AwaitCapability _ =>
              match script with
              | [] => (fst ea, None)
              | o :: script' => drive fuel' (executeTask_settled (fst ea) x o) script'
              end
          | AwaitExecuteTask _ =>
              drive fuel' (executeTaskChain_resume (fst ea) x) script
          end
      end
  end.

(** [executeTaskChain] from call to result, uninterrupted.  Each task
    takes at most two resumptions. *)
Definition executeTaskChain (e : Engine) (chainId : string) (agent : BaseAgent)
    (script : list Outcome) : Engine * option ChainOutcome :=
  drive (2 * length (default [] (chain_tasks <$> getTaskChain e chainId)))
        (executeTaskChain_call e chainId agent) script.

(** One turn of the [forEach] of [cancelTaskChain]. *)
Definition cancelTask (d : Date) (task : AgentTask) : AgentTask :=
  setCompletedAt (setError (setStatus task failed) "Cancelled by user") d.

(** The [forEach]: the tasks after it and the clock reads after it. *)
Fixpoint cancelTasks (clock : nat -> Date) (reads : nat) (tasks : list AgentTask)
  : list AgentTask * nat :=
  match tasks with
  | [] => ([], reads)
  | task :: rest =>
      if decide (task_status task = running)
      then let '(rest', reads') := cancelTasks clock (S reads) rest in
           (cancelTask (clock reads) task :: rest', reads')
      else let '(rest', reads') := cancelTasks clock reads rest in
           (task :: rest', reads')
  end.

Definition cancelTaskChain (e : Engine) (chainId : string) : Engine * bool :=
  match getTaskChainAt e chainId with
  | None => (e, false)
  | Some (l, chain) =>
      if decide (chain_status chain = running)
      then
        let '(tasks, reads1) := cancelTasks (clock e) (reads e) (chain_tasks chain) in
        let chain1 := withCompletedAt (withStatus (withTasks chain tasks) failed)
                                      (clock e reads1) in
        (mkEngine (<[l := chain1]> (store e)) (taskChains e) (activeTasks e)
                  (clock e) (S reads1),
         true)
      else (e, false)
  end.

Definition deleteTaskChain (e : Engine) (chainId : string) : Engine * bool :=
  (mkEngine (store e) (delete chainId (taskChains e)) (activeTasks e) (clock e) (reads e),
   bool_decide (is_Some (taskChains e !! chainId))).

Definition countCompleted (tasks : list AgentTask) : nat :=
  length (filter (fun t => task_status t = completed) tasks).

Definition getTaskProgress (e : Engine) (chainId : string) : Number :=
  match getTaskChain e chainId with
  | None => Finite 0
  | Some chain => divide (countCompleted (chain_tasks chain)) (length (chain_tasks chain))
  end.

(** ** The engine among its callers *)

(** What can happen between two observations: a caller invokes an
    operation of the engine, the capability awaited by execution [p]
    settles, or execution [p] resumes after [await agent.executeTask]. *)
Inductive Event :=
  | Create (chainId name : string) (taskDescriptions : list string)
           (initialContext : option AgentContext)
  | Execute (chainId : string) (agent : BaseAgent)
  | Cancel (chainId : string)
  | Delete (chainId : string)
  | CapabilitySettles (p : nat) (o : Outcome)
  | Resume (p : nat).

Record System := mkSystem {
  engine : Engine;
  executions : list Activity
}.

Definition newSystem (clock : nat -> Date) : System :=
  mkSystem (newEngine clock) [].

Definition perform (s : System) (ev : Event) : System :=
  match ev with
  | Create chainId name taskDescriptions initialContext =>
      mkSystem (fst (createTaskChain (engine s) chainId name taskDescriptions initialContext))
               (executions s)
  | Execute chainId agent =>
      let called := executeTaskChain_call (engine s) chainId agent in
      mkSystem (fst called) (executions s ++ [snd called])
  | Cancel chainId => mkSystem (fst (cancelTaskChain (engine s) chainId)) (executions s)
  | Delete chainId => mkSystem (fst (deleteTaskChain (engine s) chainId)) (executions s)
  | CapabilitySettles p o =>
      match executions s !! p with
      | Some (Suspended x) =>
          let settled := executeTask_settled (engine s) x o in
          mkSystem (fst settled) (<[p := snd settled]> (executions s))
      | _ => s
      end
  | Resume p =>
      match executions s !! p with
      | Some (Suspended x) =>
          let resumed := executeTaskChain_resume (engine s) x in
          mkSystem (fst resumed) (<[p := snd resumed]> (executions s))
      | _ => s
      end
  end.

(** The event can happen in [s]: a capability settles in a way its run
    allows, an execution resumes where it waits. *)
Definition enabled (s : System) (ev : Event) : Prop :=
  match ev with
  | CapabilitySettles p o =>
      exists x r, executions s !! p = Some (Suspended x)
                  /\ exec_phase x = AwaitCapability r /\ settles r o
  | Resume p =>
      exists x o, executions s !! p = Some (Suspended x)
                  /\ exec_phase x = AwaitExecuteTask o
  | _ => True
  end.

(** The call is made on a chain whose status is [pending]: the check the
    commands of the extension make before they call [executeTaskChain],
    which has no such check itself. *)
Definition gated (s : System) (ev : Event) : Prop :=
  match ev with
  | Execute chainId _ =>
      forall chain, getTaskChain (engine s) chainId = Some chain ->
                    chain_status chain = pending
  | _ => True
  end.

(** The states the system reaches from its start. *)
Inductive reachable : System -> Prop :=
  | reachable_new clock : reachable (newSystem clock)
  | reachable_perform s ev :
      reachable s -> enabled s ev -> reachable (perform s ev).

(** The same, when every call of [executeTaskChain] is on a pending
    chain. *)
Inductive reachable_gated : System -> Prop :=
  | gated_new clock : reachable_gated (newSystem clock)
  | gated_perform s ev :
      reachable_gated s -> enabled s ev -> gated s ev ->
      reachable_gated (perform s ev).


Definition statuses (chain : TaskChain) : list Status :=
  map task_status (chain_tasks chain).

(** The event is a resumption of execution [p]. *)
Definition resumes (p : nat) (ev : Event) : Prop :=
  (exists o, ev = CapabilitySettles p o) \/ ev = Resume p.






(** The tasks from index [from] on are pending. *)
Definition allPending (tasks : list AgentTask) (from : nat) : Prop :=
  forall j t, from <= j -> tasks !! j = Some t -> task_status t = pending.

(** The first tasks of the chain, as many as it has results, are
    completed; a pending chain has no result and only pending tasks. *)
Definition chainInv (chain : TaskChain) : Prop :=
  (forall j, j < length (chain_results chain) ->
             exists t, chain_tasks chain !! j = Some t /\ task_status t = completed)
  /\ (chain_status chain = pending ->
      chain_results chain = [] /\ allPending (chain_tasks chain) 0).

(** A suspended execution and its chain: the chain was started, the
    execution is at the task after the results, its [results] are those
    of the chain, the tasks after its task are pending, and when it waits
    with the outcome of [executeTask] in hand its task is completed, or
    failed with the message of the error. *)
Definition execOn (chain : TaskChain) (x : Execution) : Prop :=
  chain_status chain <> pending
  /\ exec_i x = length (chain_results chain)
  /\ exec_i x < length (chain_tasks chain)
  /\ exec_results x = chain_results chain
  /\ allPending (chain_tasks chain) (S (exec_i x))
  /\ (forall v, exec_phase x = AwaitExecuteTask (Resolved v) ->
         exists t, chain_tasks chain !! exec_i x = Some t /\ task_status t = completed)
  /\ (forall err, exec_phase x = AwaitExecuteTask (Rejected err) ->
         exists t, chain_tasks chain !! exec_i x = Some t
                   /\ task_status t = failed
                   /\ task_error t = Some (message err)
                   /\ is_Some (task_completedAt t)).

(** The invariant of the system when every chain is started at most once:
    each chain object and each suspended execution is as above, and no two
    suspended executions hold the same chain. *)
Definition systemInv (chains : list TaskChain) (xs : list Activity) : Prop :=
  (forall l chain, chains !! l = Some chain -> chainInv chain)
  /\ (forall p x, xs !! p = Some (Suspended x) ->
         exists chain, chains !! exec_chain x = Some chain /\ execOn chain x)
  /\ (forall p q x y, xs !! p = Some (Suspended x) -> xs !! q = Some (Suspended y) ->
         exec_chain x = exec_chain y -> p = q).

(** ** Scenarios *)

(** An agent with the [fix] capability, a code context, a clock that
    counts its reads, and an engine with one chain of two tasks. *)
Definition fixAgent : BaseAgent := newAgent {[ "fix" := fixCapability ]}.

Definition codeContext : AgentContext :=
  mkContext (Some "x=1") None None None None None.

Definition countingClock : nat -> Date := Z.of_nat.

Definition twoFixes : Engine :=
  fst (createTaskChain (newEngine countingClock) "c1" "demo"
         ["Fix the code"; "Repair it"] (Some codeContext)).

Definition twoFixesChain : TaskChain :=
  newTaskChain (newEngine countingClock) "c1" "demo"
    ["Fix the code"; "Repair it"] (Some codeContext).


(** Events performed one after the other. *)
Definition runEvents (s : System) (events : list Event) : System :=
  foldl perform s events.

(** A chain of one task is created, started, its capability resolves, and
    the execution ends. *)
Definition completedRun : list Event :=
  [ Create "c1" "demo" ["Fix the code"] (Some codeContext);
    Execute "c1" fixAgent;
    CapabilitySettles 0 (Resolved (AnyString "fixed"));
    Resume 0 ].

Definition afterCompletedRun : System :=
  runEvents (newSystem countingClock) completedRun.

(** A chain of two tasks is created and started: the first task runs, the
    second is pending. *)
Definition startedRun : list Event :=
  [ Create "c1" "demo" ["Fix the code"; "Repair it"] (Some codeContext);
    Execute "c1" fixAgent ].

Definition afterStartedRun : System :=
  runEvents (newSystem countingClock) startedRun.

(** [appendTurns]: [addToConversation] called for each turn in order. *)
Definition appendTurns (a : BaseAgent) (turns : list (Role * string)) : BaseAgent :=
  foldl (fun a turn => addToConversation a (fst turn) (snd turn)) a turns.

(** ** The other operations of the engine *)

(** Every id of the map leads to a chain object, and to one that carries
    this id. *)
Definition wellFormed (e : Engine) : Prop :=
  forall chainId l, taskChains e !! chainId = Some l ->
    exists chain, store e !! l = Some chain /\ chain_id chain = chainId.

(** [x] put into a list kept in the order [before]: behind every [y] that
    comes strictly before it, in front of the others.  Sorting by
    insertion from the right is stable, as [Array.prototype.sort] is. *)
Fixpoint insertBy {A} (before : A -> A -> bool) (x : A) (l : list A) : list A :=
  match l with
  | [] => [x]
  | y :: l' => if before y x then y :: insertBy before x l' else x :: y :: l'
  end.

Definition sortBy {A} (before : A -> A -> bool) (l : list A) : list A :=
  foldr (insertBy before) [] l.

(** [Array.from(this.taskChains.values())]: the chain objects of the map,
    in the order of their addresses.  This is the order of insertion of
    the source as long as no id is set while it is in the map (the source
    makes the ids from the time and a random number). *)
Definition chainValues (e : Engine) : list TaskChain :=
  omap (fun l => store e !! l)
       (sortBy Nat.ltb (map_to_list (taskChains e)).*2).

(** The comparison [(a, b) => b.createdAt.getTime() - a.createdAt.getTime()]
    is negative, and [a] comes first, when [a] is the later one. *)
Definition createdLater (a b : TaskChain) : bool :=
  (chain_createdAt b <? chain_createdAt a)%Z.

Definition getAllTaskChains (e : Engine) : list TaskChain :=
  sortBy createdLater (chainValues e).

(** [b] was not created later than [a]. *)
Definition notLater (a b : TaskChain) : Prop :=
  (chain_createdAt b <= chain_createdAt a)%Z.

Definition hasStatus (s : Status) (chain : TaskChain) : bool :=
  bool_decide (chain_status chain = s).

Definition getActiveTaskChains (e : Engine) : list TaskChain :=
  List.filter (hasStatus running) (getAllTaskChains e).

Definition getCompletedTaskChains (e : Engine) : list TaskChain :=
  List.filter (hasStatus completed) (getAllTaskChains e).

Record Stats := mkStats {
  stats_total : nat;
  stats_pending : nat;
  stats_running : nat;
  stats_completed : nat;
  stats_failed : nat
}.

Definition getTaskChainStats (e : Engine) : Stats :=
  let chains := getAllTaskChains e in
  mkStats (length chains)
          (length (List.filter (hasStatus pending) chains))
          (length (List.filter (hasStatus running) chains))
          (length (List.filter (hasStatus completed) chains))
          (length (List.filter (hasStatus failed) chains)).

(** [this.activeTasks.get(taskId)]: the task object the entry names. *)
Definition getActiveTask (e : Engine) (taskId : string) : option AgentTask :=
  match activeTasks e !! taskId with
  | None => None
  | Some (l, i) =>
      match store e !! l with
      | None => None
      | Some chain => chain_tasks chain !! i
      end
  end.

(** [pauseTask] and [resumeTask] answer and change nothing. *)
Definition pauseTask (e : Engine) (taskId : string) : bool :=
  match getActiveTask e taskId with
  | Some task => bool_decide (task_status task = running)
  | None => false
  end.

Definition resumeTask (e : Engine) (taskId : string) : bool :=
  match getActiveTask e taskId with
  | Some _ => true
  | None => false
  end.

(** The fields of a task that nothing assigns after its creation. *)
Definition sameTask (t t' : AgentTask) : Prop :=
  task_id t' = task_id t
  /\ task_type t' = task_type t
  /\ task_description t' = task_description t
  /\ task_createdAt t' = task_createdAt t.

(** [chain'] is the object [chain] at a later time: same id, name and
    creation time, the same tasks in the same places. *)
Definition sameIdentity (chain chain' : TaskChain) : Prop :=
  chain_id chain' = chain_id chain
  /\ chain_name chain' = chain_name chain
  /\ chain_createdAt chain' = chain_createdAt chain
  /\ length (chain_tasks chain') = length (chain_tasks chain)
  /\ (forall j t, chain_tasks chain !! j = Some t ->
        exists t', chain_tasks chain' !! j = Some t' /\ sameTask t t').

Definition storeEvolves (chains chains' : list TaskChain) : Prop :=
  length chains' = length chains
  /\ (forall l chain, chains !! l = Some chain ->
        exists chain', chains' !! l = Some chain' /\ sameIdentity chain chain').

(** Task [j] of a chain carries the id of the chain and its index, and
    the type inferred from its description. *)
Definition identityOk (chain : TaskChain) : Prop :=
  forall j t, chain_tasks chain !! j = Some t ->
    task_id t = chain_id chain +:+ "-task-" +:+ pretty j
    /\ task_type t = inferTaskType (task_description t).

(** What the fields of a task hold in each status. *)
Definition taskRecord (t : AgentTask) : Prop :=
  match task_status t with
  | pending | running =>
      task_result t = None /\ task_error t = None /\ task_completedAt t = None
  | completed => is_Some (task_result t) /\ is_Some (task_completedAt t)
  | failed => is_Some (task_error t) /\ is_Some (task_completedAt t)
  end.

(** The same for a chain and its tasks. *)
Definition chainRecord (chain : TaskChain) : Prop :=
  match chain_status chain with
  | pending | running => chain_completedAt chain = None
  | completed | failed => is_Some (chain_completedAt chain)
  end
  /\ (forall j t, chain_tasks chain !! j = Some t -> taskRecord t).

(** Every entry of [activeTasks] names the task a suspended execution is
    at, under the id of this task. *)
Definition activeOk (s : System) : Prop :=
  forall taskId l i, activeTasks (engine s) !! taskId = Some (l, i) ->
    exists p x chain t,
      executions s !! p = Some (Suspended x)
      /\ exec_chain x = l /\ exec_i x = i
      /\ store (engine s) !! l = Some chain
      /\ chain_tasks chain !! i = Some t
      /\ task_id t = taskId.

(** A completed chain has one result for each task, and no suspended
    execution holds it. *)
Definition doneOk (s : System) : Prop :=
  forall l chain, store (engine s) !! l = Some chain -> chain_status chain = completed ->
    length (chain_results chain) = length (chain_tasks chain)
    /\ forall p x, executions s !! p = Some (Suspended x) -> exec_chain x <> l.

(** ** The other capabilities and the wrappers of PyrDevAgent *)

Definition CODE_EXPLANATION_PROMPT : string :=
"Explain the following code in detail:

Language: {language}
Code:
{code}

Provide:
1. Overall purpose and functionality
2. Step-by-step breakdown
3. Key concepts and patterns used
4. Potential use cases
5. Any notable aspects or complexities".

Definition CODE_GENERATION_PROMPT : string :=
"Generate {language} code based on this description:
{description}

Requirements:
- Follow best practices and conventions
- Include appropriate error handling
- Add helpful comments
- Make the code production-ready
- Consider performance and maintainability".

(** The [generate] entry that [initializeCapabilities] registers. *)
Definition generateCapability : AgentCapability :=
  mkCapability "Code Generation" "Generate code from natural language description"
    (fun context parameters =>
       let description :=
         default "Generate code" (truthy (parameters ≫= param_description)) in
       let language := default "javascript" (truthy (language context)) in
       let prompt := formatPrompt CODE_GENERATION_PROMPT
                       [("language", language); ("description", description)] in
       GenerateResponse
         [mkMessage system SYSTEM_PROMPT; mkMessage user prompt]
         (fun response => Return (AnyString (response_content response)))).

(** The [explain] entry. *)
Definition explainCapability : AgentCapability :=
  mkCapability "Code Explanation" "Explain code functionality and structure"
    (fun context parameters =>
       match truthy (code context) with
       | None => Throw (mkError "No code provided for explanation")
       | Some code =>
           let prompt := formatPrompt CODE_EXPLANATION_PROMPT
                           [("language", default "unknown" (truthy (language context)));
                            ("code", code)] in
           GenerateResponse
             [mkMessage system SYSTEM_PROMPT; mkMessage user prompt]
             (fun response => Return (AnyString (response_content response)))
       end).

(** [generateCode] up to the first [await] inside it.  As in
    [applyFixes], the second argument of [this.executeTask] is evaluated
    and dropped. *)
Definition generateCode_call (a : BaseAgent) (created d : Date) (stamp : string)
    (description language : string) : AgentTask * (Run + Outcome) :=
  let context := mkContext None (Some language) None None None None in
  let dropped := mkParameters None (Some description) in
  executeTask_call a d
    (mkTask ("generate-" +:+ stamp) "generate" "Generate code" context pending
            None None created None).

(** [explainCode] up to the first [await] inside it. *)
Definition explainCode_call (a : BaseAgent) (created d : Date) (stamp : string)
    (code language : string) : AgentTask * (Run + Outcome) :=
  let context := mkContext (Some code) (Some language) None None None None in
  executeTask_call a d
    (mkTask ("explain-" +:+ stamp) "explain" "Explain code" context pending
            None None created None).




(** [executeTask] from call to result, uninterrupted: the capability, if
    one is called, settles with the head of [script].  [None] when the
    script is empty at that point. *)
Definition executeTask (a : BaseAgent) (d : Date) (task : AgentTask)
    (script : list Outcome) : AgentTask * option (Outcome * list Outcome) :=
  let called := executeTask_call a d task in
  match snd called with
  | inr o => (fst called, Some (o, script))
  | inl _ =>
      match script with
      | [] => (fst called, None)
      | o :: script' =>
          let resumed := executeTask_resume d (fst called) o in
          (fst resumed, Some (snd resumed, script'))
      end
  end.

(** [executeChainTasks] of [BaseAgent], uninterrupted, from the task at
    the head of [tasks] on: the task objects after it, the clock reads
    after it, and its outcome.  The local [context] of the source is
    written and never read. *)
Fixpoint executeChainTasks_from (a : BaseAgent) (clock : nat -> Date) (reads : nat)
    (results : list any) (tasks : list AgentTask) (script : list Outcome)
  : list AgentTask * nat * option ChainOutcome :=
  match tasks with
  | [] => ([], reads, Some (ChainResolved results))
  | task :: rest =>
      match executeTask a (clock reads) (withPreviousResults task results) script with
      | (task', None) => (task' :: rest, reads, None)
      | (task', Some (Rejected error, _)) =>
          (task' :: rest, S reads, Some (ChainRejected error))
      | (task', Some (Resolved result, script')) =>
          let '(rest', reads', out) :=
            executeChainTasks_from a clock (S reads) (results ++ [result]) rest script' in
          (task' :: rest', reads', out)
      end
  end.

Definition executeChainTasks (a : BaseAgent) (clock : nat -> Date) (reads : nat)
    (tasks : list AgentTask) (script : list Outcome)
  : list AgentTask * nat * option ChainOutcome :=
  executeChainTasks_from a clock reads [] tasks script.

(** An agent with the three capabilities above. *)
Definition codeAgent : BaseAgent :=
  newAgent {[ "fix" := fixCapability;
              "generate" := generateCapability;
              "explain" := explainCapability ]}.

(** ** Further scenarios *)

(** A chain of one task whose capability has resolved, and a chain of two
    tasks whose first capability has rejected; in both the execution has
    yet to resume. *)
Definition afterResolvedTask : System :=
  runEvents (newSystem countingClock)
    [ Create "c1" "demo" ["Fix the code"] (Some codeContext);
      Execute "c1" fixAgent;
      CapabilitySettles 0 (Resolved (AnyString "fixed")) ].

Definition afterRejectedTask : System :=
  runEvents (newSystem countingClock)
    [ Create "c1" "demo" ["Fix the code"; "Repair it"] (Some codeContext);
      Execute "c1" fixAgent;
      CapabilitySettles 0 (Rejected (mkError "Gemini Error: timeout")) ].

(** ** The dates of the engine *)

(** Where the dates of a chain come from: the chain was created at read
    [jc] of the clock and its tasks at earlier reads; a completion time,
    of the chain or of a task, is a later read, before read [hi]. *)
Definition taskStamps (clock : nat -> Date) (jc hi : nat) (t : AgentTask) : Prop :=
  (exists jt, jt <= jc /\ task_createdAt t = clock jt)
  /\ (forall d, task_completedAt t = Some d -> exists j, jc <= j < hi /\ d = clock j).

Definition chainStamps (clock : nat -> Date) (hi : nat) (chain : TaskChain) : Prop :=
  exists jc,
    jc < hi
    /\ chain_createdAt chain = clock jc
    /\ (forall d, chain_completedAt chain = Some d -> exists j, jc <= j < hi /\ d = clock j)
    /\ (forall i t, chain_tasks chain !! i = Some t -> taskStamps clock jc hi t).

(** An object keeps its creation time, and its completion time unless it
    gets one read between [lo] and [hi]. *)
Definition restamped (clock : nat -> Date) (lo hi : nat)
    (created created' : Date) (ended ended' : option Date) : Prop :=
  created' = created
  /\ (ended' = ended \/ exists k, lo <= k < hi /\ ended' = Some (clock k)).

Definition stampsOk (e : Engine) : Prop :=
  forall l chain, store e !! l = Some chain -> chainStamps (clock e) (reads e) chain.

(** ** LLMProviderManager *)

(** The settings the providers read from the configuration "pyr-dev". *)
Record Settings := mkSettings {
  defaultProvider : option string;
  azureApiKey : option string;
  azureEndpoint : option string;
  geminiApiKey : option string
}.

Inductive Provider := Azure | Gemini.

Definition isTruthy (s : option string) : bool :=
  match truthy s with
  | Some _ => true
  | None => false
  end.

(** [isConfigured] of the two providers. *)
Definition isConfigured (c : Settings) (p : Provider) : bool :=
  match p with
  | Azure => isTruthy (azureApiKey c) && isTruthy (azureEndpoint c)
  | Gemini => isTruthy (geminiApiKey c)
  end.

(** The checks at the head of [getClient] and [getModel], for a provider
    that has no client yet: the error they throw, if any. *)
Definition getClient_check (c : Settings) (p : Provider) : option Error :=
  match p with
  | Azure =>
      if negb (isTruthy (azureApiKey c)) || negb (isTruthy (azureEndpoint c))
      then Some (mkError "Azure OpenAI API key and endpoint must be configured")
      else None
  | Gemini =>
      if negb (isTruthy (geminiApiKey c))
      then Some (mkError "Google Gemini API key must be configured")
      else None
  end.

Definition noProviderError : Error :=
  mkError "No LLM provider is properly configured. Please check your API keys in settings.".

(** [getActiveProvider]; [config.get("defaultProvider", "azure")] gives
    "azure" for a setting that is not there. *)
Definition getActiveProvider (c : Settings) : Provider + Error :=
  let defaultProvider := default "azure" (defaultProvider c) in
  if String.eqb defaultProvider "gemini"
  then
    if isConfigured c Gemini then inl Gemini
    else if isConfigured c Azure then inl Azure
    else inr noProviderError
  else
    if isConfigured c Azure then inl Azure
    else if isConfigured c Gemini then inl Gemini
    else inr noProviderError.

Definition getAllProviders : list Provider := [Azure; Gemini].

Definition getConfiguredProviders (c : Settings) : list Provider :=
  List.filter (isConfigured c) getAllProviders.

(** * Properties *)

(** ** Task-type inference *)

Lemma lowerUnit_idempotent c : lowerUnit (lowerUnit c) = lowerUnit c.
Proof. destruct c as [[] [] [] [] [] [] [] []]; reflexivity. Qed.

Lemma toLowerCase_idempotent s : toLowerCase (toLowerCase s) = toLowerCase s.
Proof.
  induction s as [|c s IH]; simpl; [reflexivity|].
  rewrite lowerUnit_idempotent. congruence.
Qed.

Lemma inferTaskType_firstMatch d : inferTaskType d = inferTaskType_spec d.
Proof.
  unfold inferTaskType, inferTaskType_spec, keywordGroups.
  cbn [firstMatch existsb].
  rewrite !orb_false_r, !orb_assoc. reflexivity.
Qed.

(** C7, as stated, fails on its third example: "Repair the null check"
    contains "check", which the first group of keywords takes before
    "repair" is looked for. *)
Lemma inferTaskType_repair_null_check :
  inferTaskType "Repair the null check" <> "fix".
Proof. vm_compute. discriminate. Qed.

(** C7, amended: the type inferred for a description is the first match of
    the priority list analyze/check/review, fix/correct/repair,
    generate/create/write, explain/describe/clarify on the lower-cased
    description, [general] without a match; it does not depend on the case
    of the letters; "Repair the null check" gets analyze, the four other
    descriptions of the specification get analyze, generate, explain and
    general. *)
Theorem inferTaskType_priority :
  (forall d, inferTaskType d = inferTaskType_spec d)
  /\ (forall d, inferTaskType (toLowerCase d) = inferTaskType d)
  /\ inferTaskType "Review this function for bugs" = "analyze"
  /\ inferTaskType "Write a sorting function" = "generate"
  /\ inferTaskType "Repair the null check" = "analyze"
  /\ inferTaskType "Describe what this does" = "explain"
  /\ inferTaskType "Do something" = "general".
Proof.
  split; [exact inferTaskType_firstMatch|].
  split.
  - intros d. unfold inferTaskType. rewrite toLowerCase_idempotent. reflexivity.
  - repeat split; vm_compute; reflexivity.
Qed.

(** ** The conversation window *)

Lemma sliceLast_short {A} n (l : list A) : length l <= n -> sliceLast n l = l.
Proof.
  intros H. unfold sliceLast. replace (length l - n) with 0 by lia. reflexivity.
Qed.

Lemma sliceLast_length {A} n (l : list A) : length (sliceLast n l) <= n.
Proof. unfold sliceLast. rewrite length_drop. lia. Qed.

Lemma sliceLast_app {A} n (l l2 : list A) :
  sliceLast n (sliceLast n l ++ l2) = sliceLast n (l ++ l2).
Proof.
  destruct (le_lt_dec (length l) n) as [Hle|Hgt].
  - rewrite (sliceLast_short n l Hle). reflexivity.
  - unfold sliceLast.
    rewrite <- (drop_app_le l l2 (length l - n)) by lia.
    rewrite drop_drop. f_equal.
    rewrite length_drop, !length_app. lia.
Qed.

Lemma addToConversation_history a r c :
  conversationHistory (addToConversation a r c)
  = sliceLast 20 (conversationHistory a ++ [mkMessage r c]).
Proof.
  unfold addToConversation. simpl.
  destruct (Nat.ltb_spec 20 (length (conversationHistory a ++ [mkMessage r c]))) as [H|H].
  - reflexivity.
  - symmetry. apply sliceLast_short. exact H.
Qed.

Lemma appendTurns_history a turns :
  length (conversationHistory a) <= 20 ->
  conversationHistory (appendTurns a turns)
  = sliceLast 20 (conversationHistory a
                  ++ map (fun turn => mkMessage (fst turn) (snd turn)) turns).
Proof.
  revert a. induction turns as [|[r c] turns IH]; intros a Ha; simpl.
  - rewrite app_nil_r. symmetry. apply sliceLast_short. exact Ha.
  - unfold appendTurns in *. simpl. rewrite IH.
    + rewrite addToConversation_history, sliceLast_app, <- app_assoc. reflexivity.
    + rewrite addToConversation_history. apply sliceLast_length.
Qed.

(** C9: after any sequence of [addToConversation] calls on a new agent the
    history has at most 20 entries, exactly 20 once 20 turns were
    appended, and it is the last 20 of the turns appended, in their order
    (all of them while there are at most 20). *)
Theorem conversation_window caps (turns : list (Role * string)) :
  let history := conversationHistory (appendTurns (newAgent caps) turns) in
  length history <= 20
  /\ length history = Nat.min 20 (length turns)
  /\ history = sliceLast 20 (map (fun turn => mkMessage (fst turn) (snd turn)) turns)
  /\ history = drop (length turns - 20)
                    (map (fun turn => mkMessage (fst turn) (snd turn)) turns).
Proof.
  cbv zeta.
  rewrite (appendTurns_history (newAgent caps) turns) by (simpl; lia).
  cbn [newAgent conversationHistory app]. split; [apply sliceLast_length|].
  split; [unfold sliceLast; rewrite length_drop, length_map; lia|].
  split; [reflexivity|].
  unfold sliceLast. rewrite length_map. reflexivity.
Qed.

(** ** Single-task execution *)

(** C5: [executeTask] sets the task to [running]; without a capability for
    its type the task, having been [running], ends [failed] with the
    unknown-type message and [completedAt] stamped, and the promise
    rejects with that error; with one, the capability is called on the
    task's context while the task is [running], and when it resolves the
    task object ends [completed] with the result stored, [completedAt]
    stamped and the result returned, when it rejects the task object ends
    [failed] with the error's message stored, [completedAt] stamped and
    the same error raised again. *)
Theorem executeTask_lifecycle (a : BaseAgent) (d : Date) (task : AgentTask) :
  match capabilities a !! task_type task with
  | None =>
      let unknown := "Unknown task type: " +:+ task_type task in
      executeTask_call a d task
      = (setCompletedAt (setError (setStatus (setStatus task running) failed) unknown) d,
         inr (Rejected (mkError unknown)))
      /\ task_status (fst (executeTask_call a d task)) = failed
      /\ task_error (fst (executeTask_call a d task)) = Some unknown
      /\ task_completedAt (fst (executeTask_call a d task)) = Some d
  | Some capability =>
      executeTask_call a d task
      = (setStatus task running, inl (execute capability (task_context task) None))
      /\ task_status (fst (executeTask_call a d task)) = running
      /\ (forall later current result,
            let ended := executeTask_resume later current (Resolved result) in
            snd ended = Resolved result
            /\ task_status (fst ended) = completed
            /\ task_result (fst ended) = Some result
            /\ task_completedAt (fst ended) = Some later)
      /\ (forall later current error,
            let ended := executeTask_resume later current (Rejected error) in
            snd ended = Rejected error
            /\ task_status (fst ended) = failed
            /\ task_error (fst ended) = Some (message error)
            /\ task_completedAt (fst ended) = Some later)
  end.
Proof.
  unfold executeTask_call.
  destruct (capabilities a !! task_type task) as [capability|]; simpl; repeat split.
Qed.

(** ** Fixes *)

Lemma applyFixes_ignores_issues a created d stamp code issues :
  applyFixes_call a created d stamp code issues
  = applyFixes_call a created d stamp code [].
Proof. reflexivity. Qed.

(** C8, as the code runs: whatever the issues, [applyFixes] makes the same
    provider call as for no issue at all; for the code [x=1] and the issue
    "error: Unused variable (Line 3)" the prompt has an empty issues
    section and does not contain the description. *)
Theorem applyFixes_prompt_without_issues :
  (forall a created d stamp code issues,
      sentMessages (applyFixes_call a created d stamp code issues)
      = sentMessages (applyFixes_call a created d stamp code []))
  /\ issueDescription (mkIssue sev_error "Unused variable" 3)
     = "error: Unused variable (Line 3)"
  /\ exists prompt,
      sentMessages (applyFixes_call fixAgent 0%Z 1%Z "0" "x=1"
                      [mkIssue sev_error "Unused variable" 3])
      = Some [mkMessage system SYSTEM_PROMPT; mkMessage user prompt]
      /\ prompt = formatPrompt CODE_FIX_PROMPT [("code", "x=1"); ("issues", "")]
      /\ includes prompt "Unused variable" = false
      /\ includes prompt (String "010" "Issues: " +:+ String "010" "") = true.
Proof.
  split; [reflexivity|]. split; [vm_compute; reflexivity|].
  eexists. split; [vm_compute; reflexivity|].
  split; vm_compute; repeat split.
Qed.

(** ** Lookups in the engine *)

Lemma getTaskChainAt_Some e chainId l chain :
  getTaskChainAt e chainId = Some (l, chain)
  <-> taskChains e !! chainId = Some l /\ store e !! l = Some chain.
Proof.
  unfold getTaskChainAt.
  destruct (taskChains e !! chainId) as [l'|]; [|split; [discriminate|intros [? _]; discriminate]].
  destruct (store e !! l') as [c|] eqn:Hc.
  - split.
    + intros [= <- <-]. auto.
    + intros [[= <-] ?]. congruence.
  - split; [discriminate|]. intros [[= <-] ?]. congruence.
Qed.

Lemma getTaskChain_Some e chainId chain :
  getTaskChain e chainId = Some chain
  <-> exists l, getTaskChainAt e chainId = Some (l, chain).
Proof.
  unfold getTaskChain.
  destruct (getTaskChainAt e chainId) as [[l c]|]; simpl.
  - split; [intros [= <-]; eauto|intros [l' [= <- <-]]; reflexivity].
  - split; [discriminate|intros [l' ?]; discriminate].
Qed.

Lemma getTaskChainAt_create e chainId name descs ctx :
  getTaskChainAt (fst (createTaskChain e chainId name descs ctx)) chainId
  = Some (length (store e), newTaskChain e chainId name descs ctx).
Proof.
  apply getTaskChainAt_Some. simpl. split.
  - apply lookup_insert_eq.
  - apply list_lookup_middle. reflexivity.
Qed.

Lemma getTaskChain_create e chainId name descs ctx :
  getTaskChain (fst (createTaskChain e chainId name descs ctx)) chainId
  = Some (newTaskChain e chainId name descs ctx).
Proof. unfold getTaskChain. rewrite getTaskChainAt_create. reflexivity. Qed.

(** ** Progress *)

Lemma countCompleted_le tasks : countCompleted tasks <= length tasks.
Proof. unfold countCompleted. apply length_filter. Qed.

Lemma getTaskProgress_missing e chainId :
  getTaskChain e chainId = None -> getTaskProgress e chainId = Finite 0.
Proof. unfold getTaskProgress. intros ->. reflexivity. Qed.

Lemma getTaskProgress_fraction e chainId chain :
  getTaskChain e chainId = Some chain ->
  chain_tasks chain <> [] ->
  exists q, getTaskProgress e chainId = Finite q
            /\ (q == inject_Z (Z.of_nat (countCompleted (chain_tasks chain)))
                     / inject_Z (Z.of_nat (length (chain_tasks chain))))%Q
            /\ (0 <= q)%Q /\ (q <= 1)%Q.
Proof.
  intros Hc Hne. unfold getTaskProgress. rewrite Hc.
  pose proof (countCompleted_le (chain_tasks chain)) as Hle.
  assert (0 < length (chain_tasks chain)) as Hpos
    by (destruct (chain_tasks chain); [congruence|simpl; lia]).
  set (k := countCompleted (chain_tasks chain)) in *.
  destruct (length (chain_tasks chain)) as [|n]; [lia|].
  assert (Z.pos (Pos.of_nat (S n)) = Z.of_nat (S n)) as Hz by lia.
  unfold divide. eexists. split; [reflexivity|].
  split; [|split].
  - rewrite Qmake_Qdiv, Hz. reflexivity.
  - unfold Qle. simpl. lia.
  - unfold Qle. cbn [Qnum Qden]. rewrite Hz. lia.
Qed.

(** C6 fails where the chain has no task: [createTaskChain] accepts an
    empty list of descriptions, and for the chain it makes
    [getTaskProgress] divides zero by zero. *)
Theorem getTaskProgress_empty_chain e chainId name initialContext :
  getTaskProgress (fst (createTaskChain e chainId name [] initialContext)) chainId
  = NaN.
Proof.
  unfold getTaskProgress. rewrite getTaskChain_create. reflexivity.
Qed.

(** ** Cancellation *)

Lemma cancelTasks_lookup clock reads tasks i task :
  tasks !! i = Some task ->
  exists task', fst (cancelTasks clock reads tasks) !! i = Some task'
    /\ (task_status task <> running -> task' = task)
    /\ (task_status task = running -> exists d, task' = cancelTask d task).
Proof.
  revert reads i. induction tasks as [|t ts IH]; intros reads i Hi; [discriminate|].
  simpl. destruct (decide (task_status t = running)) as [Hr|Hr].
  - destruct (cancelTasks clock (S reads) ts) as [ts' r'] eqn:E.
    destruct i as [|i]; simpl in *.
    + injection Hi as <-. eexists. split; [reflexivity|]. split; [tauto|eauto].
    + specialize (IH (S reads) i Hi). rewrite E in IH. exact IH.
  - destruct (cancelTasks clock reads ts) as [ts' r'] eqn:E.
    destruct i as [|i]; simpl in *.
    + injection Hi as <-. eexists. split; [reflexivity|]. split; [tauto|tauto].
    + specialize (IH reads i Hi). rewrite E in IH. exact IH.
Qed.

Lemma cancelTasks_length clock reads tasks :
  length (fst (cancelTasks clock reads tasks)) = length tasks.
Proof.
  revert reads. induction tasks as [|t ts IH]; intros reads; [reflexivity|].
  simpl. destruct (decide (task_status t = running)).
  - specialize (IH (S reads)). destruct (cancelTasks clock (S reads) ts). simpl in *. lia.
  - specialize (IH reads). destruct (cancelTasks clock reads ts). simpl in *. lia.
Qed.

(** What [cancelTaskChain] does to a running chain. *)
Lemma cancelTaskChain_running e chainId l chain :
  getTaskChainAt e chainId = Some (l, chain) ->
  chain_status chain = running ->
  exists d,
    let tasks := fst (cancelTasks (clock e) (reads e) (chain_tasks chain)) in
    let chain' := withCompletedAt (withStatus (withTasks chain tasks) failed) d in
    snd (cancelTaskChain e chainId) = true
    /\ store (fst (cancelTaskChain e chainId)) = <[l := chain']> (store e)
    /\ taskChains (fst (cancelTaskChain e chainId)) = taskChains e
    /\ activeTasks (fst (cancelTaskChain e chainId)) = activeTasks e
    /\ getTaskChainAt (fst (cancelTaskChain e chainId)) chainId = Some (l, chain').
Proof.
  intros Hget Hrun. unfold cancelTaskChain. rewrite Hget.
  destruct (decide (chain_status chain = running)) as [_|?]; [|contradiction].
  destruct (cancelTasks (clock e) (reads e) (chain_tasks chain)) as [tasks reads1] eqn:E.
  exists (clock e reads1). simpl. repeat split.
  apply getTaskChainAt_Some in Hget as [Hm Hs].
  apply getTaskChainAt_Some. simpl. split; [exact Hm|].
  apply list_lookup_insert_eq. eapply lookup_lt_Some. exact Hs.
Qed.

Lemma cancelTaskChain_idle e chainId :
  (getTaskChain e chainId = None
   \/ exists chain, getTaskChain e chainId = Some chain /\ chain_status chain <> running) ->
  cancelTaskChain e chainId = (e, false).
Proof.
  unfold cancelTaskChain, getTaskChain.
  destruct (getTaskChainAt e chainId) as [[l c]|]; simpl.
  - intros [?|[chain [[= <-] Hs]]]; [discriminate|].
    destruct (decide (chain_status c = running)); [contradiction|reflexivity].
  - reflexivity.
Qed.

(** C4: on a chain whose status is [running], [cancelTaskChain] returns
    true, the chain is [failed] with [completedAt] set, and every task
    that was [running] is [failed] with the error "Cancelled by user" and
    [completedAt] set; on an unknown id or a chain that is not [running]
    it returns false and the engine (the map, every chain, every field) is
    as before. *)
Theorem cancelTaskChain_spec (e : Engine) (chainId : string) :
  (forall l chain,
      getTaskChainAt e chainId = Some (l, chain) ->
      chain_status chain = running ->
      exists chain',
        snd (cancelTaskChain e chainId) = true
        /\ getTaskChainAt (fst (cancelTaskChain e chainId)) chainId = Some (l, chain')
        /\ chain_status chain' = failed
        /\ is_Some (chain_completedAt chain')
        /\ forall i task,
            chain_tasks chain !! i = Some task ->
            task_status task = running ->
            exists task',
              chain_tasks chain' !! i = Some task'
              /\ task_status task' = failed
              /\ task_error task' = Some "Cancelled by user"
              /\ is_Some (task_completedAt task'))
  /\ ((getTaskChain e chainId = None
       \/ exists chain, getTaskChain e chainId = Some chain
                        /\ chain_status chain <> running) ->
      cancelTaskChain e chainId = (e, false)).
Proof.
  split; [|apply cancelTaskChain_idle].
  intros l chain Hget Hrun.
  destruct (cancelTaskChain_running e chainId l chain Hget Hrun)
    as [d (Hret & _ & _ & _ & Hget')].
  eexists. split; [exact Hret|]. split; [exact Hget'|].
  simpl. split; [reflexivity|]. split; [eauto|].
  intros i task Hi Hr.
  destruct (cancelTasks_lookup (clock e) (reads e) _ i task Hi) as [task' (Hl & _ & Hc)].
  destruct (Hc Hr) as [d' ->].
  exists (cancelTask d' task). split; [exact Hl|]. simpl. eauto.
Qed.

(** C10: [cancelTaskChain] on a running chain changes, of its tasks, only
    those whose status is [running]: every other task, and so every
    [pending] one, is the same object with the same fields after it, in a
    chain that is now [failed]; the task list keeps its length, the other
    chains are not touched, and a second call finds the chain not running
    and changes nothing, so that the pending tasks are never marked. *)
Theorem cancelTaskChain_frame (e : Engine) (chainId : string) l chain :
  getTaskChainAt e chainId = Some (l, chain) ->
  chain_status chain = running ->
  exists chain',
    getTaskChainAt (fst (cancelTaskChain e chainId)) chainId = Some (l, chain')
    /\ chain_status chain' = failed
    /\ length (chain_tasks chain') = length (chain_tasks chain)
    /\ (forall i task,
          chain_tasks chain !! i = Some task ->
          task_status task <> running ->
          chain_tasks chain' !! i = Some task)
    /\ (forall i task,
          chain_tasks chain !! i = Some task ->
          task_status task = pending ->
          exists task',
            chain_tasks chain' !! i = Some task'
            /\ task_status task' = pending
            /\ task_error task' = task_error task
            /\ task_completedAt task' = task_completedAt task)
    /\ (forall l', l' <> l ->
          store (fst (cancelTaskChain e chainId)) !! l' = store e !! l')
    /\ cancelTaskChain (fst (cancelTaskChain e chainId)) chainId
       = (fst (cancelTaskChain e chainId), false).
Proof.
  intros Hget Hrun.
  destruct (cancelTaskChain_running e chainId l chain Hget Hrun)
    as [d (_ & Hstore & _ & _ & Hget')].
  assert (forall i task,
             chain_tasks chain !! i = Some task ->
             task_status task <> running ->
             fst (cancelTasks (clock e) (reads e) (chain_tasks chain)) !! i = Some task)
    as Hframe.
  { intros i task Hi Hn.
    destruct (cancelTasks_lookup (clock e) (reads e) _ i task Hi) as [task' (Hl & Hsame & _)].
    rewrite (Hsame Hn) in Hl. exact Hl. }
  eexists. split; [exact Hget'|]. simpl.
  split; [reflexivity|]. split; [apply cancelTasks_length|].
  split; [exact Hframe|]. split; [|split].
  - intros i task Hi Hp. exists task. split; [|auto].
    apply Hframe; [exact Hi|]. rewrite Hp. discriminate.
  - intros l' Hne. rewrite Hstore. apply list_lookup_insert_ne. congruence.
  - apply cancelTaskChain_idle. right. eexists. split.
    + apply getTaskChain_Some. eexists. exact Hget'.
    + simpl. discriminate.
Qed.

(** ** Uninterrupted execution *)

Lemma loop_called e l chain agent results i t cap :
  chain_tasks chain !! i = Some t ->
  capabilities agent !! task_type t = Some cap ->
  executeTaskChain_loop e l chain agent results i
  = (setActiveTasks
       (setChain e l
          (withTasks chain
             (<[i := setStatus (withPreviousResults t results) running]> (chain_tasks chain))))
       (<[task_id t := (l, i)]> (activeTasks e)),
     Suspended (mkExecution l agent results i
                  (AwaitCapability
                     (execute cap (task_context (withPreviousResults t results)) None)))).
Proof.
  intros Ht Hcap. unfold executeTaskChain_loop, executeTask_call.
  rewrite Ht. simpl. rewrite Hcap. reflexivity.
Qed.

Lemma loop_missing e l chain agent results i t :
  chain_tasks chain !! i = Some t ->
  capabilities agent !! task_type t = None ->
  executeTaskChain_loop e l chain agent results i
  = (tick (setActiveTasks
             (setChain e l
                (withTasks chain
                   (<[i := setCompletedAt
                             (setError
                                (setStatus (setStatus (withPreviousResults t results) running)
                                           failed)
                                ("Unknown task type: " +:+ task_type t))
                             (now e)]> (chain_tasks chain))))
             (<[task_id t := (l, i)]> (activeTasks e))),
     Suspended (mkExecution l agent results i
                  (AwaitExecuteTask
                     (Rejected (mkError ("Unknown task type: " +:+ task_type t)))))).
Proof.
  intros Ht Hcap. unfold executeTaskChain_loop, executeTask_call.
  rewrite Ht. simpl. rewrite Hcap. reflexivity.
Qed.

Lemma loop_end e l chain agent results i :
  chain_tasks chain !! i = None ->
  executeTaskChain_loop e l chain agent results i
  = (tick (setChain e l (withCompletedAt (withStatus chain completed) (now e))),
     Settled (ChainResolved results)).
Proof. intros Ht. unfold executeTaskChain_loop. rewrite Ht. reflexivity. Qed.

Lemma settled_step e l agent results i r chain t o :
  store e !! l = Some chain ->
  chain_tasks chain !! i = Some t ->
  executeTask_settled e (mkExecution l agent results i (AwaitCapability r)) o
  = (tick (setChain e l
             (withTasks chain
                (<[i := fst (executeTask_resume (now e) t o)]> (chain_tasks chain)))),
     Suspended (mkExecution l agent results i
                  (AwaitExecuteTask (snd (executeTask_resume (now e) t o))))).
Proof.
  intros Hs Ht. unfold executeTask_settled. simpl. rewrite Hs, Ht. reflexivity.
Qed.

Lemma resume_resolved e l agent results i result chain t :
  store e !! l = Some chain ->
  chain_tasks chain !! i = Some t ->
  executeTaskChain_resume e (mkExecution l agent results i (AwaitExecuteTask (Resolved result)))
  = executeTaskChain_loop
      (setActiveTasks e (delete (task_id t) (activeTasks e))) l
      (withResults chain (chain_results chain ++ [result]))
      agent (results ++ [result]) (S i).
Proof.
  intros Hs Ht. unfold executeTaskChain_resume. simpl. rewrite Hs, Ht. reflexivity.
Qed.

Lemma resume_rejected e l agent results i error chain t :
  store e !! l = Some chain ->
  chain_tasks chain !! i = Some t ->
  executeTaskChain_resume e (mkExecution l agent results i (AwaitExecuteTask (Rejected error)))
  = (tick (setChain (setActiveTasks e (delete (task_id t) (activeTasks e))) l
             (withCompletedAt (withStatus chain failed) (now e))),
     Settled (ChainRejected error)).
Proof.
  intros Hs Ht. unfold executeTaskChain_resume. simpl. rewrite Hs, Ht. reflexivity.
Qed.



Lemma newTasks_descriptions e chainId context index descs :
  map task_description (newTasks e chainId context index descs) = descs.
Proof.
  revert index. induction descs as [|d descs IH]; intros index; simpl; [reflexivity|].
  rewrite IH. reflexivity.
Qed.

Lemma newTasks_lookup e chainId context index descs i t :
  newTasks e chainId context index descs !! i = Some t ->
  task_status t = pending /\ task_error t = None /\ task_completedAt t = None
  /\ task_result t = None
  /\ exists d, descs !! i = Some d /\ task_description t = d
               /\ task_type t = inferTaskType d.
Proof.
  revert index i. induction descs as [|d descs IH]; intros index i Hi; [discriminate|].
  destruct i as [|i]; simpl in Hi.
  - injection Hi as <-. simpl. repeat split. exists d. repeat split.
  - apply (IH (S index) i Hi).
Qed.

Lemma executeTaskChain_found e chainId agent script l chain :
  getTaskChainAt e chainId = Some (l, chain) ->
  executeTaskChain e chainId agent script
  = drive (2 * length (chain_tasks chain))
          (executeTaskChain_loop e l (withStatus chain running) agent [] 0) script.
Proof.
  intros Hget. unfold executeTaskChain, executeTaskChain_call, getTaskChain.
  rewrite Hget. reflexivity.
Qed.


Lemma drive_settled fuel e o script :
  drive fuel (e, Settled o) script = (e, Some o).
Proof. destruct fuel; reflexivity. Qed.

Lemma drive_await_capability fuel e l agent results i r o script :
  drive (S fuel) (e, Suspended (mkExecution l agent results i (AwaitCapability r)))
        (o :: script)
  = drive fuel
      (executeTask_settled e (mkExecution l agent results i (AwaitCapability r)) o)
      script.
Proof. reflexivity. Qed.

Lemma drive_await_executeTask fuel e l agent results i o script :
  drive (S fuel) (e, Suspended (mkExecution l agent results i (AwaitExecuteTask o)))
        script
  = drive fuel
      (executeTaskChain_resume e (mkExecution l agent results i (AwaitExecuteTask o)))
      script.
Proof. reflexivity. Qed.


(** The uninterrupted execution is a run of the system: the call, then
    resumptions of the execution it started and nothing else. *)
Lemma drive_is_a_run fuel :
  forall s p a script e' out,
    executions s !! p = Some a ->
    drive fuel (engine s, a) script = (e', Some out) ->
    exists events,
      Forall (resumes p) events
      /\ engine (runEvents s events) = e'
      /\ executions (runEvents s events) !! p = Some (Settled out).
Proof.
  induction fuel as [|fuel IH]; intros s p a script e' out Hp Hd.
  - destruct a as [x|o]; simpl in Hd; [discriminate|].
    injection Hd as <- <-. exists []. split; [constructor|]. split; [reflexivity|exact Hp].
  - destruct a as [x|o]; simpl in Hd.
    + pose proof (lookup_lt_Some _ _ _ Hp) as Hlt.
      destruct (exec_phase x) as [r|o1] eqn:Hph.
      * destruct script as [|o script]; [discriminate|].
        destruct (IH (perform s (CapabilitySettles p o)) p
                     (snd (executeTask_settled (engine s) x o)) script e' out)
          as [events (Hev & He & Hx)].
        -- simpl. rewrite Hp. simpl. apply list_lookup_insert_eq. exact Hlt.
        -- simpl. rewrite Hp. simpl. rewrite <- surjective_pairing. exact Hd.
        -- exists (CapabilitySettles p o :: events).
           split; [constructor; [left; eauto|exact Hev]|]. split; assumption.
      * destruct (IH (perform s (Resume p)) p
                     (snd (executeTaskChain_resume (engine s) x)) script e' out)
          as [events (Hev & He & Hx)].
        -- simpl. rewrite Hp. simpl. apply list_lookup_insert_eq. exact Hlt.
        -- simpl. rewrite Hp. simpl. rewrite <- surjective_pairing. exact Hd.
        -- exists (Resume p :: events).
           split; [constructor; [right; reflexivity|exact Hev]|]. split; assumption.
    + injection Hd as <- <-. exists []. split; [constructor|]. split; [reflexivity|exact Hp].
Qed.

(** [executeTaskChain] from call to result is a run of the system: when
    it ends, the call and then resumptions of the execution it started,
    and no other event, lead to the same engine, with this execution
    settled with the same outcome. *)
Lemma executeTaskChain_is_a_run s chainId agent script e' out :
  executeTaskChain (engine s) chainId agent script = (e', Some out) ->
  exists events,
    Forall (resumes (length (executions s))) events
    /\ engine (runEvents s (Execute chainId agent :: events)) = e'
    /\ executions (runEvents s (Execute chainId agent :: events)) !! length (executions s)
       = Some (Settled out).
Proof.
  unfold executeTaskChain. intros Hd.
  eapply (drive_is_a_run _ (perform s (Execute chainId agent)) (length (executions s))
            (snd (executeTaskChain_call (engine s) chainId agent)) script).
  - simpl. apply list_lookup_middle. reflexivity.
  - simpl. rewrite <- surjective_pairing. exact Hd.
Qed.

(** ** Invariants of the engine among its callers *)

Lemma systemInv_step chains xs l chain' p x a :
  systemInv chains xs ->
  xs !! p = Some (Suspended x) ->
  exec_chain x = l ->
  chainInv chain' ->
  match a with
  | Suspended x' => exec_chain x' = l /\ execOn chain' x'
  | Settled _ => True
  end ->
  systemInv (<[l := chain']> chains) (<[p := a]> xs).
Proof.
  intros (I1 & I2 & I3) Hp Hl Hc' Ha.
  destruct (I2 p x Hp) as [chain [Hc _]]. rewrite Hl in Hc.
  pose proof (lookup_lt_Some _ _ _ Hc) as Hlt.
  pose proof (lookup_lt_Some _ _ _ Hp) as Hplt.
  assert (forall q y, q <> p -> xs !! q = Some (Suspended y) -> exec_chain y <> l) as Hother.
  { intros q y Hne Hq Heq. apply Hne. apply (I3 q p y x Hq Hp). congruence. }
  split; [|split].
  - intros l0 c0 H0. destruct (decide (l0 = l)) as [->|Hne].
    + rewrite list_lookup_insert_eq in H0 by exact Hlt. congruence.
    + rewrite list_lookup_insert_ne in H0 by congruence. eauto.
  - intros q y Hq. destruct (decide (q = p)) as [->|Hne].
    + rewrite list_lookup_insert_eq in Hq by exact Hplt. injection Hq as ->.
      destruct Ha as [Hal Hon]. exists chain'. rewrite Hal.
      split; [apply list_lookup_insert_eq; exact Hlt|exact Hon].
    + rewrite list_lookup_insert_ne in Hq by congruence.
      destruct (I2 q y Hq) as [c [Hcy Hon]]. exists c. split; [|exact Hon].
      rewrite list_lookup_insert_ne; [exact Hcy|]. intros E. exact (Hother q y Hne Hq (eq_sym E)).
  - intros q1 q2 y1 y2 H1 H2 Heq.
    destruct (decide (q1 = p)) as [->|Hne1]; destruct (decide (q2 = p)) as [->|Hne2];
      [reflexivity| | |].
    + rewrite list_lookup_insert_eq in H1 by exact Hplt. injection H1 as ->.
      rewrite list_lookup_insert_ne in H2 by congruence.
      destruct Ha as [Hal _]. exfalso. apply (Hother q2 y2 Hne2 H2). congruence.
    + rewrite list_lookup_insert_eq in H2 by exact Hplt. injection H2 as ->.
      rewrite list_lookup_insert_ne in H1 by congruence.
      destruct Ha as [Hal _]. exfalso. apply (Hother q1 y1 Hne1 H1). congruence.
    + rewrite list_lookup_insert_ne in H1, H2 by congruence. eauto.
Qed.

Lemma systemInv_start chains xs l chain chain' a :
  systemInv chains xs ->
  chains !! l = Some chain ->
  chain_status chain = pending ->
  chainInv chain' ->
  match a with
  | Suspended x' => exec_chain x' = l /\ execOn chain' x'
  | Settled _ => True
  end ->
  systemInv (<[l := chain']> chains) (xs ++ [a]).
Proof.
  intros (I1 & I2 & I3) Hc Hpend Hc' Ha.
  pose proof (lookup_lt_Some _ _ _ Hc) as Hlt.
  assert (forall q y, xs !! q = Some (Suspended y) -> exec_chain y <> l) as Hother.
  { intros q y Hq Heq. destruct (I2 q y Hq) as [c [Hcy (Hnp & _)]].
    rewrite Heq, Hc in Hcy. injection Hcy as <-. contradiction. }
  assert (forall q y, (xs ++ [a]) !! q = Some (Suspended y) ->
            xs !! q = Some (Suspended y) \/ (q = length xs /\ a = Suspended y)) as Hsplit.
  { intros q y Hq. apply lookup_app_Some in Hq as [Hq|[Hge Hq]]; [left; exact Hq|].
    right. apply list_lookup_singleton_Some in Hq as [Hz ->]. split; [lia|reflexivity]. }
  split; [|split].
  - intros l0 c0 H0. destruct (decide (l0 = l)) as [->|Hne].
    + rewrite list_lookup_insert_eq in H0 by exact Hlt. congruence.
    + rewrite list_lookup_insert_ne in H0 by congruence. eauto.
  - intros q y Hq. destruct (Hsplit q y Hq) as [Hold|[-> ->]].
    + destruct (I2 q y Hold) as [c [Hcy Hon]]. exists c. split; [|exact Hon].
      rewrite list_lookup_insert_ne; [exact Hcy|]. intros E. exact (Hother q y Hold (eq_sym E)).
    + destruct Ha as [Hal Hon]. exists chain'. rewrite Hal.
      split; [apply list_lookup_insert_eq; exact Hlt|exact Hon].
  - intros q1 q2 y1 y2 H1 H2 Heq.
    destruct (Hsplit q1 y1 H1) as [O1|[E1 A1]]; destruct (Hsplit q2 y2 H2) as [O2|[E2 A2]].
    + eauto.
    + subst a. destruct Ha as [Hal _]. exfalso. apply (Hother q1 y1 O1). congruence.
    + subst a. destruct Ha as [Hal _]. exfalso. apply (Hother q2 y2 O2). congruence.
    + congruence.
Qed.

Lemma systemInv_settled chains xs o :
  systemInv chains xs -> systemInv chains (xs ++ [Settled o]).
Proof.
  intros (I1 & I2 & I3).
  assert (forall q y, (xs ++ [Settled o]) !! q = Some (Suspended y) ->
            xs !! q = Some (Suspended y)) as Hold.
  { intros q y Hq. apply lookup_app_Some in Hq as [Hq|[Hge Hq]]; [exact Hq|].
    apply list_lookup_singleton_Some in Hq as [_ ?]. discriminate. }
  split; [exact I1|]. split.
  - intros q y Hq. apply (I2 q y). apply Hold. exact Hq.
  - intros q1 q2 y1 y2 H1 H2. apply I3; apply Hold; assumption.
Qed.

Lemma systemInv_update chains xs l chain chain' :
  systemInv chains xs ->
  chains !! l = Some chain ->
  chainInv chain' ->
  (forall x, execOn chain x -> execOn chain' x) ->
  systemInv (<[l := chain']> chains) xs.
Proof.
  intros (I1 & I2 & I3) Hc Hc' Hkeep.
  pose proof (lookup_lt_Some _ _ _ Hc) as Hlt.
  split; [|split; [|exact I3]].
  - intros l0 c0 H0. destruct (decide (l0 = l)) as [->|Hne].
    + rewrite list_lookup_insert_eq in H0 by exact Hlt. congruence.
    + rewrite list_lookup_insert_ne in H0 by congruence. eauto.
  - intros q y Hq. destruct (I2 q y Hq) as [c [Hcy Hon]].
    destruct (decide (exec_chain y = l)) as [E|Hne].
    + exists chain'. rewrite E in *. split; [apply list_lookup_insert_eq; exact Hlt|].
      apply Hkeep. congruence.
    + exists c. split; [|exact Hon]. rewrite list_lookup_insert_ne by congruence. exact Hcy.
Qed.

Lemma systemInv_create chains xs c :
  systemInv chains xs -> chainInv c -> systemInv (chains ++ [c]) xs.
Proof.
  intros (I1 & I2 & I3) Hc.
  split; [|split; [|exact I3]].
  - intros l0 c0 H0. apply lookup_app_Some in H0 as [H0|[_ H0]]; [eauto|].
    apply list_lookup_singleton_Some in H0 as [_ <-]. exact Hc.
  - intros q y Hq. destruct (I2 q y Hq) as [c0 [Hcy Hon]].
    exists c0. split; [|exact Hon]. apply lookup_app_l_Some. exact Hcy.
Qed.

Lemma loop_establishes e l chain agent results i :
  chain_status chain <> pending ->
  i = length (chain_results chain) ->
  results = chain_results chain ->
  (forall j, j < i -> exists t, chain_tasks chain !! j = Some t /\ task_status t = completed) ->
  allPending (chain_tasks chain) i ->
  exists chain',
    store (fst (executeTaskChain_loop e l chain agent results i)) = <[l := chain']> (store e)
    /\ chainInv chain'
    /\ match snd (executeTaskChain_loop e l chain agent results i) with
       | Suspended x' => exec_chain x' = l /\ execOn chain' x'
       | Settled _ => True
       end.
Proof.
  intros Hnp Hi Hres Hdone Hrest. unfold executeTaskChain_loop.
  destruct (chain_tasks chain !! i) as [t|] eqn:Ht.
  - pose proof (lookup_lt_Some _ _ _ Ht) as Hlt.
    assert (forall t', chainInv (withTasks chain (<[i := t']> (chain_tasks chain)))) as Hinv.
    { intros t'. split; simpl.
      - intros j Hj. rewrite list_lookup_insert_ne by lia. apply Hdone. lia.
      - intros Hp. contradiction. }
    assert (forall t', allPending (<[i := t']> (chain_tasks chain)) (S i)) as Hrest'.
    { intros t' j tj Hj Hl. rewrite list_lookup_insert_ne in Hl by lia.
      apply (Hrest j tj); [lia|exact Hl]. }
    unfold executeTask_call. cbn [task_type withPreviousResults].
    destruct (capabilities agent !! task_type t) as [cap|]; cbn [fst snd].
    + eexists. split; [reflexivity|]. split; [apply Hinv|]. split; [reflexivity|].
      repeat split; simpl; try assumption.
      * rewrite length_insert. exact Hlt.
      * apply Hrest'.
      * discriminate.
      * discriminate.
    + eexists. split; [reflexivity|]. split; [apply Hinv|]. split; [reflexivity|].
      repeat split; simpl; try assumption.
      * rewrite length_insert. exact Hlt.
      * apply Hrest'.
      * discriminate.
      * intros err [= <-]. eexists. split; [apply list_lookup_insert_eq; exact Hlt|].
        simpl. eauto.
  - exists (withCompletedAt (withStatus chain completed) (now e)). simpl.
    split; [reflexivity|]. split; [|exact I].
    split; simpl; [|discriminate].
    intros j Hj. apply Hdone. lia.
Qed.

Lemma cancelTasks_keeps clock reads tasks j t :
  tasks !! j = Some t -> task_status t <> running ->
  fst (cancelTasks clock reads tasks) !! j = Some t.
Proof.
  intros Hj Hc.
  destruct (cancelTasks_lookup clock reads tasks j t Hj) as [t' (Hl & Hsame & _)].
  rewrite Hsame in Hl; [exact Hl|exact Hc].
Qed.

Lemma cancelTasks_allPending clock reads tasks from :
  allPending tasks from -> allPending (fst (cancelTasks clock reads tasks)) from.
Proof.
  intros Hall j t' Hj Hl.
  assert (j < length tasks) as Hlt.
  { rewrite <- (cancelTasks_length clock reads tasks). eapply lookup_lt_Some. exact Hl. }
  destruct (lookup_lt_is_Some_2 _ _ Hlt) as [t Ht].
  pose proof (Hall j t Hj Ht) as Hp.
  rewrite (cancelTasks_keeps clock reads tasks j t Ht) in Hl by (rewrite Hp; discriminate).
  injection Hl as <-. exact Hp.
Qed.

Lemma newTaskChain_inv e chainId name descs ctx :
  chainInv (newTaskChain e chainId name descs ctx).
Proof.
  split; simpl; [intros j Hj; lia|]. intros _. split; [reflexivity|].
  intros j t _ Hl. apply newTasks_lookup in Hl. tauto.
Qed.

Lemma systemInv_perform s ev :
  systemInv (store (engine s)) (executions s) ->
  gated s ev ->
  systemInv (store (engine (perform s ev))) (executions (perform s ev)).
Proof.
  intros Hinv Hgated. pose proof Hinv as (I1 & I2 & I3).
  destruct ev as [chainId name descs ctx|chainId agent|chainId|chainId|p o|p]; simpl.
  - apply systemInv_create; [exact Hinv|apply newTaskChain_inv].
  - unfold executeTaskChain_call.
    destruct (getTaskChainAt (engine s) chainId) as [[l chain]|] eqn:Hget; simpl.
    + pose proof Hget as Hget0. apply getTaskChainAt_Some in Hget0 as [_ Hs].
      assert (chain_status chain = pending) as Hp.
      { apply (Hgated chain). apply getTaskChain_Some. eauto. }
      destruct (I1 l chain Hs) as [_ Hfresh]. destruct (Hfresh Hp) as [Hres Hall].
      destruct (loop_establishes (engine s) l (withStatus chain running) agent [] 0)
        as [chain' (Hst & Hc' & Ha)].
      * simpl. discriminate.
      * simpl. rewrite Hres. reflexivity.
      * simpl. rewrite Hres. reflexivity.
      * intros j Hj. lia.
      * exact Hall.
      * rewrite Hst. eapply systemInv_start; eauto.
    + apply systemInv_settled. exact Hinv.
  - unfold cancelTaskChain.
    destruct (getTaskChainAt (engine s) chainId) as [[l chain]|] eqn:Hget; [|exact Hinv].
    destruct (decide (chain_status chain = running)) as [Hr|Hr]; [|exact Hinv].
    destruct (cancelTasks (clock (engine s)) (reads (engine s)) (chain_tasks chain))
      as [tasks reads1] eqn:E. simpl.
    apply getTaskChainAt_Some in Hget as [_ Hs].
    assert (tasks = fst (cancelTasks (clock (engine s)) (reads (engine s)) (chain_tasks chain)))
      as -> by (rewrite E; reflexivity).
    destruct (I1 l chain Hs) as [Hdone _].
    eapply systemInv_update; [exact Hinv|exact Hs| |].
    + split; simpl; [|discriminate].
      intros j Hj. destruct (Hdone j Hj) as [t [Ht Hc]].
      exists t. split; [|exact Hc]. apply cancelTasks_keeps; [exact Ht|].
      rewrite Hc. discriminate.
    + intros x (H1 & H2 & H3 & H4 & H5 & H6 & H7). repeat split; simpl; try assumption.
      * discriminate.
      * rewrite cancelTasks_length. exact H3.
      * apply cancelTasks_allPending. exact H5.
      * intros v Hv. destruct (H6 v Hv) as [t [Ht Hc]].
        exists t. split; [|exact Hc]. apply cancelTasks_keeps; [exact Ht|].
        rewrite Hc. discriminate.
      * intros err Hv. destruct (H7 err Hv) as [t (Ht & Hc & Hrest)].
        exists t. split; [|auto]. apply cancelTasks_keeps; [exact Ht|].
        rewrite Hc. discriminate.
  - exact Hinv.
  - destruct (executions s !! p) as [[x|o']|] eqn:Hp; [|exact Hinv|exact Hinv].
    destruct (I2 p x Hp) as [chain [Hc Hon]].
    pose proof Hon as (H1 & H2 & H3 & H4 & H5 & H6 & H7).
    destruct (lookup_lt_is_Some_2 _ _ H3) as [t Ht].
    destruct x as [l agent results i ph]. simpl in *.
    destruct ph as [r|o1].
    + rewrite (settled_step (engine s) l agent results i r chain t o Hc Ht). simpl.
      eapply systemInv_step; [exact Hinv|exact Hp|reflexivity| |].
      * destruct (I1 l chain Hc) as [Hdone Hpend]. split; simpl.
        -- intros j Hj. rewrite list_lookup_insert_ne by lia. apply Hdone. exact Hj.
        -- intros Hpd. contradiction.
      * split; [reflexivity|]. repeat split; simpl; try assumption.
        -- rewrite length_insert. exact H3.
        -- intros j tj Hj Hl. rewrite list_lookup_insert_ne in Hl by lia.
           apply (H5 j tj); assumption.
        -- intros v Hv. eexists. split; [apply list_lookup_insert_eq; exact H3|].
           destruct o as [v'|err]; simpl in *; [reflexivity|discriminate].
        -- intros err Hv. eexists. split; [apply list_lookup_insert_eq; exact H3|].
           destruct o as [v'|err']; simpl in *; [discriminate|].
           injection Hv as ->. simpl. eauto.
    + unfold executeTask_settled. simpl. rewrite list_insert_id by exact Hp. exact Hinv.
  - destruct (executions s !! p) as [[x|o']|] eqn:Hp; [|exact Hinv|exact Hinv].
    destruct (I2 p x Hp) as [chain [Hc Hon]].
    pose proof Hon as (H1 & H2 & H3 & H4 & H5 & H6 & H7).
    destruct (lookup_lt_is_Some_2 _ _ H3) as [t Ht].
    destruct x as [l agent results i ph]. simpl in *.
    destruct (I1 l chain Hc) as [Hdone Hpend].
    destruct ph as [r|[v|err]].
    + unfold executeTaskChain_resume. simpl. rewrite list_insert_id by exact Hp. exact Hinv.
    + rewrite (resume_resolved (engine s) l agent results i v chain t Hc Ht).
      destruct (H6 v eq_refl) as [t' [Ht' Hcompleted]].
      destruct (loop_establishes
                  (setActiveTasks (engine s) (delete (task_id t) (activeTasks (engine s))))
                  l (withResults chain (chain_results chain ++ [v])) agent
                  (results ++ [v]) (S i))
        as [chain' (Hst & Hc' & Ha)].
      * simpl. exact H1.
      * simpl. rewrite length_app. simpl. lia.
      * simpl. rewrite H4. reflexivity.
      * intros j Hj. simpl. destruct (decide (j = i)) as [->|Hne].
        -- eauto.
        -- apply Hdone. lia.
      * simpl. exact H5.
      * rewrite Hst. simpl. eapply systemInv_step; [exact Hinv|exact Hp|reflexivity|exact Hc'|exact Ha].
    + rewrite (resume_rejected (engine s) l agent results i err chain t Hc Ht). simpl.
      eapply systemInv_step; [exact Hinv|exact Hp|reflexivity| |exact I].
      split; simpl; [exact Hdone|discriminate].
Qed.

Lemma systemInv_new clock :
  systemInv (store (engine (newSystem clock))) (executions (newSystem clock)).
Proof.
  split; [|split]; simpl.
  - intros l chain H. discriminate.
  - intros p x H. discriminate.
  - intros p q x y H. discriminate.
Qed.

Lemma reachable_gated_inv s :
  reachable_gated s -> systemInv (store (engine s)) (executions s).
Proof.
  induction 1 as [clock|s ev Hs IH Hen Hg].
  - apply systemInv_new.
  - apply systemInv_perform; assumption.
Qed.

(** The same results among other events.  When every chain is started
    once, an execution that resolves, whatever happened between its
    resumptions (a cancel of its chain included), leaves its chain
    [completed] with [completedAt] set, the returned results as the
    chain's, one for each task, and every task [completed]. *)
Lemma resolved_among_events s p x rs :
  reachable_gated s ->
  executions s !! p = Some (Suspended x) ->
  snd (executeTaskChain_resume (engine s) x) = Settled (ChainResolved rs) ->
  exists chain',
    store (engine (perform s (Resume p))) !! exec_chain x = Some chain'
    /\ chain_status chain' = completed
    /\ is_Some (chain_completedAt chain')
    /\ chain_results chain' = rs
    /\ length rs = length (chain_tasks chain')
    /\ (forall j t, chain_tasks chain' !! j = Some t -> task_status t = completed).
Proof.
  intros Hs Hp Hout.
  destruct (reachable_gated_inv s Hs) as (I1 & I2 & _).
  destruct (I2 p x Hp) as [chain [Hc (H1 & H2 & H3 & H4 & H5 & H6 & H7)]].
  destruct (I1 _ chain Hc) as [Hdone _].
  destruct (lookup_lt_is_Some_2 _ _ H3) as [t Ht].
  pose proof (lookup_lt_Some _ _ _ Hc) as Hlt.
  destruct x as [l agent results i ph]. simpl in *.
  destruct ph as [r|[v|err]].
  - unfold executeTaskChain_resume in Hout. simpl in Hout. discriminate.
  - rewrite (resume_resolved (engine s) l agent results i v chain t Hc Ht) in Hout.
    rewrite Hp. cbn [engine executions].
    rewrite (resume_resolved (engine s) l agent results i v chain t Hc Ht).
    destruct (chain_tasks chain !! S i) as [t'|] eqn:Hnext.
    + exfalso. unfold executeTaskChain_loop in Hout. simpl in Hout. rewrite Hnext in Hout.
      destruct (snd (executeTask_call _ _ _)); discriminate.
    + rewrite loop_end in Hout |- * by exact Hnext.
      simpl in Hout. injection Hout as <-.
      apply lookup_ge_None in Hnext.
      eexists. split; [simpl; apply list_lookup_insert_eq; exact Hlt|].
      simpl. split; [reflexivity|]. split; [eauto|].
      split; [rewrite H4; reflexivity|]. split; [rewrite length_app, H4; simpl; lia|].
      intros j tj Hj. pose proof (lookup_lt_Some _ _ _ Hj) as Hjlt.
      destruct (decide (j = i)) as [->|Hne].
      * destruct (H6 v eq_refl) as [t0 [Ht0 Hdone0]]. congruence.
      * destruct (Hdone j ltac:(lia)) as [t0 [Ht0 Hdone0]]. congruence.
  - rewrite (resume_rejected (engine s) l agent results i err chain t Hc Ht) in Hout.
    discriminate.
Qed.

(** And an execution that rejects leaves its chain [failed] with
    [completedAt] set, the tasks before its task [completed], its task
    [failed] with the message of the error it rejects with, and the tasks
    after it [pending]. *)
Lemma rejected_among_events s p x err :
  reachable_gated s ->
  executions s !! p = Some (Suspended x) ->
  snd (executeTaskChain_resume (engine s) x) = Settled (ChainRejected err) ->
  exists chain',
    store (engine (perform s (Resume p))) !! exec_chain x = Some chain'
    /\ chain_status chain' = failed
    /\ is_Some (chain_completedAt chain')
    /\ (forall j, j < exec_i x ->
          exists t, chain_tasks chain' !! j = Some t /\ task_status t = completed)
    /\ (exists t, chain_tasks chain' !! exec_i x = Some t
                  /\ task_status t = failed
                  /\ task_error t = Some (message err)
                  /\ is_Some (task_completedAt t))
    /\ (forall j t, exec_i x < j -> chain_tasks chain' !! j = Some t ->
          task_status t = pending).
Proof.
  intros Hs Hp Hout.
  destruct (reachable_gated_inv s Hs) as (I1 & I2 & _).
  destruct (I2 p x Hp) as [chain [Hc (H1 & H2 & H3 & H4 & H5 & H6 & H7)]].
  destruct (I1 _ chain Hc) as [Hdone _].
  destruct (lookup_lt_is_Some_2 _ _ H3) as [t Ht].
  pose proof (lookup_lt_Some _ _ _ Hc) as Hlt.
  destruct x as [l agent results i ph]. simpl in *.
  destruct ph as [r|[v|err']].
  - unfold executeTaskChain_resume in Hout. simpl in Hout. discriminate.
  - rewrite (resume_resolved (engine s) l agent results i v chain t Hc Ht) in Hout.
    exfalso. unfold executeTaskChain_loop in Hout. simpl in Hout.
    destruct (chain_tasks chain !! S i).
    + destruct (snd (executeTask_call _ _ _)); discriminate.
    + discriminate.
  - rewrite (resume_rejected (engine s) l agent results i err' chain t Hc Ht) in Hout.
    simpl in Hout. injection Hout as ->.
    rewrite Hp. cbn [engine executions].
    rewrite (resume_rejected (engine s) l agent results i err chain t Hc Ht).
    eexists. split; [simpl; apply list_lookup_insert_eq; exact Hlt|].
    simpl. split; [reflexivity|]. split; [eauto|].
    split; [intros j Hj; apply Hdone; lia|].
    split; [exact (H7 err eq_refl)|].
    intros j tj Hj Hl. apply (H5 j tj); [lia|exact Hl].
Qed.

Lemma completed_prefix_count tasks m :
  (forall j, j < m -> exists t, tasks !! j = Some t /\ task_status t = completed) ->
  m <= countCompleted tasks.
Proof.
  revert tasks. induction m as [|m IH]; intros tasks H; [lia|].
  destruct tasks as [|t tasks].
  - destruct (H 0 ltac:(lia)) as [t [Ht _]]. discriminate.
  - destruct (H 0 ltac:(lia)) as [t0 [Ht0 Hc]]. injection Ht0 as <-.
    unfold countCompleted. rewrite filter_cons_True by exact Hc. simpl.
    apply le_n_S. apply IH. intros j Hj. apply (H (S j)). lia.
Qed.

(** ** What the other events leave alone *)

Lemma loop_frame e l chain agent results i l' :
  l' <> l ->
  store (fst (executeTaskChain_loop e l chain agent results i)) !! l' = store e !! l'.
Proof.
  intros Hne. unfold executeTaskChain_loop.
  destruct (chain_tasks chain !! i) as [t|].
  - destruct (snd (executeTask_call agent (now e) (withPreviousResults t results)));
      simpl; apply list_lookup_insert_ne; congruence.
  - simpl. apply list_lookup_insert_ne. congruence.
Qed.

Lemma settled_frame e x o l' :
  l' <> exec_chain x ->
  store (fst (executeTask_settled e x o)) !! l' = store e !! l'.
Proof.
  intros Hne. unfold executeTask_settled.
  destruct (exec_phase x); [|reflexivity].
  destruct (store e !! exec_chain x) as [chain|]; [|reflexivity].
  destruct (chain_tasks chain !! exec_i x); [|reflexivity].
  simpl. apply list_lookup_insert_ne. congruence.
Qed.

Lemma resume_frame e x l' :
  l' <> exec_chain x ->
  store (fst (executeTaskChain_resume e x)) !! l' = store e !! l'.
Proof.
  intros Hne. unfold executeTaskChain_resume.
  destruct (exec_phase x) as [|o]; [reflexivity|].
  destruct (store e !! exec_chain x) as [chain|]; [|reflexivity].
  destruct (chain_tasks chain !! exec_i x) as [t|]; [|reflexivity].
  destruct o.
  - rewrite loop_frame by exact Hne. reflexivity.
  - simpl. apply list_lookup_insert_ne. congruence.
Qed.



(** The second way: the chain is cancelled while its first task runs, then
    the capability resolves.  The chain is [failed] when the task goes
    from [failed] to [completed]; the execution goes on to the next
    task. *)
Lemma late_completion_after_cancel :
  let cancelled := perform afterStartedRun (Cancel "c1") in
  let settled := perform cancelled (CapabilitySettles 0 (Resolved (AnyString "fixed"))) in
  let resumed := perform settled (Resume 0) in
  chain_status <$> getTaskChain (engine cancelled) "c1" = Some failed
  /\ statuses <$> getTaskChain (engine cancelled) "c1" = Some [failed; pending]
  /\ chain_status <$> getTaskChain (engine settled) "c1" = Some failed
  /\ statuses <$> getTaskChain (engine settled) "c1" = Some [completed; pending]
  /\ statuses <$> getTaskChain (engine resumed) "c1" = Some [completed; running].
Proof. repeat split; vm_compute; reflexivity. Qed.


(** ** The theorems at work *)

Lemma reachable_gated_afterCompletedRun : reachable_gated afterCompletedRun.
Proof.
  unfold afterCompletedRun, runEvents, completedRun. cbn [foldl].
  apply gated_perform.
  - apply gated_perform.
    + apply gated_perform.
      * apply gated_perform; [apply gated_new|exact I|exact I].
      * exact I.
      * intros chain Hc. vm_compute in Hc. injection Hc as <-. reflexivity.
    + eexists _, _. split; [reflexivity|]. split; [reflexivity|].
      apply (settles_provider_response _ _ (mkResponse "fixed")).
      apply settles_return.
    + exact I.
  - eexists _, _. split; reflexivity.
  - exact I.
Qed.






Lemma cancelTaskChain_spec_witness :
  (exists chain chain',
      getTaskChainAt (engine afterStartedRun) "c1" = Some (0, chain)
      /\ chain_status chain = running
      /\ snd (cancelTaskChain (engine afterStartedRun) "c1") = true
      /\ getTaskChainAt (fst (cancelTaskChain (engine afterStartedRun) "c1")) "c1"
         = Some (0, chain')
      /\ chain_status chain' = failed)
  /\ getTaskChain (newEngine countingClock) "c1" = None
  /\ cancelTaskChain (newEngine countingClock) "c1" = (newEngine countingClock, false).
Proof.
  split.
  - assert (exists chain, getTaskChainAt (engine afterStartedRun) "c1" = Some (0, chain)
                          /\ chain_status chain = running) as (chain & Hget & Hr).
    { eexists. split; reflexivity. }
    destruct (proj1 (cancelTaskChain_spec (engine afterStartedRun) "c1") 0 chain Hget Hr)
      as [chain' (H1 & H2 & H3 & _)].
    exists chain, chain'. auto.
  - split; [reflexivity|].
    apply (proj2 (cancelTaskChain_spec (newEngine countingClock) "c1")).
    left. reflexivity.
Defined.

Lemma cancelTaskChain_frame_witness :
  exists chain chain' task,
    getTaskChainAt (engine afterStartedRun) "c1" = Some (0, chain)
    /\ chain_status chain = running
    /\ getTaskChainAt (fst (cancelTaskChain (engine afterStartedRun) "c1")) "c1"
       = Some (0, chain')
    /\ chain_status chain' = failed
    /\ chain_tasks chain' !! 1 = Some task
    /\ task_status task = pending
    /\ task_error task = None
    /\ task_completedAt task = None.
Proof.
  assert (exists chain task,
             getTaskChainAt (engine afterStartedRun) "c1" = Some (0, chain)
             /\ chain_status chain = running
             /\ chain_tasks chain !! 1 = Some task
             /\ task_status task = pending
             /\ task_error task = None
             /\ task_completedAt task = None)
    as (chain & task & Hget & Hr & Ht & Hp & He & Hd).
  { eexists _, _. split; [reflexivity|]. split; [reflexivity|].
    split; [reflexivity|]. repeat split. }
  destruct (cancelTaskChain_frame (engine afterStartedRun) "c1" 0 chain Hget Hr)
    as [chain' (H1 & H2 & _ & _ & H5 & _)].
  destruct (H5 1 task Ht Hp) as [task' (B1 & B2 & B3 & B4)].
  exists chain, chain', task'.
  split; [exact Hget|]. split; [exact Hr|]. split; [exact H1|]. split; [exact H2|].
  split; [exact B1|]. split; [exact B2|]. split; congruence.
Defined.

(** After the cancel of the started chain the capability of the first task
    rejects and the execution ends: the second task is still [pending],
    without error or completion time, in a [failed] chain that no
    execution holds any more. *)
Lemma pending_after_cancelled_run :
  let cancelled := perform afterStartedRun (Cancel "c1") in
  let settled :=
    perform cancelled (CapabilitySettles 0 (Rejected (mkError "Gemini Error: timeout"))) in
  let ended := perform settled (Resume 0) in
  executions ended = [Settled (ChainRejected (mkError "Gemini Error: timeout"))]
  /\ chain_status <$> getTaskChain (engine ended) "c1" = Some failed
  /\ statuses <$> getTaskChain (engine ended) "c1" = Some [failed; pending]
  /\ (map task_error ∘ chain_tasks) <$> getTaskChain (engine ended) "c1"
     = Some [Some "Gemini Error: timeout"; None]
  /\ (map task_completedAt ∘ chain_tasks) <$> getTaskChain (engine ended) "c1"
     = Some [Some 5%Z; None].
Proof. repeat split; vm_compute; reflexivity. Qed.

(** * The rest of the code *)

(** ** The provider manager *)

Lemma getConfiguredProviders_elem c p :
  p ∈ getConfiguredProviders c <-> isConfigured c p = true.
Proof.
  unfold getConfiguredProviders, getAllProviders.
  rewrite list_elem_of_In, filter_In. split; [tauto|].
  intros H. split; [|exact H]. destruct p; simpl; tauto.
Qed.

(** [getActiveProvider] gives a provider exactly when one is configured,
    and then a configured one, whose client check passes: Gemini when the
    setting is "gemini" and Gemini is configured, Azure when the setting
    is anything else and Azure is configured, the other one as fallback.
    It throws, with the message about the API keys, exactly when
    [getConfiguredProviders] is empty. *)
Theorem getActiveProvider_configured (c : Settings) :
  match getActiveProvider c with
  | inl p =>
      isConfigured c p = true
      /\ p ∈ getConfiguredProviders c
      /\ getClient_check c p = None
      /\ (isConfigured c Gemini = true -> defaultProvider c = Some "gemini" -> p = Gemini)
      /\ (isConfigured c Azure = true -> defaultProvider c <> Some "gemini" -> p = Azure)
  | inr error =>
      getConfiguredProviders c = []
      /\ error = noProviderError
      /\ (forall p, is_Some (getClient_check c p))
  end.
Proof.
  assert (forall p, isConfigured c p = true -> getClient_check c p = None) as Hok.
  { intros [] H; unfold isConfigured, getClient_check in *.
    - apply andb_true_iff in H as [-> ->]. reflexivity.
    - rewrite H. reflexivity. }
  assert (forall p, isConfigured c p = false -> is_Some (getClient_check c p)) as Hko.
  { intros [] H; unfold isConfigured, getClient_check in *.
    - apply andb_false_iff in H as [-> | ->]; simpl; [eauto|].
      rewrite orb_true_r. eauto.
    - rewrite H. simpl. eauto. }
  assert (forall p, isConfigured c p = true -> p ∈ getConfiguredProviders c) as Hin
    by (intros p; apply getConfiguredProviders_elem).
  assert (isConfigured c Azure = false -> isConfigured c Gemini = false ->
          getConfiguredProviders c = []) as Hnone.
  { intros Ha Hg. unfold getConfiguredProviders, getAllProviders. cbn [List.filter].
    rewrite Ha, Hg. reflexivity. }
  unfold getActiveProvider.
  destruct (String.eqb_spec (default "azure" (defaultProvider c)) "gemini") as [Hd|Hd].
  - assert (defaultProvider c = Some "gemini") as Hs
      by (destruct (defaultProvider c); simpl in Hd; [congruence|discriminate]).
    destruct (isConfigured c Gemini) eqn:Hg; [|destruct (isConfigured c Azure) eqn:Ha].
    + repeat split; auto. intros _ Hn. contradiction.
    + repeat split; auto. discriminate.
    + repeat split; auto. intros []; auto.
  - assert (defaultProvider c <> Some "gemini") as Hs
      by (intros E; rewrite E in Hd; simpl in Hd; contradiction).
    destruct (isConfigured c Azure) eqn:Ha; [|destruct (isConfigured c Gemini) eqn:Hg].
    + repeat split; auto. intros _ E. contradiction.
    + repeat split; auto. discriminate.
    + repeat split; auto. intros []; auto.
Qed.

(** ** Identity of chains and tasks *)

Lemma sameTask_refl t : sameTask t t.
Proof. repeat split. Qed.

Lemma sameTask_trans t1 t2 t3 : sameTask t1 t2 -> sameTask t2 t3 -> sameTask t1 t3.
Proof. unfold sameTask. intuition congruence. Qed.

Lemma sameIdentity_refl chain : sameIdentity chain chain.
Proof.
  repeat split. intros j t Hj. exists t. split; [exact Hj|apply sameTask_refl].
Qed.

Lemma sameIdentity_trans c1 c2 c3 :
  sameIdentity c1 c2 -> sameIdentity c2 c3 -> sameIdentity c1 c3.
Proof.
  intros (A1 & A2 & A3 & A4 & A5) (B1 & B2 & B3 & B4 & B5).
  repeat split; try congruence.
  intros j t Hj. destruct (A5 j t Hj) as [t2 [H2 S2]].
  destruct (B5 j t2 H2) as [t3 [H3 S3]].
  exists t3. split; [exact H3|eapply sameTask_trans; eassumption].
Qed.

(** One task replaced by itself with other mutable fields. *)
Lemma sameIdentity_task chain i t t' :
  chain_tasks chain !! i = Some t ->
  sameTask t t' ->
  sameIdentity chain (withTasks chain (<[i := t']> (chain_tasks chain))).
Proof.
  intros Hi Hs. repeat split; simpl.
  - apply length_insert.
  - intros j tj Hj. destruct (decide (j = i)) as [->|Hne].
    + exists t'. split; [apply list_lookup_insert_eq; eapply lookup_lt_Some; exact Hi|].
      congruence.
    + exists tj. rewrite list_lookup_insert_ne by congruence.
      split; [exact Hj|apply sameTask_refl].
Qed.

Lemma storeEvolves_refl chains : storeEvolves chains chains.
Proof. split; [reflexivity|]. intros l c Hc. exists c. split; [exact Hc|apply sameIdentity_refl]. Qed.

Lemma storeEvolves_insert chains l chain chain' :
  chains !! l = Some chain ->
  sameIdentity chain chain' ->
  storeEvolves chains (<[l := chain']> chains).
Proof.
  intros Hc Hs. split; [apply length_insert|].
  intros l0 c0 H0. destruct (decide (l0 = l)) as [->|Hne].
  - exists chain'. split; [apply list_lookup_insert_eq; eapply lookup_lt_Some; exact Hc|].
    congruence.
  - exists c0. rewrite list_lookup_insert_ne by congruence.
    split; [exact H0|apply sameIdentity_refl].
Qed.

Lemma loop_evolves e l c0 chain agent results i :
  store e !! l = Some c0 ->
  sameIdentity c0 chain ->
  storeEvolves (store e) (store (fst (executeTaskChain_loop e l chain agent results i)))
  /\ taskChains (fst (executeTaskChain_loop e l chain agent results i)) = taskChains e.
Proof.
  intros Hc Hs. unfold executeTaskChain_loop.
  destruct (chain_tasks chain !! i) as [t|] eqn:Ht.
  - assert (sameTask t (fst (executeTask_call agent (now e) (withPreviousResults t results))))
      as Hcall.
    { unfold executeTask_call. cbn [task_type withPreviousResults].
      destruct (capabilities agent !! task_type t); repeat split. }
    destruct (snd (executeTask_call agent (now e) (withPreviousResults t results)));
      simpl; (split; [|reflexivity]);
      (eapply storeEvolves_insert; [exact Hc|]);
      (eapply sameIdentity_trans; [exact Hs|]);
      eapply sameIdentity_task; eassumption.
  - simpl. split; [|reflexivity].
    eapply storeEvolves_insert; [exact Hc|].
    eapply sameIdentity_trans; [exact Hs|]. repeat split.
    intros j t Hj. exists t. split; [exact Hj|apply sameTask_refl].
Qed.

Lemma call_evolves e chainId agent :
  storeEvolves (store e) (store (fst (executeTaskChain_call e chainId agent)))
  /\ taskChains (fst (executeTaskChain_call e chainId agent)) = taskChains e.
Proof.
  unfold executeTaskChain_call.
  destruct (getTaskChainAt e chainId) as [[l chain]|] eqn:Hget.
  - apply getTaskChainAt_Some in Hget as [_ Hs].
    apply (loop_evolves e l chain); [exact Hs|].
    repeat split. intros j t Hj. exists t. split; [exact Hj|apply sameTask_refl].
  - split; [apply storeEvolves_refl|reflexivity].
Qed.

Lemma settled_evolves e x o :
  storeEvolves (store e) (store (fst (executeTask_settled e x o)))
  /\ taskChains (fst (executeTask_settled e x o)) = taskChains e.
Proof.
  unfold executeTask_settled.
  destruct (exec_phase x); [|split; [apply storeEvolves_refl|reflexivity]].
  destruct (store e !! exec_chain x) as [chain|] eqn:Hc;
    [|split; [apply storeEvolves_refl|reflexivity]].
  destruct (chain_tasks chain !! exec_i x) as [t|] eqn:Ht;
    [|split; [apply storeEvolves_refl|reflexivity]].
  simpl. split; [|reflexivity].
  eapply storeEvolves_insert; [exact Hc|].
  eapply sameIdentity_task; [exact Ht|]. destruct o; repeat split.
Qed.

Lemma resume_evolves e x :
  storeEvolves (store e) (store (fst (executeTaskChain_resume e x)))
  /\ taskChains (fst (executeTaskChain_resume e x)) = taskChains e.
Proof.
  unfold executeTaskChain_resume.
  destruct (exec_phase x) as [|o]; [split; [apply storeEvolves_refl|reflexivity]|].
  destruct (store e !! exec_chain x) as [chain|] eqn:Hc;
    [|split; [apply storeEvolves_refl|reflexivity]].
  destruct (chain_tasks chain !! exec_i x) as [t|] eqn:Ht;
    [|split; [apply storeEvolves_refl|reflexivity]].
  destruct o as [v|err].
  - refine (loop_evolves (setActiveTasks e (delete (task_id t) (activeTasks e)))
              (exec_chain x) chain _ _ _ _ Hc _).
    repeat split. intros j tj Hj. exists tj. split; [exact Hj|apply sameTask_refl].
  - simpl. split; [|reflexivity].
    eapply storeEvolves_insert; [exact Hc|]. repeat split.
    intros j tj Hj. exists tj. split; [exact Hj|apply sameTask_refl].
Qed.

Lemma cancel_evolves e chainId :
  storeEvolves (store e) (store (fst (cancelTaskChain e chainId)))
  /\ taskChains (fst (cancelTaskChain e chainId)) = taskChains e.
Proof.
  unfold cancelTaskChain.
  destruct (getTaskChainAt e chainId) as [[l chain]|] eqn:Hget;
    [|split; [apply storeEvolves_refl|reflexivity]].
  destruct (decide (chain_status chain = running));
    [|split; [apply storeEvolves_refl|reflexivity]].
  destruct (cancelTasks (clock e) (reads e) (chain_tasks chain)) as [tasks reads1] eqn:E.
  simpl. split; [|reflexivity].
  apply getTaskChainAt_Some in Hget as [_ Hs].
  eapply storeEvolves_insert; [exact Hs|].
  assert (tasks = fst (cancelTasks (clock e) (reads e) (chain_tasks chain)))
    as -> by (rewrite E; reflexivity).
  repeat split; simpl.
  - apply cancelTasks_length.
  - intros j t Hj.
    destruct (cancelTasks_lookup (clock e) (reads e) _ j t Hj) as [t' (Hl & Hsame & Hc)].
    exists t'. split; [exact Hl|].
    destruct (decide (task_status t = running)) as [Hr|Hr].
    + destruct (Hc Hr) as [d ->]. repeat split.
    + rewrite (Hsame Hr). apply sameTask_refl.
Qed.

Lemma identityOk_same chain chain' :
  identityOk chain -> sameIdentity chain chain' -> identityOk chain'.
Proof.
  intros Hok (A1 & _ & _ & A4 & A5) j t' Hj.
  assert (j < length (chain_tasks chain)) as Hlt
    by (rewrite <- A4; eapply lookup_lt_Some; exact Hj).
  destruct (lookup_lt_is_Some_2 _ _ Hlt) as [t Ht].
  destruct (A5 j t Ht) as [t'' [Hj' (S1 & S2 & S3 & _)]].
  rewrite Hj in Hj'. injection Hj' as <-.
  destruct (Hok j t Ht) as [I1 I2]. rewrite A1, S1, S2, S3. auto.
Qed.

Lemma newTasks_lookup_index e chainId context index descs i :
  newTasks e chainId context index descs !! i
  = (fun d => mkTask (chainId +:+ "-task-" +:+ pretty (index + i)) (inferTaskType d) d
                     context pending None None (clock e (reads e + (index + i))) None)
      <$> descs !! i.
Proof.
  revert index i. induction descs as [|d descs IH]; intros index i; [reflexivity|].
  destruct i as [|i]; simpl.
  - rewrite Nat.add_0_r. reflexivity.
  - rewrite IH. replace (S index + i) with (index + S i) by lia. reflexivity.
Qed.

Lemma newTaskChain_identityOk e chainId name descs ctx :
  identityOk (newTaskChain e chainId name descs ctx).
Proof.
  intros j t Hj. simpl in Hj. rewrite newTasks_lookup_index in Hj.
  destruct (descs !! j) as [d|]; [|discriminate]. injection Hj as <-. simpl. auto.
Qed.

Lemma wellFormed_evolves e e' :
  wellFormed e ->
  storeEvolves (store e) (store e') ->
  taskChains e' = taskChains e ->
  wellFormed e'.
Proof.
  intros Hwf [_ Hev] Hm chainId l Hl. rewrite Hm in Hl.
  destruct (Hwf chainId l Hl) as [chain [Hc Hid]].
  destruct (Hev l chain Hc) as [chain' [Hc' (A1 & _)]].
  exists chain'. split; [exact Hc'|congruence].
Qed.

Lemma identities_evolve chains chains' :
  (forall l chain, chains !! l = Some chain -> identityOk chain) ->
  storeEvolves chains chains' ->
  forall l chain, chains' !! l = Some chain -> identityOk chain.
Proof.
  intros Hok [Hlen Hev] l chain' Hc'.
  assert (l < length chains) as Hlt by (rewrite <- Hlen; eapply lookup_lt_Some; exact Hc').
  destruct (lookup_lt_is_Some_2 _ _ Hlt) as [chain Hc].
  destruct (Hev l chain Hc) as [chain'' [Hc'' Hs]].
  rewrite Hc' in Hc''. injection Hc'' as <-.
  eapply identityOk_same; [exact (Hok l chain Hc)|exact Hs].
Qed.

Lemma wellFormed_create e chainId name descs ctx :
  wellFormed e -> wellFormed (fst (createTaskChain e chainId name descs ctx)).
Proof.
  intros Hwf id l Hl. simpl in *.
  destruct (decide (chainId = id)) as [->|Hne].
  - rewrite lookup_insert_eq in Hl. injection Hl as <-.
    eexists. split; [apply list_lookup_middle; reflexivity|reflexivity].
  - rewrite lookup_insert_ne in Hl by exact Hne.
    destruct (Hwf id l Hl) as [chain [Hc Hid]].
    exists chain. split; [apply lookup_app_l_Some; exact Hc|exact Hid].
Qed.

Lemma perform_evolves s ev :
  match ev with
  | Create chainId name descs ctx =>
      store (engine (perform s ev))
      = store (engine s) ++ [newTaskChain (engine s) chainId name descs ctx]
  | Delete chainId =>
      store (engine (perform s ev)) = store (engine s)
  | _ =>
      storeEvolves (store (engine s)) (store (engine (perform s ev)))
      /\ taskChains (engine (perform s ev)) = taskChains (engine s)
  end.
Proof.
  destruct ev as [chainId name descs ctx|chainId agent|chainId|chainId|p o|p]; simpl.
  - reflexivity.
  - apply call_evolves.
  - apply cancel_evolves.
  - reflexivity.
  - destruct (executions s !! p) as [[x|o']|]; simpl;
      [apply settled_evolves|split; [apply storeEvolves_refl|reflexivity]..].
  - destruct (executions s !! p) as [[x|o']|]; simpl;
      [apply resume_evolves|split; [apply storeEvolves_refl|reflexivity]..].
Qed.

(** At every point of every run, also when chains are started again or
    deleted while they run: an id of the map leads to a chain object that
    carries this id, and task [j] of a chain with id [c] has the id
    [c-task-j] and the type inferred from its description. *)
Theorem identities_kept s :
  reachable s ->
  wellFormed (engine s)
  /\ (forall chainId chain, getTaskChain (engine s) chainId = Some chain ->
        chain_id chain = chainId)
  /\ (forall l chain, store (engine s) !! l = Some chain ->
        forall j t, chain_tasks chain !! j = Some t ->
          task_id t = chain_id chain +:+ "-task-" +:+ pretty j
          /\ task_type t = inferTaskType (task_description t)).
Proof.
  intros Hs.
  assert (wellFormed (engine s)
          /\ forall l chain, store (engine s) !! l = Some chain -> identityOk chain)
    as [Hwf Hids].
  { induction Hs as [clock|s ev Hs [IHwf IHids] Hen].
    - split.
      + intros id l Hl. simpl in Hl. rewrite lookup_empty in Hl. discriminate.
      + intros l chain Hc. discriminate.
    - pose proof (perform_evolves s ev) as Hev.
      destruct ev as [chainId name descs ctx|chainId agent|chainId|chainId|p o|p].
      + split; [apply wellFormed_create; exact IHwf|].
        intros l chain Hc. rewrite Hev in Hc.
        apply lookup_app_Some in Hc as [Hc|[_ Hc]]; [eauto|].
        apply list_lookup_singleton_Some in Hc as [_ <-]. apply newTaskChain_identityOk.
      + destruct Hev as [Hev Hm].
        split; [eapply wellFormed_evolves; eassumption|eapply identities_evolve; eassumption].
      + destruct Hev as [Hev Hm].
        split; [eapply wellFormed_evolves; eassumption|eapply identities_evolve; eassumption].
      + split; [|intros l chain Hc; rewrite Hev in Hc; eauto].
        intros id l Hl. simpl in Hl.
        apply lookup_delete_Some in Hl as [_ Hl]. exact (IHwf id l Hl).
      + destruct Hev as [Hev Hm].
        split; [eapply wellFormed_evolves; eassumption|eapply identities_evolve; eassumption].
      + destruct Hev as [Hev Hm].
        split; [eapply wellFormed_evolves; eassumption|eapply identities_evolve; eassumption]. }
  split; [exact Hwf|]. split; [|exact Hids].
  intros chainId chain Hget. apply getTaskChain_Some in Hget as [l Hget].
  apply getTaskChainAt_Some in Hget as [Hm Hc].
  destruct (Hwf chainId l Hm) as [chain' [Hc' Hid]]. congruence.
Qed.

(** ** Creating, getting and deleting chains *)

Lemma getTaskChain_other_create e chainId name descs ctx other :
  wellFormed e ->
  other <> chainId ->
  getTaskChain (fst (createTaskChain e chainId name descs ctx)) other
  = getTaskChain e other.
Proof.
  intros Hwf Hne. unfold getTaskChain, getTaskChainAt. simpl.
  rewrite lookup_insert_ne by congruence.
  destruct (taskChains e !! other) as [l|] eqn:Hl; [|reflexivity].
  destruct (Hwf other l Hl) as [chain [Hc _]].
  rewrite (lookup_app_l_Some _ _ _ _ Hc), Hc. reflexivity.
Qed.

(** [createTaskChain] on an engine with a well-formed map: the chain it
    returns is the one [getTaskChain] finds under the id; it is pending,
    without results and completion time, with one task for each
    description, in order; task [i] is pending, has the id
    [chainId-task-i], the type inferred from description [i], the initial
    context (the empty one when none is given) and no result, error or
    completion time.  The chains under the other ids are as they were and
    no task becomes active. *)
Theorem createTaskChain_get e chainId name descs ctx :
  wellFormed e ->
  let e' := fst (createTaskChain e chainId name descs ctx) in
  let chain := snd (createTaskChain e chainId name descs ctx) in
  getTaskChain e' chainId = Some chain
  /\ chain_id chain = chainId
  /\ chain_name chain = name
  /\ chain_status chain = pending
  /\ chain_results chain = []
  /\ chain_completedAt chain = None
  /\ length (chain_tasks chain) = length descs
  /\ (forall i d, descs !! i = Some d ->
        exists t, chain_tasks chain !! i = Some t
                  /\ task_id t = chainId +:+ "-task-" +:+ pretty i
                  /\ task_type t = inferTaskType d
                  /\ task_description t = d
                  /\ task_context t = default emptyContext ctx
                  /\ task_status t = pending
                  /\ task_result t = None
                  /\ task_error t = None
                  /\ task_completedAt t = None)
  /\ (forall other, other <> chainId -> getTaskChain e' other = getTaskChain e other)
  /\ activeTasks e' = activeTasks e
  /\ wellFormed e'.
Proof.
  intros Hwf e' chain. subst e' chain.
  split; [apply getTaskChain_create|].
  cbn [snd createTaskChain newTaskChain chain_id chain_name chain_status chain_results
       chain_completedAt chain_tasks].
  repeat split.
  - rewrite <- (length_map task_description), newTasks_descriptions. reflexivity.
  - intros i d Hd. rewrite newTasks_lookup_index, Hd. eexists. split; [reflexivity|].
    simpl. repeat split.
  - intros other Hne. apply getTaskChain_other_create; assumption.
  - apply wellFormed_create. exact Hwf.
Qed.

(** [deleteTaskChain] on an engine with a well-formed map answers true
    exactly when [getTaskChain] finds a chain under the id; afterwards it
    finds none under this id and the same as before under every other; the
    chain objects themselves and the active tasks are not touched, so
    that an execution that holds the chain goes on; deleting again answers
    false and changes nothing. *)
Theorem deleteTaskChain_spec e chainId :
  wellFormed e ->
  let e' := fst (deleteTaskChain e chainId) in
  (snd (deleteTaskChain e chainId) = true <-> is_Some (getTaskChain e chainId))
  /\ getTaskChain e' chainId = None
  /\ (forall other, other <> chainId -> getTaskChain e' other = getTaskChain e other)
  /\ store e' = store e
  /\ activeTasks e' = activeTasks e
  /\ deleteTaskChain e' chainId = (e', false)
  /\ wellFormed e'.
Proof.
  intros Hwf e'. subst e'. simpl. repeat split.
  - intros Hb. apply bool_decide_eq_true in Hb as [l Hl].
    destruct (Hwf chainId l Hl) as [chain [Hc _]].
    exists chain. apply getTaskChain_Some. exists l. apply getTaskChainAt_Some. auto.
  - intros [chain Hc]. apply bool_decide_eq_true.
    apply getTaskChain_Some in Hc as [l Hc]. apply getTaskChainAt_Some in Hc as [Hl _]. eauto.
  - unfold getTaskChain, getTaskChainAt. simpl. rewrite lookup_delete_eq. reflexivity.
  - intros other Hne. unfold getTaskChain, getTaskChainAt. simpl.
    rewrite lookup_delete_ne by congruence. reflexivity.
  - unfold deleteTaskChain. simpl. f_equal.
    + f_equal. apply delete_id. apply lookup_delete_eq.
    + apply bool_decide_eq_false. rewrite lookup_delete_eq. intros [? ?]. discriminate.
  - intros id l Hl. simpl in Hl. apply lookup_delete_Some in Hl as [_ Hl]. exact (Hwf id l Hl).
Qed.

(** ** Listing and counting chains *)

Lemma insertBy_Permutation {A} (before : A -> A -> bool) x l :
  insertBy before x l ≡ₚ x :: l.
Proof.
  induction l as [|y l IH]; simpl; [reflexivity|].
  destruct (before y x); [|reflexivity].
  rewrite IH. apply Permutation_swap.
Qed.

Lemma sortBy_Permutation {A} (before : A -> A -> bool) l : sortBy before l ≡ₚ l.
Proof.
  induction l as [|x l IH]; simpl; [reflexivity|].
  rewrite insertBy_Permutation, IH. reflexivity.
Qed.

Lemma insertBy_createdLater_Sorted x l :
  Sorted notLater l -> Sorted notLater (insertBy createdLater x l).
Proof.
  induction l as [|y l IH]; intros Hs; simpl.
  - repeat constructor.
  - inversion Hs as [|? ? Hs' Hhd]; subst.
    unfold createdLater at 1. destruct (Z.ltb_spec (chain_createdAt x) (chain_createdAt y)) as [Hlt|Hge].
    + constructor; [apply IH; exact Hs'|].
      destruct l as [|z l]; simpl.
      * constructor. unfold notLater. lia.
      * destruct (createdLater z x); constructor.
        -- inversion Hhd; assumption.
        -- unfold notLater. lia.
    + constructor; [exact Hs|]. constructor. unfold notLater. lia.
Qed.

Lemma sortBy_createdLater_Sorted l : StronglySorted notLater (sortBy createdLater l).
Proof.
  apply Sorted_StronglySorted.
  - intros a b c Hab Hbc. unfold notLater in *. lia.
  - induction l as [|x l IH]; simpl; [constructor|].
    apply insertBy_createdLater_Sorted. exact IH.
Qed.

Lemma chainValues_elem e chain :
  chain ∈ chainValues e <-> exists chainId, getTaskChain e chainId = Some chain.
Proof.
  unfold chainValues. rewrite list_elem_of_omap. split.
  - intros [l [Hl Hc]]. rewrite sortBy_Permutation in Hl.
    apply list_elem_of_fmap in Hl as [[id l'] [-> Hl]]. simpl in Hc.
    apply elem_of_map_to_list in Hl.
    exists id. apply getTaskChain_Some. exists l'. apply getTaskChainAt_Some. auto.
  - intros [id Hget]. apply getTaskChain_Some in Hget as [l Hget].
    apply getTaskChainAt_Some in Hget as [Hl Hc].
    exists l. split; [|exact Hc]. rewrite sortBy_Permutation.
    apply list_elem_of_fmap. exists (id, l). split; [reflexivity|].
    apply elem_of_map_to_list. exact Hl.
Qed.

Lemma length_omap_total {A B} (f : A -> option B) l :
  (forall x, x ∈ l -> is_Some (f x)) -> length (omap f l) = length l.
Proof.
  induction l as [|x l IH]; intros H; [reflexivity|].
  assert (length (omap f l) = length l) as Hl
    by (apply IH; intros z Hz; apply H; right; exact Hz).
  destruct (H x) as [y Hy]; [left|].
  change (omap f (x :: l)) with (match f x with Some y => y :: omap f l | None => omap f l end).
  rewrite Hy. simpl. rewrite Hl. reflexivity.
Qed.

Lemma chainValues_length e :
  wellFormed e -> length (chainValues e) = size (taskChains e).
Proof.
  intros Hwf. unfold chainValues. rewrite length_omap_total.
  - rewrite sortBy_Permutation, length_fmap. apply length_map_to_list.
  - intros l Hl. rewrite sortBy_Permutation in Hl.
    apply list_elem_of_fmap in Hl as [[id l'] [-> Hl]]. apply elem_of_map_to_list in Hl.
    destruct (Hwf id l' Hl) as [chain [Hc _]]. simpl. eauto.
Qed.

(** [getAllTaskChains] on an engine with a well-formed map gives the
    chains that [getTaskChain] finds under some id, and no other, one for
    each id of the map, the later created before the earlier. *)
Theorem getAllTaskChains_spec e :
  wellFormed e ->
  StronglySorted notLater (getAllTaskChains e)
  /\ (forall chain, chain ∈ getAllTaskChains e
                    <-> exists chainId, getTaskChain e chainId = Some chain)
  /\ length (getAllTaskChains e) = size (taskChains e)
  /\ (forall i j a b, i < j ->
        getAllTaskChains e !! i = Some a -> getAllTaskChains e !! j = Some b ->
        (chain_createdAt b <= chain_createdAt a)%Z).
Proof.
  intros Hwf. unfold getAllTaskChains.
  pose proof (sortBy_createdLater_Sorted (chainValues e)) as Hsorted.
  split; [exact Hsorted|]. split; [|split].
  - intros chain. rewrite sortBy_Permutation. apply chainValues_elem.
  - rewrite sortBy_Permutation. apply chainValues_length. exact Hwf.
  - intros i j a b Hij Ha Hb.
    revert i j a b Hij Ha Hb.
    induction Hsorted as [|x l Hs IH Hall]; intros i j a b Hij Ha Hb; [discriminate|].
    destruct j as [|j]; [lia|]. simpl in Hb. destruct i as [|i].
    + simpl in Ha. injection Ha as <-. rewrite Forall_forall in Hall.
      apply Hall. apply list_elem_of_lookup. eauto.
    + simpl in Ha. apply (IH i j); [lia|assumption..].
Qed.

Lemma status_partition (chains : list TaskChain) :
  length chains
  = length (List.filter (hasStatus pending) chains)
    + length (List.filter (hasStatus running) chains)
    + length (List.filter (hasStatus completed) chains)
    + length (List.filter (hasStatus failed) chains).
Proof.
  assert (forall f (c : TaskChain) l,
             length (List.filter f (c :: l))
             = (if f c then 1 else 0) + length (List.filter f l)) as Hcons
    by (intros f c l; simpl; destruct (f c); reflexivity).
  induction chains as [|c chains IH]; [reflexivity|].
  rewrite !Hcons. cbn [length]. rewrite IH.
  unfold hasStatus. destruct (chain_status c); simpl; lia.
Qed.

Lemma elem_of_filter_status s (chains : list TaskChain) chain :
  chain ∈ List.filter (hasStatus s) chains <-> chain ∈ chains /\ chain_status chain = s.
Proof.
  rewrite !list_elem_of_In, filter_In. unfold hasStatus.
  rewrite bool_decide_eq_true. reflexivity.
Qed.

(** [getTaskChainStats]: the total is the number of chains listed, and
    the sum of the four counts, each chain counting for the one status it
    has; the running and completed counts are the lengths of
    [getActiveTaskChains] and [getCompletedTaskChains], which hold the
    chains found under some id whose status is [running], or
    [completed]. *)
Theorem getTaskChainStats_partition e :
  let stats := getTaskChainStats e in
  stats_total stats = length (getAllTaskChains e)
  /\ stats_total stats
     = stats_pending stats + stats_running stats + stats_completed stats + stats_failed stats
  /\ stats_running stats = length (getActiveTaskChains e)
  /\ stats_completed stats = length (getCompletedTaskChains e)
  /\ (forall chain, chain ∈ getActiveTaskChains e
        <-> (exists chainId, getTaskChain e chainId = Some chain)
            /\ chain_status chain = running)
  /\ (forall chain, chain ∈ getCompletedTaskChains e
        <-> (exists chainId, getTaskChain e chainId = Some chain)
            /\ chain_status chain = completed).
Proof.
  simpl. split; [reflexivity|]. split; [apply status_partition|].
  split; [reflexivity|]. split; [reflexivity|].
  unfold getActiveTaskChains, getCompletedTaskChains, getAllTaskChains.
  split; intros chain; rewrite elem_of_filter_status, sortBy_Permutation, chainValues_elem;
    reflexivity.
Qed.

(** ** The records of chains and tasks *)

Lemma reachable_gated_reachable s : reachable_gated s -> reachable s.
Proof.
  induction 1 as [clock|s ev Hs IH Hen Hg]; [apply reachable_new|].
  apply reachable_perform; assumption.
Qed.

Lemma all_insert {A} (P : A -> Prop) (l : list A) i x :
  (forall j y, l !! j = Some y -> P y) ->
  P x ->
  forall j y, <[i := x]> l !! j = Some y -> P y.
Proof.
  intros Hall Hx j y Hj. destruct (decide (j = i)) as [->|Hne].
  - destruct (decide (i < length l)) as [Hlt|Hge].
    + rewrite list_lookup_insert_eq in Hj by exact Hlt. congruence.
    + rewrite list_insert_ge in Hj by lia. eauto.
  - rewrite list_lookup_insert_ne in Hj by congruence. eauto.
Qed.

Lemma loop_record e l chain agent results i :
  chainRecord chain ->
  chain_status chain = running \/ chain_status chain = failed ->
  (forall t, chain_tasks chain !! i = Some t -> task_status t = pending) ->
  exists chain',
    store (fst (executeTaskChain_loop e l chain agent results i)) = <[l := chain']> (store e)
    /\ chainRecord chain'.
Proof.
  intros [Hc Ht] Hst Hpend. unfold executeTaskChain_loop.
  destruct (chain_tasks chain !! i) as [t|] eqn:Hi.
  - assert (taskRecord (fst (executeTask_call agent (now e) (withPreviousResults t results))))
      as Hcalled.
    { pose proof (Ht i t Hi) as Hr. unfold taskRecord in Hr. rewrite (Hpend t eq_refl) in Hr.
      destruct Hr as (R1 & R2 & R3).
      unfold executeTask_call. cbn [task_type withPreviousResults].
      destruct (capabilities agent !! task_type t); unfold taskRecord; simpl; eauto. }
    eexists. split.
    + destruct (snd (executeTask_call agent (now e) (withPreviousResults t results)));
        reflexivity.
    + split; [exact Hc|]. simpl. apply all_insert; assumption.
  - eexists. split; [reflexivity|]. split; simpl; eauto.
Qed.

Lemma cancelTask_record d t : taskRecord (cancelTask d t).
Proof. unfold taskRecord. simpl. eauto. Qed.

(** When every chain is started once, at every observation point: a chain
    has a completion time exactly when it is [completed] or [failed], and
    so has each of its tasks; a completed task holds a result, a failed
    task an error message, a pending or running task neither. *)
Theorem records_kept s :
  reachable_gated s ->
  forall l chain, store (engine s) !! l = Some chain ->
    (is_Some (chain_completedAt chain)
     <-> chain_status chain = completed \/ chain_status chain = failed)
    /\ (forall j t, chain_tasks chain !! j = Some t ->
          (is_Some (task_completedAt t)
           <-> task_status t = completed \/ task_status t = failed)
          /\ (task_status t = completed -> is_Some (task_result t))
          /\ (task_status t = failed -> is_Some (task_error t))
          /\ (task_status t = pending \/ task_status t = running ->
              task_result t = None /\ task_error t = None)).
Proof.
  intros Hs.
  assert (forall l chain, store (engine s) !! l = Some chain -> chainRecord chain) as Hrec.
  { induction Hs as [clock|s ev Hs IH Hen Hg]; [intros l chain Hc; discriminate|].
    destruct (reachable_gated_inv s Hs) as (I1 & I2 & _).
    destruct ev as [chainId name descs ctx|chainId agent|chainId|chainId|p o|p]; simpl.
    - intros l chain Hc. apply lookup_app_Some in Hc as [Hc|[_ Hc]]; [eauto|].
      apply list_lookup_singleton_Some in Hc as [_ <-]. split; [reflexivity|].
      intros j t Hj. apply newTasks_lookup in Hj as (H1 & H2 & H3 & H4 & _).
      unfold taskRecord. rewrite H1. auto.
    - unfold executeTaskChain_call.
      destruct (getTaskChainAt (engine s) chainId) as [[l chain]|] eqn:Hget; [|exact IH].
      pose proof Hget as Hget0. apply getTaskChainAt_Some in Hget0 as [_ Hc].
      assert (chain_status chain = pending) as Hp
        by (apply (Hg chain); apply getTaskChain_Some; eauto).
      destruct (I1 l chain Hc) as [_ Hfresh]. destruct (Hfresh Hp) as [_ Hall].
      destruct (IH l chain Hc) as [Hcd Htasks]. rewrite Hp in Hcd.
      destruct (loop_record (engine s) l (withStatus chain running) agent [] 0)
        as [chain' [Hst Hrec']].
      + split; [exact Hcd|exact Htasks].
      + left. reflexivity.
      + intros t Ht. apply (Hall 0 t); [lia|exact Ht].
      + rewrite Hst. apply all_insert; assumption.
    - unfold cancelTaskChain.
      destruct (getTaskChainAt (engine s) chainId) as [[l chain]|] eqn:Hget; [|exact IH].
      destruct (decide (chain_status chain = running)) as [Hr|Hr]; [|exact IH].
      destruct (cancelTasks _ _ _) as [tasks reads1] eqn:E. simpl.
      apply getTaskChainAt_Some in Hget as [_ Hc].
      apply all_insert; [exact IH|]. split; simpl; [eauto|].
      assert (tasks = fst (cancelTasks (clock (engine s)) (reads (engine s)) (chain_tasks chain)))
        as -> by (rewrite E; reflexivity).
      intros j t' Hj.
      assert (j < length (chain_tasks chain)) as Hlt
        by (rewrite <- (cancelTasks_length (clock (engine s)) (reads (engine s)));
            eapply lookup_lt_Some; exact Hj).
      destruct (lookup_lt_is_Some_2 _ _ Hlt) as [t Ht].
      destruct (cancelTasks_lookup (clock (engine s)) (reads (engine s)) _ j t Ht)
        as [t'' (Hl & Hsame & Hcan)].
      rewrite Hj in Hl. injection Hl as <-.
      destruct (decide (task_status t = running)) as [Hrun|Hrun].
      + destruct (Hcan Hrun) as [d ->]. apply cancelTask_record.
      + rewrite (Hsame Hrun). destruct (IH l chain Hc) as [_ Htasks]. eauto.
    - exact IH.
    - destruct (executions s !! p) as [[x|o']|] eqn:Hp; [|exact IH|exact IH].
      unfold executeTask_settled.
      destruct (exec_phase x); [|exact IH].
      destruct (store (engine s) !! exec_chain x) as [chain|] eqn:Hc; [|exact IH].
      destruct (chain_tasks chain !! exec_i x) as [t|] eqn:Ht; [|exact IH].
      simpl. apply all_insert; [exact IH|].
      destruct (IH _ chain Hc) as [Hcd Htasks]. split; [exact Hcd|]. simpl.
      apply all_insert; [exact Htasks|].
      destruct o; unfold taskRecord; simpl; eauto.
    - destruct (executions s !! p) as [[x|o']|] eqn:Hp; [|exact IH|exact IH].
      destruct (I2 p x Hp) as [chain [Hc (H1 & H2 & H3 & H4 & H5 & H6 & H7)]].
      destruct (lookup_lt_is_Some_2 _ _ H3) as [t Ht].
      destruct (IH _ chain Hc) as [Hcd Htasks].
      destruct x as [l agent results i ph]. simpl in *.
      destruct ph as [r|[v|err]].
      + unfold executeTaskChain_resume. simpl. exact IH.
      + rewrite (resume_resolved (engine s) l agent results i v chain t Hc Ht).
        destruct (chain_status chain) eqn:Hstatus; [contradiction| | |].
        * destruct (loop_record
                      (setActiveTasks (engine s) (delete (task_id t) (activeTasks (engine s))))
                      l (withResults chain (chain_results chain ++ [v])) agent
                      (results ++ [v]) (S i)) as [chain' [Hst Hrec']].
          -- split; simpl; [rewrite Hstatus; exact Hcd|exact Htasks].
          -- left. exact Hstatus.
          -- intros t' Ht'. apply (H5 (S i) t'); [lia|exact Ht'].
          -- rewrite Hst. apply all_insert; assumption.
        * intros l0 c0.
          unfold executeTaskChain_loop. simpl.
          destruct (chain_tasks chain !! S i) as [t'|] eqn:Hnext.
          -- assert (taskRecord
                       (fst (executeTask_call agent
                               (now (setActiveTasks (engine s)
                                       (delete (task_id t) (activeTasks (engine s)))))
                               (withPreviousResults t' (results ++ [v]))))) as Hcalled.
             { pose proof (Htasks (S i) t' Hnext) as Hr. unfold taskRecord in Hr.
               rewrite (H5 (S i) t' ltac:(lia) Hnext) in Hr. destruct Hr as (R1 & R2 & R3).
               unfold executeTask_call. cbn [task_type withPreviousResults].
               destruct (capabilities agent !! task_type t'); unfold taskRecord; simpl; eauto. }
             destruct (snd (executeTask_call _ _ _)); simpl;
               apply all_insert; try exact IH;
               (split; simpl; [rewrite Hstatus; exact Hcd|]);
               apply all_insert; assumption.
          -- simpl. apply all_insert; [exact IH|]. split; simpl; eauto.
        * destruct (loop_record
                      (setActiveTasks (engine s) (delete (task_id t) (activeTasks (engine s))))
                      l (withResults chain (chain_results chain ++ [v])) agent
                      (results ++ [v]) (S i)) as [chain' [Hst Hrec']].
          -- split; simpl; [rewrite Hstatus; exact Hcd|exact Htasks].
          -- right. exact Hstatus.
          -- intros t' Ht'. apply (H5 (S i) t'); [lia|exact Ht'].
          -- rewrite Hst. apply all_insert; assumption.
      + rewrite (resume_rejected (engine s) l agent results i err chain t Hc Ht). simpl.
        apply all_insert; [exact IH|]. split; simpl; eauto. }
  intros l chain Hc. destruct (Hrec l chain Hc) as [Hcd Htasks]. split.
  - destruct (chain_status chain); [rewrite Hcd..| |]; split;
      try (intros H; apply is_Some_None in H; contradiction);
      try (intros [H|H]; discriminate); auto.
  - intros j t Hj. pose proof (Htasks j t Hj) as Hr. unfold taskRecord in Hr.
    destruct (task_status t).
    + destruct Hr as (R1 & R2 & R3). rewrite R3. repeat split;
        try (intros H; apply is_Some_None in H; contradiction);
        try (intros [H|H]; discriminate); try discriminate; auto.
    + destruct Hr as (R1 & R2 & R3). rewrite R3. repeat split;
        try (intros H; apply is_Some_None in H; contradiction);
        try (intros [H|H]; discriminate); try discriminate; auto.
    + destruct Hr as (R1 & R2). repeat split;
        try (intros [H|H]; discriminate); try (intros H; discriminate);
        try (match goal with H : _ \/ _ |- _ => destruct H; discriminate end); auto.
    + destruct Hr as (R1 & R2). repeat split;
        try (intros [H|H]; discriminate); try (intros H; discriminate);
        try (match goal with H : _ \/ _ |- _ => destruct H; discriminate end); auto.
Qed.

(** ** The registry of active tasks *)

Lemma loop_shape e l chain agent results i :
  match chain_tasks chain !! i with
  | Some t =>
      exists ph t',
        sameTask t t'
        /\ snd (executeTaskChain_loop e l chain agent results i)
           = Suspended (mkExecution l agent results i ph)
        /\ store (fst (executeTaskChain_loop e l chain agent results i))
           = <[l := withTasks chain (<[i := t']> (chain_tasks chain))]> (store e)
        /\ activeTasks (fst (executeTaskChain_loop e l chain agent results i))
           = <[task_id t := (l, i)]> (activeTasks e)
  | None =>
      (exists o, snd (executeTaskChain_loop e l chain agent results i) = Settled o)
      /\ activeTasks (fst (executeTaskChain_loop e l chain agent results i)) = activeTasks e
  end.
Proof.
  unfold executeTaskChain_loop. destruct (chain_tasks chain !! i) as [t|].
  - unfold executeTask_call. cbn [task_type withPreviousResults].
    destruct (capabilities agent !! task_type t); simpl;
      eexists _, _; (split; [|split; [reflexivity|split; reflexivity]]); repeat split.
  - simpl. eauto.
Qed.

Lemma active_witness_evolves s (e' : Engine) (xs' : list Activity) (taskId : string) (l i : nat) :
  (exists p x chain t,
      executions s !! p = Some (Suspended x)
      /\ exec_chain x = l /\ exec_i x = i
      /\ store (engine s) !! l = Some chain
      /\ chain_tasks chain !! i = Some t
      /\ task_id t = taskId) ->
  storeEvolves (store (engine s)) (store e') ->
  (forall p x, executions s !! p = Some (Suspended x) -> exec_chain x = l -> exec_i x = i ->
     exists x', xs' !! p = Some (Suspended x') /\ exec_chain x' = l /\ exec_i x' = i) ->
  exists p x chain t,
    xs' !! p = Some (Suspended x)
    /\ exec_chain x = l /\ exec_i x = i
    /\ store e' !! l = Some chain
    /\ chain_tasks chain !! i = Some t
    /\ task_id t = taskId.
Proof.
  intros (p & x & chain & t & Hp & Hl & Hi & Hc & Ht & Hid) [_ Hev] Hx.
  destruct (Hx p x Hp Hl Hi) as [x' (Hp' & Hl' & Hi')].
  destruct (Hev l chain Hc) as [chain' [Hc' (_ & _ & _ & _ & Htasks)]].
  destruct (Htasks i t Ht) as [t' [Ht' (Hid' & _)]].
  exists p, x', chain', t'. repeat split; try assumption. congruence.
Qed.

Lemma activeOk_perform s ev :
  systemInv (store (engine s)) (executions s) ->
  activeOk s ->
  activeOk (perform s ev).
Proof.
  intros (I1 & I2 & I3) Hok.
  pose proof (perform_evolves s ev) as Hev.
  destruct ev as [chainId name descs ctx|chainId agent|chainId|chainId|p o|p].
  - intros taskId l i Ha. simpl in Ha.
    destruct (Hok taskId l i Ha) as (q & y & chain & t & Hq & Hl & Hi & Hc & Ht & Hid).
    exists q, y, chain, t. repeat split; try assumption.
    rewrite Hev. apply lookup_app_l_Some. exact Hc.
  - destruct Hev as [Hev _]. simpl in Hev |- *. unfold activeOk. simpl.
    unfold executeTaskChain_call in *.
    destruct (getTaskChainAt (engine s) chainId) as [[l0 chain0]|] eqn:Hget.
    + apply getTaskChainAt_Some in Hget as [_ Hc0].
      pose proof (lookup_lt_Some _ _ _ Hc0) as Hlt0.
      pose proof (loop_shape (engine s) l0 (withStatus chain0 running) agent [] 0) as Hshape.
      cbn [chain_tasks withStatus] in Hshape.
      destruct (chain_tasks chain0 !! 0) as [t0|] eqn:Ht0.
      * destruct Hshape as (ph & t' & Hsame & Hsnd & Hst & Hact).
        intros taskId l i Ha. rewrite Hact in Ha.
        destruct (decide (task_id t0 = taskId)) as [<-|Hne].
        -- rewrite lookup_insert_eq in Ha. injection Ha as <- <-.
           eexists (length (executions s)), _, _, t'.
           split; [rewrite Hsnd; apply list_lookup_middle; reflexivity|].
           split; [reflexivity|]. split; [reflexivity|].
           split; [rewrite Hst; apply list_lookup_insert_eq; exact Hlt0|].
           split; [simpl; apply list_lookup_insert_eq; eapply lookup_lt_Some; exact Ht0|].
           apply Hsame.
        -- rewrite lookup_insert_ne in Ha by exact Hne.
           apply (active_witness_evolves s); [apply Hok; exact Ha|exact Hev|].
           intros q y Hq Hyl Hyi. exists y. split; [apply lookup_app_l_Some; exact Hq|auto].
      * destruct Hshape as [_ Hact]. intros taskId l i Ha. rewrite Hact in Ha.
        apply (active_witness_evolves s); [apply Hok; exact Ha|exact Hev|].
        intros q y Hq Hyl Hyi. exists y. split; [apply lookup_app_l_Some; exact Hq|auto].
    + intros taskId l i Ha. simpl in Ha.
      apply (active_witness_evolves s); [apply Hok; exact Ha|exact Hev|].
      intros q y Hq Hyl Hyi. exists y. split; [apply lookup_app_l_Some; exact Hq|auto].
  - destruct Hev as [Hev _]. intros taskId l i Ha.
    assert (activeTasks (engine (perform s (Cancel chainId))) = activeTasks (engine s)) as Hact.
    { simpl. unfold cancelTaskChain.
      destruct (getTaskChainAt (engine s) chainId) as [[l0 c0]|]; [|reflexivity].
      destruct (decide (chain_status c0 = running)); [|reflexivity].
      destruct (cancelTasks _ _ _). reflexivity. }
    rewrite Hact in Ha.
    apply (active_witness_evolves s); [apply Hok; exact Ha|exact Hev|].
    intros q y Hq Hyl Hyi. exists y. auto.
  - intros taskId l i Ha. simpl in Ha.
    destruct (Hok taskId l i Ha) as (q & y & chain & t & Hq & Hl & Hi & Hc & Ht & Hid).
    exists q, y, chain, t. repeat split; assumption.
  - destruct Hev as [Hev _]. simpl in Hev |- *.
    destruct (executions s !! p) as [[x|o']|] eqn:Hp; [|exact Hok|exact Hok].
    unfold activeOk. cbn [engine executions] in Hev |- *.
    assert (activeTasks (fst (executeTask_settled (engine s) x o)) = activeTasks (engine s)
            /\ exists x', snd (executeTask_settled (engine s) x o) = Suspended x'
                          /\ exec_chain x' = exec_chain x /\ exec_i x' = exec_i x)
      as [Hact (x' & Hsnd & Hxl & Hxi)].
    { unfold executeTask_settled.
      destruct (exec_phase x); [|split; [reflexivity|eauto]].
      destruct (store (engine s) !! exec_chain x) as [chain|]; [|split; [reflexivity|eauto]].
      destruct (chain_tasks chain !! exec_i x); [|split; [reflexivity|eauto]].
      split; [reflexivity|]. eexists. split; [reflexivity|]. split; reflexivity. }
    intros taskId l i Ha. rewrite Hact in Ha.
    apply (active_witness_evolves s); [apply Hok; exact Ha|exact Hev|].
    intros q y Hq Hyl Hyi. destruct (decide (q = p)) as [->|Hne].
    + rewrite Hp in Hq. injection Hq as <-. exists x'.
      split; [rewrite Hsnd; apply list_lookup_insert_eq; eapply lookup_lt_Some; exact Hp|].
      split; congruence.
    + exists y. split; [rewrite list_lookup_insert_ne by congruence; exact Hq|auto].
  - destruct Hev as [Hev _]. simpl in Hev |- *.
    destruct (executions s !! p) as [[x|o']|] eqn:Hp; [|exact Hok|exact Hok].
    unfold activeOk. cbn [engine executions] in Hev |- *.
    destruct (I2 p x Hp) as [chain [Hc (H1 & H2 & H3 & _)]].
    destruct (lookup_lt_is_Some_2 _ _ H3) as [t Ht].
    pose proof (lookup_lt_Some _ _ _ Hc) as Hlt.
    pose proof (lookup_lt_Some _ _ _ Hp) as Hplt.
    assert (forall taskId l i,
               delete (task_id t) (activeTasks (engine s)) !! taskId = Some (l, i) ->
               forall xs' : list Activity, (forall q, q <> p -> xs' !! q = executions s !! q) ->
               forall e' : Engine, storeEvolves (store (engine s)) (store e') ->
               exists q y c ty,
                 xs' !! q = Some (Suspended y) /\ exec_chain y = l /\ exec_i y = i
                 /\ store e' !! l = Some c /\ chain_tasks c !! i = Some ty
                 /\ task_id ty = taskId) as Hold.
    { intros taskId l i Ha xs' Hxs e' He'.
      apply lookup_delete_Some in Ha as [Hne Ha].
      destruct (Hok taskId l i Ha) as (q & y & cy & ty & Hq & Hl & Hi & Hcy & Hty & Hid).
      assert (q <> p) as Hqp.
      { intros ->. rewrite Hp in Hq. injection Hq as <-. subst l i.
        rewrite Hc in Hcy. injection Hcy as <-. rewrite Ht in Hty. injection Hty as <-.
        contradiction. }
      destruct He' as [_ He']. destruct (He' l cy Hcy) as [c' [Hc' (_ & _ & _ & _ & Htasks)]].
      destruct (Htasks i ty Hty) as [t' [Ht' (Hid' & _)]].
      exists q, y, c', t'. rewrite (Hxs q Hqp). repeat split; try assumption. congruence. }
    destruct x as [l0 agent results i0 ph]. simpl in *.
    destruct ph as [r|[v|err]].
    + unfold executeTaskChain_resume. simpl. rewrite list_insert_id by exact Hp. exact Hok.
    + rewrite (resume_resolved (engine s) l0 agent results i0 v chain t Hc Ht) in Hev |- *.
      pose proof (loop_shape (setActiveTasks (engine s) (delete (task_id t) (activeTasks (engine s))))
                    l0 (withResults chain (chain_results chain ++ [v])) agent
                    (results ++ [v]) (S i0)) as Hshape.
      cbn [chain_tasks withResults] in Hshape.
      destruct (chain_tasks chain !! S i0) as [t1|] eqn:Ht1.
      * destruct Hshape as (ph & t' & Hsame & Hsnd & Hst & Hact).
        intros taskId l i Ha. rewrite Hact in Ha. simpl in Ha.
        destruct (decide (task_id t1 = taskId)) as [<-|Hne].
        -- rewrite lookup_insert_eq in Ha. injection Ha as <- <-.
           eexists p, _, _, t'.
           split; [rewrite Hsnd; apply list_lookup_insert_eq; exact Hplt|].
           split; [reflexivity|]. split; [reflexivity|].
           split; [rewrite Hst; apply list_lookup_insert_eq; exact Hlt|].
           split; [simpl; apply list_lookup_insert_eq; eapply lookup_lt_Some; exact Ht1|].
           apply Hsame.
        -- rewrite lookup_insert_ne in Ha by exact Hne.
           apply (Hold taskId l i Ha); [|exact Hev].
           intros q Hq. apply list_lookup_insert_ne. congruence.
      * destruct Hshape as [_ Hact]. intros taskId l i Ha. rewrite Hact in Ha. simpl in Ha.
        apply (Hold taskId l i Ha); [|exact Hev].
        intros q Hq. apply list_lookup_insert_ne. congruence.
    + rewrite (resume_rejected (engine s) l0 agent results i0 err chain t Hc Ht) in Hev |- *.
      intros taskId l i Ha. simpl in Ha.
      apply (Hold taskId l i Ha); [|exact Hev].
      intros q Hq. apply list_lookup_insert_ne. congruence.
Qed.

Lemma reachable_gated_activeOk s : reachable_gated s -> activeOk s.
Proof.
  induction 1 as [clock|s ev Hs IH Hen Hg].
  - intros taskId l i Ha. simpl in Ha. rewrite lookup_empty in Ha. discriminate.
  - apply activeOk_perform; [apply reachable_gated_inv; exact Hs|exact IH].
Qed.

(** When every chain is started once, at every observation point: an
    active task is the task a suspended execution is at; [resumeTask]
    answers true for its id, and [pauseTask] exactly when this task is
    [running]; when no execution is suspended, no task is active, and
    both answer false for every id. *)
Theorem active_tasks_cleaned s :
  reachable_gated s ->
  (forall taskId l i, activeTasks (engine s) !! taskId = Some (l, i) ->
     exists p x chain t,
       executions s !! p = Some (Suspended x)
       /\ exec_chain x = l /\ exec_i x = i
       /\ store (engine s) !! l = Some chain
       /\ chain_tasks chain !! i = Some t
       /\ task_id t = taskId
       /\ resumeTask (engine s) taskId = true
       /\ pauseTask (engine s) taskId = bool_decide (task_status t = running))
  /\ ((forall p x, executions s !! p <> Some (Suspended x)) ->
      activeTasks (engine s) = ∅
      /\ forall taskId, resumeTask (engine s) taskId = false
                        /\ pauseTask (engine s) taskId = false).
Proof.
  intros Hs. pose proof (reachable_gated_activeOk s Hs) as Hok.
  split.
  - intros taskId l i Ha.
    destruct (Hok taskId l i Ha) as (p & x & chain & t & Hp & Hl & Hi & Hc & Ht & Hid).
    exists p, x, chain, t. repeat split; try assumption.
    + unfold resumeTask, getActiveTask. rewrite Ha, Hc, Ht. reflexivity.
    + unfold pauseTask, getActiveTask. rewrite Ha, Hc, Ht. reflexivity.
  - intros Hnone.
    assert (activeTasks (engine s) = ∅) as Hempty.
    { apply map_eq. intros taskId. rewrite lookup_empty.
      destruct (activeTasks (engine s) !! taskId) as [[l i]|] eqn:Ha; [|reflexivity].
      destruct (Hok taskId l i Ha) as (p & x & _ & _ & Hp & _).
      exfalso. exact (Hnone p x Hp). }
    split; [exact Hempty|]. intros taskId.
    unfold resumeTask, pauseTask, getActiveTask. rewrite Hempty, lookup_empty. auto.
Qed.

(** ** The rest of the code at work *)

Lemma wellFormed_newEngine clock : wellFormed (newEngine clock).
Proof. intros id l Hl. simpl in Hl. rewrite lookup_empty in Hl. discriminate. Qed.

Lemma wellFormed_twoFixes : wellFormed twoFixes.
Proof. apply wellFormed_create, wellFormed_newEngine. Qed.

Lemma reachable_gated_afterStartedRun : reachable_gated afterStartedRun.
Proof.
  unfold afterStartedRun, runEvents, startedRun. cbn [foldl].
  apply gated_perform.
  - apply gated_perform; [apply gated_new|exact I|exact I].
  - exact I.
  - intros chain Hc. vm_compute in Hc. injection Hc as <-. reflexivity.
Qed.

Lemma identities_kept_witness :
  reachable afterCompletedRun
  /\ wellFormed (engine afterCompletedRun)
  /\ forall l chain, store (engine afterCompletedRun) !! l = Some chain ->
       forall j t, chain_tasks chain !! j = Some t ->
         task_id t = chain_id chain +:+ "-task-" +:+ pretty j
         /\ task_type t = inferTaskType (task_description t).
Proof.
  pose proof (reachable_gated_reachable _ reachable_gated_afterCompletedRun) as Hs.
  split; [exact Hs|].
  destruct (identities_kept afterCompletedRun Hs) as (Hwf & _ & Hids).
  split; [exact Hwf|exact Hids].
Defined.

Lemma createTaskChain_get_witness :
  wellFormed twoFixes
  /\ getTaskChain (fst (createTaskChain twoFixes "c2" "docs" ["Explain the loop"] None)) "c2"
     = Some (snd (createTaskChain twoFixes "c2" "docs" ["Explain the loop"] None))
  /\ getTaskChain (fst (createTaskChain twoFixes "c2" "docs" ["Explain the loop"] None)) "c1"
     = getTaskChain twoFixes "c1".
Proof.
  split; [exact wellFormed_twoFixes|].
  destruct (createTaskChain_get twoFixes "c2" "docs" ["Explain the loop"] None
              wellFormed_twoFixes)
    as (Hget & _ & _ & _ & _ & _ & _ & _ & Hother & _).
  split; [exact Hget|]. apply Hother. discriminate.
Defined.

Lemma deleteTaskChain_spec_witness :
  wellFormed twoFixes
  /\ snd (deleteTaskChain twoFixes "c1") = true
  /\ getTaskChain (fst (deleteTaskChain twoFixes "c1")) "c1" = None
  /\ store (fst (deleteTaskChain twoFixes "c1")) = store twoFixes.
Proof.
  split; [exact wellFormed_twoFixes|].
  destruct (deleteTaskChain_spec twoFixes "c1" wellFormed_twoFixes)
    as (Hb & Hget & _ & Hstore & _).
  split; [apply Hb; eexists; reflexivity|]. split; [exact Hget|exact Hstore].
Defined.

Lemma getAllTaskChains_spec_witness :
  wellFormed (fst (createTaskChain twoFixes "c2" "docs" ["Explain the loop"] None))
  /\ length (getAllTaskChains
               (fst (createTaskChain twoFixes "c2" "docs" ["Explain the loop"] None)))
     = 2
  /\ forall a b,
       getAllTaskChains
         (fst (createTaskChain twoFixes "c2" "docs" ["Explain the loop"] None)) !! 0 = Some a ->
       getAllTaskChains
         (fst (createTaskChain twoFixes "c2" "docs" ["Explain the loop"] None)) !! 1 = Some b ->
       (chain_createdAt b <= chain_createdAt a)%Z.
Proof.
  assert (wellFormed (fst (createTaskChain twoFixes "c2" "docs" ["Explain the loop"] None)))
    as Hwf by (apply wellFormed_create; exact wellFormed_twoFixes).
  split; [exact Hwf|].
  destruct (getAllTaskChains_spec _ Hwf) as (_ & _ & Hlen & Horder).
  split; [rewrite Hlen; vm_compute; reflexivity|].
  intros a b. apply Horder. lia.
Defined.

Lemma records_kept_witness :
  reachable_gated afterCompletedRun
  /\ forall l chain, store (engine afterCompletedRun) !! l = Some chain ->
       (is_Some (chain_completedAt chain)
        <-> chain_status chain = completed \/ chain_status chain = failed).
Proof.
  split; [exact reachable_gated_afterCompletedRun|].
  intros l chain Hc.
  exact (proj1 (records_kept afterCompletedRun reachable_gated_afterCompletedRun l chain Hc)).
Defined.

Lemma active_tasks_cleaned_witness :
  reachable_gated afterStartedRun
  /\ activeTasks (engine afterStartedRun) !! "c1-task-0" = Some (0, 0)
  /\ resumeTask (engine afterStartedRun) "c1-task-0" = true
  /\ pauseTask (engine afterStartedRun) "c1-task-0" = true
  /\ reachable_gated afterCompletedRun
  /\ activeTasks (engine afterCompletedRun) = ∅.
Proof.
  split; [exact reachable_gated_afterStartedRun|].
  assert (activeTasks (engine afterStartedRun) !! "c1-task-0" = Some (0, 0)) as Ha
    by (vm_compute; reflexivity).
  split; [exact Ha|].
  destruct (proj1 (active_tasks_cleaned afterStartedRun reachable_gated_afterStartedRun)
              "c1-task-0" 0 0 Ha)
    as (p & x & chain & t & _ & _ & _ & Hc & Ht & _ & Hresume & Hpause).
  split; [exact Hresume|].
  split.
  - rewrite Hpause. vm_compute in Hc. injection Hc as <-.
    vm_compute in Ht. injection Ht as <-. reflexivity.
  - split; [exact reachable_gated_afterCompletedRun|].
    apply (proj2 (active_tasks_cleaned afterCompletedRun reachable_gated_afterCompletedRun)).
    intros q y Hq. destruct q as [|q]; vm_compute in Hq; discriminate.
Defined.

(** ** Completed chains *)

Lemma countCompleted_all tasks :
  (forall j t, tasks !! j = Some t -> task_status t = completed) ->
  countCompleted tasks = length tasks.
Proof.
  intros Hall. apply Nat.le_antisymm; [apply countCompleted_le|].
  apply completed_prefix_count. intros j Hj.
  destruct (lookup_lt_is_Some_2 tasks j Hj) as [t Ht]. eauto.
Qed.

Lemma countCompleted_none tasks :
  (forall j t, tasks !! j = Some t -> task_status t <> completed) ->
  countCompleted tasks = 0.
Proof.
  unfold countCompleted. induction tasks as [|t tasks IH]; intros Hnone; [reflexivity|].
  rewrite filter_cons. destruct (decide (task_status t = completed)) as [Hc|Hc].
  - exfalso. exact (Hnone 0 t eq_refl Hc).
  - apply IH. intros j t' Ht'. exact (Hnone (S j) t' Ht').
Qed.

Lemma doneOk_perform s ev :
  systemInv (store (engine s)) (executions s) ->
  gated s ev ->
  doneOk s ->
  doneOk (perform s ev).
Proof.
  intros (I1 & I2 & I3) Hg Hok.
  destruct ev as [chainId name descs ctx|chainId agent|chainId|chainId|p o|p].
  - intros l chain Hc Hdone. simpl in Hc |- *.
    destruct (decide (l < length (store (engine s)))) as [Hlt|Hge].
    + rewrite lookup_app_l in Hc by exact Hlt. exact (Hok l chain Hc Hdone).
    + rewrite lookup_app_r in Hc by lia.
      destruct (l - length (store (engine s))) as [|k]; [|destruct k; discriminate].
      simpl in Hc. injection Hc as <-. discriminate.
  - simpl in Hg |- *. unfold doneOk. cbn [engine executions].
    unfold executeTaskChain_call.
    destruct (getTaskChainAt (engine s) chainId) as [[l0 c0]|] eqn:Hget.
    + assert (chain_status c0 = pending) as Hpend
        by (apply Hg; apply getTaskChain_Some; eauto).
      apply getTaskChainAt_Some in Hget as [_ Hc0].
      pose proof (lookup_lt_Some _ _ _ Hc0) as Hlt0.
      destruct (I1 l0 c0 Hc0) as [_ Hp0]. destruct (Hp0 Hpend) as [Hres0 _].
      assert (forall q y, executions s !! q = Some (Suspended y) -> exec_chain y <> l0) as Hfree.
      { intros q y Hq Heq. destruct (I2 q y Hq) as [cy [Hcy (Hny & _)]].
        rewrite Heq, Hc0 in Hcy. injection Hcy as <-. contradiction. }
      intros l chain Hc Hdone.
      destruct (decide (l = l0)) as [->|Hne].
      * destruct (chain_tasks c0 !! 0) as [t0|] eqn:Ht0.
        -- exfalso.
           pose proof (loop_shape (engine s) l0 (withStatus c0 running) agent [] 0) as Hshape.
           cbn [chain_tasks withStatus] in Hshape. rewrite Ht0 in Hshape.
           destruct Hshape as (ph & t' & _ & _ & Hst & _).
           rewrite Hst, list_lookup_insert_eq in Hc by exact Hlt0.
           injection Hc as <-. discriminate.
        -- rewrite loop_end in Hc |- * by exact Ht0. cbn [fst snd] in Hc |- *.
           simpl in Hc. rewrite list_lookup_insert_eq in Hc by exact Hlt0.
           injection Hc as <-. simpl. split.
           ++ rewrite Hres0. apply lookup_ge_None in Ht0. simpl. lia.
           ++ intros q y Hq. apply lookup_app_Some in Hq as [Hq|[_ Hq]].
              ** exact (Hfree q y Hq).
              ** destruct (q - length (executions s)) as [|k]; [|destruct k]; discriminate.
      * rewrite loop_frame in Hc by exact Hne.
        destruct (Hok l chain Hc Hdone) as [Hlen Hnone].
        split; [exact Hlen|]. intros q y Hq.
        apply lookup_app_Some in Hq as [Hq|[_ Hq]]; [exact (Hnone q y Hq)|].
        destruct (q - length (executions s)) as [|k]; [|destruct k; discriminate].
        simpl in Hq. injection Hq as Hq.
        pose proof (loop_shape (engine s) l0 (withStatus c0 running) agent [] 0) as Hshape.
        destruct (chain_tasks (withStatus c0 running) !! 0).
        -- destruct Hshape as (ph & t' & _ & Hsnd & _). rewrite Hsnd in Hq.
           injection Hq as <-. simpl. congruence.
        -- destruct Hshape as [[o Hsnd] _]. rewrite Hsnd in Hq. discriminate.
    + intros l chain Hc Hdone. simpl in Hc. destruct (Hok l chain Hc Hdone) as [Hlen Hnone].
      split; [exact Hlen|]. intros q y Hq.
      apply lookup_app_Some in Hq as [Hq|[_ Hq]]; [exact (Hnone q y Hq)|].
      destruct (q - length (executions s)) as [|k]; [|destruct k]; discriminate.
  - intros l chain Hc Hdone. simpl in Hc |- *. unfold cancelTaskChain in Hc.
    destruct (getTaskChainAt (engine s) chainId) as [[l0 c0]|] eqn:Hget;
      [|exact (Hok l chain Hc Hdone)].
    destruct (decide (chain_status c0 = running)) as [Hr|Hr];
      [|exact (Hok l chain Hc Hdone)].
    destruct (cancelTasks _ _ _) as [tasks reads1]. simpl in Hc.
    apply getTaskChainAt_Some in Hget as [_ Hc0].
    destruct (decide (l = l0)) as [->|Hne].
    + rewrite list_lookup_insert_eq in Hc by (eapply lookup_lt_Some; exact Hc0).
      injection Hc as <-. discriminate.
    + rewrite list_lookup_insert_ne in Hc by congruence. exact (Hok l chain Hc Hdone).
  - intros l chain Hc Hdone. simpl in Hc |- *. exact (Hok l chain Hc Hdone).
  - simpl. destruct (executions s !! p) as [[x|o']|] eqn:Hp; [|exact Hok|exact Hok].
    unfold doneOk. cbn [engine executions].
    destruct (I2 p x Hp) as [c [Hcx (H1 & H2 & H3 & _)]].
    destruct (lookup_lt_is_Some_2 _ _ H3) as [t Ht].
    pose proof (lookup_lt_Some _ _ _ Hcx) as Hlt.
    pose proof (lookup_lt_Some _ _ _ Hp) as Hplt.
    assert (snd (executeTask_settled (engine s) x o) = Suspended x
            \/ exists x', snd (executeTask_settled (engine s) x o) = Suspended x'
                          /\ exec_chain x' = exec_chain x) as Hsnd.
    { unfold executeTask_settled. rewrite Hcx, Ht.
      destruct (exec_phase x); [right; eexists; split; reflexivity|left; reflexivity]. }
    intros l chain Hc Hdone.
    destruct (decide (l = exec_chain x)) as [->|Hne].
    + exfalso. unfold executeTask_settled in Hc. rewrite Hcx, Ht in Hc.
      destruct (exec_phase x).
      * simpl in Hc. rewrite list_lookup_insert_eq in Hc by exact Hlt.
        injection Hc as <-. simpl in Hdone.
        exact (proj2 (Hok _ c Hcx Hdone) p x Hp eq_refl).
      * simpl in Hc. rewrite Hcx in Hc. injection Hc as <-.
        exact (proj2 (Hok _ c Hcx Hdone) p x Hp eq_refl).
    + rewrite settled_frame in Hc by exact Hne.
      destruct (Hok l chain Hc Hdone) as [Hlen Hnone].
      split; [exact Hlen|]. intros q y Hq.
      destruct (decide (q = p)) as [->|Hqp].
      * rewrite list_lookup_insert_eq in Hq by exact Hplt.
        destruct Hsnd as [Hsnd|[x' [Hsnd Hx']]]; rewrite Hsnd in Hq; injection Hq as <-;
          congruence.
      * rewrite list_lookup_insert_ne in Hq by congruence. exact (Hnone q y Hq).
  - simpl. destruct (executions s !! p) as [[x|o']|] eqn:Hp; [|exact Hok|exact Hok].
    unfold doneOk. cbn [engine executions].
    destruct (I2 p x Hp) as [c [Hcx (H1 & H2 & H3 & _)]].
    destruct (lookup_lt_is_Some_2 _ _ H3) as [t Ht].
    pose proof (lookup_lt_Some _ _ _ Hcx) as Hlt.
    pose proof (lookup_lt_Some _ _ _ Hp) as Hplt.
    assert (chain_status c <> completed) as Hnot.
    { intros Hdone. exact (proj2 (Hok _ c Hcx Hdone) p x Hp eq_refl). }
    intros l chain Hc Hdone.
    destruct (decide (l = exec_chain x)) as [->|Hne].
    + destruct x as [l0 agent results i ph]. simpl in *.
      destruct ph as [r|[v|err]].
      * exfalso. unfold executeTaskChain_resume in Hc. simpl in Hc.
        rewrite Hcx in Hc. injection Hc as <-. contradiction.
      * rewrite (resume_resolved (engine s) l0 agent results i v c t Hcx Ht) in Hc |- *.
        destruct (chain_tasks c !! S i) as [t1|] eqn:Ht1.
        -- exfalso.
           pose proof (loop_shape
                         (setActiveTasks (engine s) (delete (task_id t) (activeTasks (engine s))))
                         l0 (withResults c (chain_results c ++ [v])) agent
                         (results ++ [v]) (S i)) as Hshape.
           cbn [chain_tasks withResults] in Hshape. rewrite Ht1 in Hshape.
           destruct Hshape as (ph & t' & _ & _ & Hst & _).
           rewrite Hst in Hc. simpl in Hc.
           rewrite list_lookup_insert_eq in Hc by exact Hlt.
           injection Hc as <-. contradiction.
        -- rewrite loop_end in Hc |- * by exact Ht1. simpl in Hc.
           rewrite list_lookup_insert_eq in Hc by exact Hlt.
           injection Hc as <-. simpl. split.
           ++ rewrite length_app. simpl. apply lookup_ge_None in Ht1. lia.
           ++ intros q y Hq Hy. destruct (decide (q = p)) as [->|Hqp].
              ** rewrite list_lookup_insert_eq in Hq by exact Hplt. discriminate.
              ** rewrite list_lookup_insert_ne in Hq by congruence.
                 apply Hqp. exact (I3 q p y _ Hq Hp Hy).
      * exfalso.
        rewrite (resume_rejected (engine s) l0 agent results i err c t Hcx Ht) in Hc.
        simpl in Hc. rewrite list_lookup_insert_eq in Hc by exact Hlt.
        injection Hc as <-. discriminate.
    + rewrite resume_frame in Hc by exact Hne.
      destruct (Hok l chain Hc Hdone) as [Hlen Hnone].
      split; [exact Hlen|]. intros q y Hq.
      destruct (decide (q = p)) as [->|Hqp].
      * rewrite list_lookup_insert_eq in Hq by exact Hplt.
        intros Hy. apply Hne. rewrite <- Hy.
        destruct x as [l0 agent results i ph]. simpl in *.
        destruct ph as [r|[v|err]].
        -- unfold executeTaskChain_resume in Hq. simpl in Hq. injection Hq as <-. reflexivity.
        -- rewrite (resume_resolved (engine s) l0 agent results i v c t Hcx Ht) in Hq.
           pose proof (loop_shape
                         (setActiveTasks (engine s) (delete (task_id t) (activeTasks (engine s))))
                         l0 (withResults c (chain_results c ++ [v])) agent
                         (results ++ [v]) (S i)) as Hshape.
           destruct (chain_tasks (withResults c (chain_results c ++ [v])) !! S i).
           ++ destruct Hshape as (ph & t' & _ & Hsnd & _). rewrite Hsnd in Hq.
              injection Hq as <-. reflexivity.
           ++ destruct Hshape as [[o Hsnd] _]. rewrite Hsnd in Hq. discriminate.
        -- rewrite (resume_rejected (engine s) l0 agent results i err c t Hcx Ht) in Hq.
           discriminate.
      * rewrite list_lookup_insert_ne in Hq by congruence. exact (Hnone q y Hq).
Qed.

Lemma reachable_gated_doneOk s : reachable_gated s -> doneOk s.
Proof.
  induction 1 as [clock|s ev Hs IH Hen Hg].
  - intros l chain Hc. discriminate.
  - apply doneOk_perform; [apply reachable_gated_inv; exact Hs|exact Hg|exact IH].
Qed.

(** When every chain is started once: a chain that is [completed] has one
    result for each of its tasks, all its tasks are [completed], no
    execution is still at work on it, and its progress, when it has a
    task, is 1; the progress of a pending chain that has a task is 0. *)
Theorem completed_chain_done s :
  reachable_gated s ->
  forall chainId chain, getTaskChain (engine s) chainId = Some chain ->
    (chain_status chain = completed ->
       length (chain_results chain) = length (chain_tasks chain)
       /\ (forall j t, chain_tasks chain !! j = Some t -> task_status t = completed)
       /\ (forall p x, executions s !! p = Some (Suspended x) ->
             store (engine s) !! exec_chain x <> Some chain)
       /\ (chain_tasks chain <> [] ->
           exists q, getTaskProgress (engine s) chainId = Finite q /\ (q == 1)%Q))
    /\ (chain_status chain = pending -> chain_tasks chain <> [] ->
        exists q, getTaskProgress (engine s) chainId = Finite q /\ (q == 0)%Q).
Proof.
  intros Hs chainId chain Hget.
  pose proof (reachable_gated_inv s Hs) as (I1 & _ & _).
  pose proof (reachable_gated_doneOk s Hs) as Hok.
  pose proof Hget as Hat. apply getTaskChain_Some in Hat as [l Hat].
  apply getTaskChainAt_Some in Hat as [_ Hc].
  destruct (I1 l chain Hc) as [Hprefix Hpending].
  assert (forall n k, n <> 0 -> exists q, divide k n = Finite q
                                          /\ (q == Z.of_nat k # Pos.of_nat n)%Q) as Hdiv.
  { intros n k Hn. destruct n as [|n]; [congruence|]. eexists. split; reflexivity. }
  assert (chain_tasks chain <> [] -> length (chain_tasks chain) <> 0) as Hlen0
    by (destruct (chain_tasks chain); simpl; congruence).
  split.
  - intros Hdone. destruct (Hok l chain Hc Hdone) as [Hlen Hnone].
    assert (forall j t, chain_tasks chain !! j = Some t -> task_status t = completed) as Hall.
    { intros j t Ht. destruct (Hprefix j) as [t' [Ht' Hst]].
      - rewrite Hlen. eapply lookup_lt_Some. exact Ht.
      - congruence. }
    split; [exact Hlen|]. split; [exact Hall|]. split.
    + intros p x Hp Hx.
      pose proof (reachable_gated_inv s Hs) as (_ & I2 & _).
      destruct (I2 p x Hp) as [c [Hcx (Hnp & Hi & Hlt & _)]].
      rewrite Hx in Hcx. injection Hcx as <-. lia.
    + intros Hne. unfold getTaskProgress. rewrite Hget.
      rewrite (countCompleted_all _ Hall).
      destruct (Hdiv _ (length (chain_tasks chain)) (Hlen0 Hne)) as [q [Hq Heq]].
      exists q. split; [exact Hq|]. rewrite Heq. unfold Qeq. simpl.
      specialize (Hlen0 Hne). lia.
  - intros Hpend Hne. destruct (Hpending Hpend) as [_ Hall].
    unfold getTaskProgress. rewrite Hget.
    rewrite countCompleted_none.
    + destruct (Hdiv _ 0 (Hlen0 Hne)) as [q [Hq Heq]].
      exists q. split; [exact Hq|]. rewrite Heq. reflexivity.
    + intros j t Ht. rewrite (Hall j t (Nat.le_0_l j) Ht). discriminate.
Qed.

Lemma completed_chain_done_witness :
  reachable_gated afterCompletedRun
  /\ chain_status <$> getTaskChain (engine afterCompletedRun) "c1" = Some completed
  /\ exists q, getTaskProgress (engine afterCompletedRun) "c1" = Finite q /\ (q == 1)%Q.
Proof.
  split; [exact reachable_gated_afterCompletedRun|].
  split; [vm_compute; reflexivity|].
  assert (exists chain, getTaskChain (engine afterCompletedRun) "c1" = Some chain
                        /\ chain_status chain = completed
                        /\ chain_tasks chain <> []) as (chain & Hget & Hdone & Hne).
  { eexists. split; [vm_compute; reflexivity|]. split; [reflexivity|discriminate]. }
  destruct (completed_chain_done afterCompletedRun reachable_gated_afterCompletedRun
              "c1" chain Hget) as [Hc _].
  destruct (Hc Hdone) as (_ & _ & _ & Hq). exact (Hq Hne).
Defined.

(** ** The wrappers of PyrDevAgent *)

(** [generateCode] makes the same provider call whatever the description:
    the [generate] capability is called without parameters and asks for
    "Generate code" in the language given ([javascript] for the empty
    string). *)
Theorem generateCode_prompt_without_description a created d stamp description language :
  capabilities a !! "generate" = Some generateCapability ->
  sentMessages (generateCode_call a created d stamp description language)
  = Some [mkMessage system SYSTEM_PROMPT;
          mkMessage user
            (formatPrompt CODE_GENERATION_PROMPT
               [("language", default "javascript" (truthy (Some language)));
                ("description", "Generate code")])]
  /\ generateCode_call a created d stamp description language
     = generateCode_call a created d stamp "" language.
Proof.
  intros Hcap. split; [|reflexivity].
  unfold generateCode_call, executeTask_call, sentMessages. cbn [task_type].
  rewrite Hcap. reflexivity.
Qed.

Lemma generateCode_prompt_without_description_witness :
  capabilities codeAgent !! "generate" = Some generateCapability
  /\ sentMessages (generateCode_call codeAgent 0%Z 1%Z "0" "A function that sorts a list" "python")
     = Some [mkMessage system SYSTEM_PROMPT;
             mkMessage user
"Generate python code based on this description:
Generate code

Requirements:
- Follow best practices and conventions
- Include appropriate error handling
- Add helpful comments
- Make the code production-ready
- Consider performance and maintainability"].
Proof.
  assert (capabilities codeAgent !! "generate" = Some generateCapability) as Hcap
    by (vm_compute; reflexivity).
  split; [exact Hcap|].
  rewrite (proj1 (generateCode_prompt_without_description codeAgent 0%Z 1%Z "0"
                    "A function that sorts a list" "python" Hcap)).
  vm_compute. reflexivity.
Defined.

Lemma settles_throw_inv error o : settles (Throw error) o -> o = Rejected error.
Proof. inversion 1. reflexivity. Qed.

(** Without code, [applyFixes] and [explainCode] call no provider: the
    capability throws before it builds a prompt, the only outcome is the
    rejection with its message, and the task ends [failed] with this
    message and a completion time. *)
Theorem no_code_no_provider_call a created d stamp issues language :
  capabilities a !! "fix" = Some fixCapability ->
  capabilities a !! "explain" = Some explainCapability ->
  let fixing := applyFixes_call a created d stamp "" issues in
  let explaining := explainCode_call a created d stamp "" language in
  sentMessages fixing = None
  /\ sentMessages explaining = None
  /\ (exists run, snd fixing = inl run
        /\ forall o later, settles run o ->
             o = Rejected (mkError "No code provided for fixing")
             /\ task_status (fst (executeTask_resume later (fst fixing) o)) = failed
             /\ task_error (fst (executeTask_resume later (fst fixing) o))
                = Some "No code provided for fixing"
             /\ task_completedAt (fst (executeTask_resume later (fst fixing) o)) = Some later)
  /\ (exists run, snd explaining = inl run
        /\ forall o later, settles run o ->
             o = Rejected (mkError "No code provided for explanation")
             /\ task_status (fst (executeTask_resume later (fst explaining) o)) = failed
             /\ task_error (fst (executeTask_resume later (fst explaining) o))
                = Some "No code provided for explanation"
             /\ task_completedAt (fst (executeTask_resume later (fst explaining) o)) = Some later).
Proof.
  intros Hfix Hexplain. cbv zeta.
  unfold applyFixes_call, explainCode_call, executeTask_call, sentMessages.
  cbn [task_type]. rewrite Hfix, Hexplain. cbn.
  split; [reflexivity|]. split; [reflexivity|].
  split; eexists; (split; [reflexivity|]); intros o later Ho;
    apply settles_throw_inv in Ho; subst o; repeat split.
Qed.

Lemma no_code_no_provider_call_witness :
  capabilities codeAgent !! "fix" = Some fixCapability
  /\ capabilities codeAgent !! "explain" = Some explainCapability
  /\ sentMessages (applyFixes_call codeAgent 0%Z 1%Z "0" ""
                     [mkIssue sev_error "Unused variable" 3]) = None
  /\ sentMessages (explainCode_call codeAgent 0%Z 1%Z "0" "" "python") = None.
Proof.
  assert (capabilities codeAgent !! "fix" = Some fixCapability) as Hfix
    by (vm_compute; reflexivity).
  assert (capabilities codeAgent !! "explain" = Some explainCapability) as Hexplain
    by (vm_compute; reflexivity).
  split; [exact Hfix|]. split; [exact Hexplain|].
  destruct (no_code_no_provider_call codeAgent 0%Z 1%Z "0"
              [mkIssue sev_error "Unused variable" 3] "python" Hfix Hexplain)
    as (H1 & H2 & _).
  split; [exact H1|exact H2].
Defined.




(** ** The loop of the engine and the loop of the agent *)

Lemma drop_cons_inv {A} (l : list A) i x rest :
  drop i l = x :: rest -> l !! i = Some x /\ drop (S i) l = rest /\ i < length l.
Proof.
  intros Hd.
  assert (l !! i = Some x) as Hx.
  { replace i with (i + 0) by lia. rewrite <- lookup_drop, Hd. reflexivity. }
  split; [exact Hx|]. split; [|eapply lookup_lt_Some; exact Hx].
  rewrite (drop_S l x i Hx) in Hd. congruence.
Qed.

Lemma drop_after_middle {A} (pre : list A) x rest i :
  length pre = i -> drop (S i) (pre ++ x :: rest) = rest.
Proof.
  intros <-. change (pre ++ x :: rest) with (pre ++ [x] ++ rest).
  rewrite app_assoc. apply drop_app_length'. rewrite length_app. simpl. lia.
Qed.

Lemma take_upto_middle {A} (pre : list A) x rest i :
  length pre = i -> take (S i) (pre ++ x :: rest) = pre ++ [x].
Proof.
  intros <-. change (pre ++ x :: rest) with (pre ++ [x] ++ rest).
  rewrite app_assoc. apply take_app_length'. rewrite length_app. simpl. lia.
Qed.

Lemma drive_executeChainTasks agent l :
  forall rest e chain results i fuel script tasks' reads' out,
    l < length (store e) ->
    drop i (chain_tasks chain) = rest ->
    executeChainTasks_from agent (clock e) (reads e) results rest script
    = (tasks', reads', out) ->
    match out with
    | Some o =>
        exists e' chain',
          drive (2 * length rest + fuel)
                (executeTaskChain_loop e l chain agent results i) script
          = (e', Some o)
          /\ store e' !! l = Some chain'
          /\ taskChains e' = taskChains e
          /\ clock e' = clock e
          /\ reads e' = S reads'
          /\ chain_tasks chain' = take i (chain_tasks chain) ++ tasks'
          /\ chain_status chain'
             = match o with ChainResolved _ => completed | ChainRejected _ => failed end
          /\ is_Some (chain_completedAt chain')
    | None =>
        snd (drive (2 * length rest + fuel)
                   (executeTaskChain_loop e l chain agent results i) script) = None
    end.
Proof.
  induction rest as [|task rest IH];
    intros e chain results i fuel script tasks' reads' out Hl Hdrop Hrun.
  - simpl in Hrun. injection Hrun as <- <- <-.
    assert (length (chain_tasks chain) <= i) as Hge.
    { apply (f_equal length) in Hdrop. rewrite length_drop in Hdrop. simpl in Hdrop. lia. }
    rewrite loop_end by (apply lookup_ge_None_2; exact Hge).
    rewrite drive_settled. eexists _, _. split; [reflexivity|].
    split; [apply list_lookup_insert_eq; exact Hl|].
    simpl. repeat split.
    + rewrite app_nil_r, take_ge by exact Hge. reflexivity.
    + eexists; reflexivity.
  - apply drop_cons_inv in Hdrop as (Ht & Hrest & Hi).
    replace (2 * length (task :: rest) + fuel) with (S (S (2 * length rest + fuel)))
      by (simpl; lia).
    cbn [executeChainTasks_from] in Hrun. unfold executeTask, executeTask_call in Hrun.
    cbn [task_type withPreviousResults] in Hrun.
    destruct (capabilities agent !! task_type task) as [cap|] eqn:Hcap.
    + rewrite (loop_called e l chain agent results i task cap Ht Hcap).
      set (t1 := setStatus (withPreviousResults task results) running) in *.
      set (chain1 := withTasks chain (<[i := t1]> (chain_tasks chain))).
      set (e1 := setActiveTasks (setChain e l chain1) _).
      assert (store e1 !! l = Some chain1) as Hs1
        by (apply list_lookup_insert_eq; exact Hl).
      assert (chain_tasks chain1 !! i = Some t1) as Ht1
        by (apply list_lookup_insert_eq; exact Hi).
      cbn [fst snd] in Hrun.
      destruct script as [|o script].
      * injection Hrun as <- <- <-. reflexivity.
      * rewrite drive_await_capability.
        rewrite (settled_step e1 l agent results i _ chain1 t1 o Hs1 Ht1).
        change (now e1) with (clock e (reads e)).
        set (resumed := executeTask_resume (clock e (reads e)) t1 o) in *.
        set (chain2 := withTasks chain1 (<[i := fst resumed]> (chain_tasks chain1))).
        set (e2 := tick (setChain e1 l chain2)).
        assert (store e2 !! l = Some chain2) as Hs2.
        { apply list_lookup_insert_eq. simpl. rewrite length_insert. exact Hl. }
        assert (chain_tasks chain2 !! i = Some (fst resumed)) as Ht2.
        { apply list_lookup_insert_eq. eapply lookup_lt_Some. exact Ht1. }
        assert (chain_tasks chain2 = take i (chain_tasks chain) ++ fst resumed :: rest)
          as Htasks2.
        { subst chain2 chain1. simpl. rewrite list_insert_insert_eq.
          rewrite insert_take_drop by exact Hi. rewrite Hrest. reflexivity. }
        rewrite drive_await_executeTask.
        destruct o as [v|err].
        -- change (snd resumed) with (Resolved v) in Hrun |- *. cbv beta iota in Hrun.
           rewrite (resume_resolved e2 l agent results i v chain2 (fst resumed) Hs2 Ht2).
           set (e3 := setActiveTasks e2 _).
           set (chain3 := withResults chain2 _).
           destruct (executeChainTasks_from agent (clock e) (S (reads e)) (results ++ [v])
                       rest script) as [[rest' reads''] out'] eqn:Hrec.
           injection Hrun as <- <- <-.
           specialize (IH e3 chain3 (results ++ [v]) (S i) fuel script rest' reads'' out').
           assert (chain_tasks chain3 = take i (chain_tasks chain) ++ fst resumed :: rest)
             as Htasks3 by exact Htasks2.
           destruct out' as [o'|].
           ++ destruct IH as [e' [chain' (Hd & Hs' & Hm & Hck & Hr & Htk & Hst & Hdone)]].
              ** simpl. rewrite !length_insert. exact Hl.
              ** rewrite Htasks3. apply drop_after_middle. rewrite length_take. lia.
              ** exact Hrec.
              ** exists e', chain'. split; [exact Hd|]. split; [exact Hs'|].
                 split; [exact Hm|]. split; [exact Hck|]. split; [exact Hr|].
                 split; [|split; [exact Hst|exact Hdone]].
                 rewrite Htk, Htasks3.
                 rewrite take_upto_middle by (rewrite length_take; lia).
                 rewrite <- app_assoc. reflexivity.
           ++ apply IH.
              ** simpl. rewrite !length_insert. exact Hl.
              ** rewrite Htasks3. apply drop_after_middle. rewrite length_take. lia.
              ** exact Hrec.
        -- change (snd resumed) with (Rejected err) in Hrun |- *. cbv beta iota in Hrun.
           injection Hrun as <- <- <-.
           rewrite (resume_rejected e2 l agent results i err chain2 (fst resumed) Hs2 Ht2).
           rewrite drive_settled. eexists _, _. split; [reflexivity|].
           split; [apply list_lookup_insert_eq; simpl; rewrite !length_insert; exact Hl|].
           simpl. repeat split.
           ++ rewrite list_insert_insert_eq, insert_take_drop by exact Hi.
              rewrite Hrest. reflexivity.
           ++ eexists; reflexivity.
    + cbn [fst snd] in Hrun. injection Hrun as <- <- <-.
      rewrite (loop_missing e l chain agent results i task Ht Hcap).
      set (t1 := setCompletedAt _ _).
      set (chain1 := withTasks chain (<[i := t1]> (chain_tasks chain))).
      set (e1 := tick _).
      assert (store e1 !! l = Some chain1) as Hs1
        by (apply list_lookup_insert_eq; exact Hl).
      assert (chain_tasks chain1 !! i = Some t1) as Ht1
        by (apply list_lookup_insert_eq; exact Hi).
      rewrite drive_await_executeTask.
      rewrite (resume_rejected e1 l agent results i _ chain1 t1 Hs1 Ht1).
      rewrite drive_settled. eexists _, _. split; [reflexivity|].
      split; [apply list_lookup_insert_eq; simpl; rewrite !length_insert; exact Hl|].
      simpl. repeat split.
      * rewrite insert_take_drop by exact Hi. rewrite Hrest. reflexivity.
      * eexists; reflexivity.
Qed.

(** [executeTaskChain] of the engine runs the tasks as
    [executeChainTasks] of the agent does: on the tasks of a chain the
    engine finds, with the same clock and the same capability outcomes,
    both end or both wait; the outcome is the same, the task objects end
    in the same state, and the engine reads the clock once more, for the
    [completedAt] of the chain, which it marks [completed] when the run
    resolves and [failed] when it rejects. *)
Theorem executeTaskChain_as_executeChainTasks e chainId agent script l chain
    tasks' reads' out :
  getTaskChainAt e chainId = Some (l, chain) ->
  executeChainTasks agent (clock e) (reads e) (chain_tasks chain) script
  = (tasks', reads', out) ->
  match out with
  | Some o =>
      exists e' chain',
        executeTaskChain e chainId agent script = (e', Some o)
        /\ getTaskChainAt e' chainId = Some (l, chain')
        /\ chain_tasks chain' = tasks'
        /\ reads e' = S reads'
        /\ chain_status chain'
           = match o with ChainResolved _ => completed | ChainRejected _ => failed end
        /\ is_Some (chain_completedAt chain')
  | None => snd (executeTaskChain e chainId agent script) = None
  end.
Proof.
  intros Hget Hrun. rewrite (executeTaskChain_found e chainId agent script l chain Hget).
  pose proof Hget as Hat. apply getTaskChainAt_Some in Hat as [Hid Hc].
  pose proof (drive_executeChainTasks agent l (chain_tasks chain) e
                (withStatus chain running) [] 0 0 script tasks' reads' out
                (lookup_lt_Some _ _ _ Hc) eq_refl Hrun) as Hsim.
  rewrite Nat.add_0_r in Hsim. destruct out as [o|]; [|exact Hsim].
  destruct Hsim as [e' [chain' (Hd & Hs' & Hm & _ & Hr & Htk & Hst & Hdone)]].
  exists e', chain'. split; [exact Hd|].
  split; [apply getTaskChainAt_Some; split; [rewrite Hm; exact Hid|exact Hs']|].
  split; [exact Htk|]. split; [exact Hr|]. split; [exact Hst|exact Hdone].
Qed.

Lemma executeTaskChain_as_executeChainTasks_witness :
  getTaskChainAt twoFixes "c1" = Some (0, twoFixesChain)
  /\ snd (executeChainTasks fixAgent (clock twoFixes) (reads twoFixes)
            (chain_tasks twoFixesChain)
            [Resolved (AnyString "a"); Rejected (mkError "Gemini Error: quota exceeded")])
     = Some (ChainRejected (mkError "Gemini Error: quota exceeded"))
  /\ snd (executeTaskChain twoFixes "c1" fixAgent
            [Resolved (AnyString "a"); Rejected (mkError "Gemini Error: quota exceeded")])
     = Some (ChainRejected (mkError "Gemini Error: quota exceeded")).
Proof.
  assert (getTaskChainAt twoFixes "c1" = Some (0, twoFixesChain)) as Hget
    by (vm_compute; reflexivity).
  split; [exact Hget|].
  destruct (executeChainTasks fixAgent (clock twoFixes) (reads twoFixes)
              (chain_tasks twoFixesChain)
              [Resolved (AnyString "a"); Rejected (mkError "Gemini Error: quota exceeded")])
    as [[tasks' reads'] out] eqn:Hrun.
  assert (out = Some (ChainRejected (mkError "Gemini Error: quota exceeded"))) as Hout.
  { vm_compute in Hrun. injection Hrun as _ _ <-. reflexivity. }
  split; [exact Hout|].
  pose proof (executeTaskChain_as_executeChainTasks twoFixes "c1" fixAgent _ 0 twoFixesChain
                tasks' reads' out Hget Hrun) as Hsim.
  rewrite Hout in Hsim. destruct Hsim as [e' [chain' [Hd _]]].
  rewrite Hd. reflexivity.
Defined.

(** ** Prompt formatting *)

Lemma string_app_cons c (s x : string) : String c s +:+ x = String c (s +:+ x).
Proof. reflexivity. Qed.

Lemma string_app_nil_l (x : string) : "" +:+ x = x.
Proof. reflexivity. Qed.

Lemma string_app_nil_r (s : string) : s +:+ "" = s.
Proof.
  induction s as [|c s IH]; [reflexivity|]. rewrite string_app_cons, IH. reflexivity.
Qed.

Lemma string_app_assoc (s1 s2 s3 : string) : (s1 +:+ s2) +:+ s3 = s1 +:+ s2 +:+ s3.
Proof.
  induction s1 as [|c s1 IH]; [reflexivity|]. rewrite !string_app_cons, IH. reflexivity.
Qed.

Lemma string_length_app (s1 s2 : string) :
  String.length (s1 +:+ s2) = String.length s1 + String.length s2.
Proof.
  induction s1 as [|c s1 IH]; [reflexivity|]. rewrite string_app_cons. simpl.
  rewrite IH. reflexivity.
Qed.

Lemma prefix_app (p s : string) : String.prefix p (p +:+ s) = true.
Proof.
  induction p as [|c p IH]; [destruct s; reflexivity|].
  rewrite string_app_cons. simpl. destruct (ascii_dec c c); [exact IH|congruence].
Qed.

(** Whether [p] starts a string is decided on the first units of the
    string, as many as [p] has. *)
Lemma prefix_app_long (p : string) :
  forall a r, String.length p <= String.length a ->
              String.prefix p (a +:+ r) = String.prefix p a.
Proof.
  induction p as [|c p IH]; intros a r Hlen.
  - destruct a; [destruct r; reflexivity|reflexivity].
  - destruct a as [|b a]; [simpl in Hlen; lia|]. rewrite string_app_cons. simpl.
    destruct (ascii_dec c b); [|reflexivity]. apply IH. simpl in Hlen. lia.
Qed.

Lemma drop_matched (p s : string) :
  string_of_list_ascii (drop (String.length p) (list_ascii_of_string (p +:+ s))) = s.
Proof.
  induction p as [|c p IH].
  - rewrite string_app_nil_l. apply string_of_list_ascii_of_string.
  - rewrite string_app_cons. exact IH.
Qed.

Lemma includes_cons c s sub :
  includes (String c s) sub = String.prefix sub (String c s) || includes s sub.
Proof. reflexivity. Qed.

Lemma replaceFrom_cons pat value before c s :
  replaceFrom pat value 0 before (String c s)
  = if String.prefix pat (String c s)
    then getSubstitution pat before
           (string_of_list_ascii
              (drop (String.length pat) (list_ascii_of_string (String c s))))
           value
         +:+ replaceFrom pat value (String.length pat - 1) (before +:+ String c "") s
    else String c (replaceFrom pat value 0 (before +:+ String c "") s).
Proof. reflexivity. Qed.

Lemma replaceFrom_skip pat value (u : string) :
  forall before s,
    replaceFrom pat value (String.length u) before (u +:+ s)
    = replaceFrom pat value 0 (before +:+ u) s.
Proof.
  induction u as [|c u IH]; intros before s.
  - rewrite string_app_nil_l, string_app_nil_r. reflexivity.
  - rewrite string_app_cons.
    change (replaceFrom pat value (String.length u) (before +:+ String c "") (u +:+ s)
            = replaceFrom pat value 0 (before +:+ String c u) s).
    rewrite IH, string_app_assoc. reflexivity.
Qed.

Lemma replaceFrom_absent pat value :
  forall s before, includes s pat = false -> replaceFrom pat value 0 before s = s.
Proof.
  induction s as [|c s IH]; intros before Hno; [reflexivity|].
  rewrite includes_cons in Hno. apply orb_false_iff in Hno as [Hp Hs].
  rewrite replaceFrom_cons, Hp, IH by exact Hs. reflexivity.
Qed.

Lemma replaceFrom_match c p value before post :
  replaceFrom (String c p) value 0 before (String c p +:+ post)
  = getSubstitution (String c p) before post value
    +:+ replaceFrom (String c p) value 0 (before +:+ String c p) post.
Proof.
  rewrite string_app_cons, replaceFrom_cons, <- string_app_cons.
  rewrite prefix_app, drop_matched. f_equal.
  replace (String.length (String c p) - 1) with (String.length p) by (simpl; lia).
  rewrite replaceFrom_skip, string_app_assoc. reflexivity.
Qed.

Lemma replaceFrom_first q z value post :
  forall pre before,
    includes (pre +:+ q) (q +:+ String z "") = false ->
    replaceFrom (q +:+ String z "") value 0 before (pre +:+ (q +:+ String z "") +:+ post)
    = pre +:+ getSubstitution (q +:+ String z "") (before +:+ pre) post value
      +:+ replaceFrom (q +:+ String z "") value 0
            (before +:+ pre +:+ (q +:+ String z "")) post.
Proof.
  induction pre as [|a pre IH]; intros before Hno.
  - rewrite !string_app_nil_l, string_app_nil_r.
    assert (exists c p, q +:+ String z "" = String c p) as (c & p & Hpat)
      by (destruct q; [rewrite string_app_nil_l|rewrite string_app_cons]; eauto).
    rewrite Hpat. apply replaceFrom_match.
  - rewrite string_app_cons, includes_cons in Hno.
    apply orb_false_iff in Hno as [Hp Hs].
    rewrite string_app_cons, replaceFrom_cons.
    assert (String.prefix (q +:+ String z "")
              (String a (pre +:+ (q +:+ String z "") +:+ post)) = false) as Hp'.
    { rewrite <- Hp.
      replace (String a (pre +:+ (q +:+ String z "") +:+ post))
        with (String a (pre +:+ q) +:+ (String z "" +:+ post)).
      - apply prefix_app_long. simpl. rewrite !string_length_app. simpl. lia.
      - rewrite string_app_cons, !string_app_assoc. reflexivity. }
    rewrite Hp', (IH _ Hs). rewrite !string_app_cons, !string_app_assoc.
    rewrite !string_app_cons, string_app_nil_l. reflexivity.
Qed.

Lemma replaceAll_once q z value pre post :
  includes (pre +:+ q) (q +:+ String z "") = false ->
  includes post (q +:+ String z "") = false ->
  replaceAll (q +:+ String z "") value (pre +:+ (q +:+ String z "") +:+ post)
  = pre +:+ getSubstitution (q +:+ String z "") pre post value +:+ post.
Proof.
  intros Hpre Hpost. unfold replaceAll.
  rewrite (replaceFrom_first q z value post pre "" Hpre).
  rewrite replaceFrom_absent by exact Hpost. reflexivity.
Qed.

Lemma getSubstitution_other matched before after c rest :
  c <> "$"%char ->
  getSubstitution matched before after (String c rest)
  = String c (getSubstitution matched before after rest).
Proof.
  intros Hc. destruct c as [[] [] [] [] [] [] [] []]; try reflexivity. congruence.
Qed.

Lemma includes_dollar c rest :
  includes (String c rest) "$" = false -> c <> "$"%char /\ includes rest "$" = false.
Proof.
  rewrite includes_cons. intros Hno. apply orb_false_iff in Hno as [Hp Hs].
  split; [|exact Hs]. intros ->. simpl in Hp. destruct rest; discriminate.
Qed.

Lemma getSubstitution_app matched before after (u : string) :
  forall value,
    includes u "$" = false ->
    getSubstitution matched before after (u +:+ value)
    = u +:+ getSubstitution matched before after value.
Proof.
  induction u as [|c u IH]; intros value Hno; [reflexivity|].
  apply includes_dollar in Hno as [Hc Hu].
  rewrite string_app_cons, getSubstitution_other by exact Hc.
  rewrite IH by exact Hu. reflexivity.
Qed.

Lemma getSubstitution_plain matched before after value :
  includes value "$" = false ->
  getSubstitution matched before after value = value.
Proof.
  intros Hno. rewrite <- (string_app_nil_r value) at 1.
  rewrite getSubstitution_app by exact Hno. apply string_app_nil_r.
Qed.


Lemma placeholder_split key : "{" +:+ key +:+ "}" = ("{" +:+ key) +:+ String "}" "".
Proof. rewrite string_app_assoc. reflexivity. Qed.

(** [formatPrompt] on a template where the placeholder of its variable,
    whose key is an identifier, occurs once: a value without dollar sign
    takes the place of the placeholder, unchanged; the rest of the
    template stays. *)
Theorem formatPrompt_one_placeholder pre post key value :
  identifierKey key = true ->
  includes (pre +:+ "{" +:+ key) ("{" +:+ key +:+ "}") = false ->
  includes post ("{" +:+ key +:+ "}") = false ->
  includes value "$" = false ->
  formatPrompt (pre +:+ ("{" +:+ key +:+ "}") +:+ post) [(key, value)]
  = pre +:+ value +:+ post.
Proof.
  intros _ Hpre Hpost Hvalue. unfold formatPrompt. cbn [foldl fst snd].
  rewrite placeholder_split in *.
  rewrite replaceAll_once by assumption.
  rewrite getSubstitution_plain by exact Hvalue. reflexivity.
Qed.

Lemma formatPrompt_one_placeholder_witness :
  formatPrompt ("Explain " +:+ ("{" +:+ "code" +:+ "}") +:+ " in {language}.")
               [("code", "x = {a: 1}")]
  = "Explain " +:+ "x = {a: 1}" +:+ " in {language}.".
Proof.
  apply (formatPrompt_one_placeholder "Explain " " in {language}." "code" "x = {a: 1}");
    vm_compute; reflexivity.
Defined.



(** The [fix] capability, called with issues: when the code and the
    issues hold no dollar sign and the code does not bring in the text
    of the issues placeholder, the provider is asked to fix the issues,
    one on each line, in the code, both as they were given. *)
Theorem fixCapability_prompt context text issues :
  truthy (code context) = Some text ->
  includes text "$" = false ->
  includes (join (String "010" "") issues) "$" = false ->
  includes ("

Original Code:
" +:+ text +:+ "

Provide the corrected code with explanations for each fix.") "{issues}" = false ->
  exists k,
    execute fixCapability context (Some (mkParameters (Some issues) None))
    = GenerateResponse
        [mkMessage system SYSTEM_PROMPT;
         mkMessage user
           ("Fix the following issues in the code:
Issues: " +:+ join (String "010" "") issues +:+ "

Original Code:
" +:+ text +:+ "

Provide the corrected code with explanations for each fix.")]
        k.
Proof.
  intros Hcode Htext Hissues Hfree.
  unfold fixCapability. cbn [execute]. rewrite Hcode.
  eexists. f_equal. f_equal. f_equal. f_equal.
  change (default [] (Some (mkParameters (Some issues) None) ≫= param_issues)) with issues.
  unfold formatPrompt. cbn [foldl fst snd].
  rewrite !placeholder_split.
  replace CODE_FIX_PROMPT
    with (("Fix the following issues in the code:
Issues: " +:+ (("{" +:+ "issues") +:+ String "}" "") +:+ "

Original Code:
") +:+ (("{" +:+ "code") +:+ String "}" "") +:+ "

Provide the corrected code with explanations for each fix.")
    by (vm_compute; reflexivity).
  rewrite replaceAll_once by (vm_compute; reflexivity).
  rewrite getSubstitution_plain by exact Htext.
  rewrite !string_app_assoc.
  change (replaceAll (("{" +:+ "issues") +:+ String "}" "") (join (String "010" "") issues)
            ("Fix the following issues in the code:
Issues: " +:+ (("{" +:+ "issues") +:+ String "}" "") +:+ "

Original Code:
" +:+ text +:+ "

Provide the corrected code with explanations for each fix.")
          = "Fix the following issues in the code:
Issues: " +:+ join (String "010" "") issues +:+ "

Original Code:
" +:+ text +:+ "

Provide the corrected code with explanations for each fix.").
  rewrite replaceAll_once; [|vm_compute; reflexivity|exact Hfree].
  rewrite getSubstitution_plain by exact Hissues.
  reflexivity.
Qed.

Lemma fixCapability_prompt_witness :
  exists k,
    execute fixCapability codeContext
      (Some (mkParameters (Some ["error: Unused variable (Line 3)"; "hint: Use const (Line 1)"])
                          None))
    = GenerateResponse
        [mkMessage system SYSTEM_PROMPT;
         mkMessage user
"Fix the following issues in the code:
Issues: error: Unused variable (Line 3)
hint: Use const (Line 1)

Original Code:
x=1

Provide the corrected code with explanations for each fix."]
        k.
Proof.
  destruct (fixCapability_prompt codeContext "x=1"
              ["error: Unused variable (Line 3)"; "hint: Use const (Line 1)"])
    as [k Hk]; try (vm_compute; reflexivity).
  exists k. rewrite Hk. reflexivity.
Defined.

(** ** Executions among other events, at work *)

Lemma reachable_gated_afterResolvedTask : reachable_gated afterResolvedTask.
Proof.
  unfold afterResolvedTask, runEvents. cbn [foldl].
  apply gated_perform.
  - apply gated_perform.
    + apply gated_perform; [apply gated_new|exact I|exact I].
    + exact I.
    + intros chain Hc. vm_compute in Hc. injection Hc as <-. reflexivity.
  - eexists _, _. split; [reflexivity|]. split; [reflexivity|].
    apply (settles_provider_response _ _ (mkResponse "fixed")).
    apply settles_return.
  - exact I.
Qed.

Lemma reachable_gated_afterRejectedTask : reachable_gated afterRejectedTask.
Proof.
  unfold afterRejectedTask, runEvents. cbn [foldl].
  apply gated_perform.
  - apply gated_perform.
    + apply gated_perform; [apply gated_new|exact I|exact I].
    + exact I.
    + intros chain Hc. vm_compute in Hc. injection Hc as <-. reflexivity.
  - eexists _, _. split; [reflexivity|]. split; [reflexivity|].
    apply settles_provider_error.
  - exact I.
Qed.

Lemma resolved_among_events_witness :
  reachable_gated afterResolvedTask
  /\ exists x chain',
       executions afterResolvedTask !! 0 = Some (Suspended x)
       /\ store (engine (perform afterResolvedTask (Resume 0))) !! exec_chain x = Some chain'
       /\ chain_status chain' = completed
       /\ chain_results chain' = [AnyString "fixed"].
Proof.
  split; [exact reachable_gated_afterResolvedTask|].
  assert (exists x, executions afterResolvedTask !! 0 = Some (Suspended x)
                    /\ snd (executeTaskChain_resume (engine afterResolvedTask) x)
                       = Settled (ChainResolved [AnyString "fixed"])) as (x & Hx & Hend).
  { eexists. split; [vm_compute; reflexivity|vm_compute; reflexivity]. }
  destruct (resolved_among_events afterResolvedTask 0 x [AnyString "fixed"]
              reachable_gated_afterResolvedTask Hx Hend)
    as [chain' (H1 & H2 & _ & H4 & _)].
  exists x, chain'. split; [exact Hx|]. split; [exact H1|]. split; [exact H2|exact H4].
Defined.

Lemma rejected_among_events_witness :
  reachable_gated afterRejectedTask
  /\ exists x chain',
       executions afterRejectedTask !! 0 = Some (Suspended x)
       /\ store (engine (perform afterRejectedTask (Resume 0))) !! exec_chain x = Some chain'
       /\ chain_status chain' = failed
       /\ forall j t, exec_i x < j -> chain_tasks chain' !! j = Some t ->
                      task_status t = pending.
Proof.
  split; [exact reachable_gated_afterRejectedTask|].
  assert (exists x, executions afterRejectedTask !! 0 = Some (Suspended x)
                    /\ snd (executeTaskChain_resume (engine afterRejectedTask) x)
                       = Settled (ChainRejected (mkError "Gemini Error: timeout")))
    as (x & Hx & Hend).
  { eexists. split; [vm_compute; reflexivity|vm_compute; reflexivity]. }
  destruct (rejected_among_events afterRejectedTask 0 x (mkError "Gemini Error: timeout")
              reachable_gated_afterRejectedTask Hx Hend)
    as [chain' (H1 & H2 & _ & _ & _ & H6)].
  exists x, chain'. split; [exact Hx|]. split; [exact H1|]. split; [exact H2|exact H6].
Defined.

(** ** The dates of chains and tasks *)

Lemma restamped_refl clock lo hi created ended :
  restamped clock lo hi created created ended ended.
Proof. split; [reflexivity|left; reflexivity]. Qed.

Lemma taskStamps_restamp clock jc hi hi' t t' :
  taskStamps clock jc hi t ->
  jc < hi -> hi <= hi' ->
  restamped clock hi hi' (task_createdAt t) (task_createdAt t')
            (task_completedAt t) (task_completedAt t') ->
  taskStamps clock jc hi' t'.
Proof.
  intros [Hcreated Hended] Hjc Hhi [Hc Hd]. split.
  - rewrite Hc. exact Hcreated.
  - intros d Hd'. destruct Hd as [Hd|[k [Hk Hd]]]; rewrite Hd in Hd'.
    + destruct (Hended d Hd') as [j [Hj ->]]. exists j. split; [lia|reflexivity].
    + injection Hd' as <-. exists k. split; [lia|reflexivity].
Qed.

(** A chain stays well dated when it and its tasks are restamped. *)
Lemma chainStamps_update clock hi hi' chain chain' :
  chainStamps clock hi chain ->
  hi <= hi' ->
  restamped clock hi hi' (chain_createdAt chain) (chain_createdAt chain')
            (chain_completedAt chain) (chain_completedAt chain') ->
  (forall j t', chain_tasks chain' !! j = Some t' ->
     exists t, chain_tasks chain !! j = Some t
               /\ restamped clock hi hi' (task_createdAt t) (task_createdAt t')
                            (task_completedAt t) (task_completedAt t')) ->
  chainStamps clock hi' chain'.
Proof.
  intros (jc & Hjc & Hcreated & Hended & Htasks) Hhi [Hc Hd] Ht.
  exists jc. split; [lia|]. split; [congruence|]. split.
  - intros d Hd'. destruct Hd as [Hd|[k [Hk Hd]]]; rewrite Hd in Hd'.
    + destruct (Hended d Hd') as [j [Hj ->]]. exists j. split; [lia|reflexivity].
    + injection Hd' as <-. exists k. split; [lia|reflexivity].
  - intros j t' Hj. destruct (Ht j t' Hj) as [t [Hjt Hre]].
    exact (taskStamps_restamp clock jc hi hi' t t' (Htasks j t Hjt) Hjc Hhi Hre).
Qed.

Lemma chainStamps_mono clock hi hi' chain :
  hi <= hi' -> chainStamps clock hi chain -> chainStamps clock hi' chain.
Proof.
  intros Hhi Hchain. apply (chainStamps_update clock hi hi' chain chain Hchain Hhi).
  - apply restamped_refl.
  - intros j t Hj. exists t. split; [exact Hj|apply restamped_refl].
Qed.

Lemma restamped_insert clock lo hi (tasks : list AgentTask) i t t' :
  tasks !! i = Some t ->
  restamped clock lo hi (task_createdAt t) (task_createdAt t')
            (task_completedAt t) (task_completedAt t') ->
  forall j y, <[i := t']> tasks !! j = Some y ->
    exists x, tasks !! j = Some x
              /\ restamped clock lo hi (task_createdAt x) (task_createdAt y)
                           (task_completedAt x) (task_completedAt y).
Proof.
  intros Hi Hre j y Hj. destruct (decide (j = i)) as [->|Hne].
  - rewrite list_lookup_insert_eq in Hj by (eapply lookup_lt_Some; exact Hi).
    injection Hj as <-. eauto.
  - rewrite list_lookup_insert_ne in Hj by congruence.
    exists y. split; [exact Hj|apply restamped_refl].
Qed.

Lemma stampsOk_insert e e' l chain' :
  store e' = <[l := chain']> (store e) ->
  clock e' = clock e ->
  reads e <= reads e' ->
  stampsOk e ->
  chainStamps (clock e) (reads e') chain' ->
  stampsOk e'.
Proof.
  intros Hst Hck Hr Hok Hnew l0 c0 Hc0. rewrite Hck. rewrite Hst in Hc0.
  revert l0 c0 Hc0. apply all_insert; [|exact Hnew].
  intros l0 c0 Hc0.
  apply (chainStamps_mono _ (reads e)); [exact Hr|apply Hok with l0; exact Hc0].
Qed.

Lemma loop_stamps e l chain agent results i :
  stampsOk e ->
  chainStamps (clock e) (reads e) chain ->
  stampsOk (fst (executeTaskChain_loop e l chain agent results i))
  /\ clock (fst (executeTaskChain_loop e l chain agent results i)) = clock e
  /\ reads e <= reads (fst (executeTaskChain_loop e l chain agent results i)).
Proof.
  intros Hok Hchain. unfold executeTaskChain_loop.
  destruct (chain_tasks chain !! i) as [t|] eqn:Ht.
  - unfold executeTask_call. cbn [task_type withPreviousResults].
    destruct (capabilities agent !! task_type t); cbn [fst snd].
    + split; [|split; [reflexivity|simpl; lia]].
      eapply (stampsOk_insert e); [reflexivity|reflexivity|simpl; lia|exact Hok|].
      simpl. apply (chainStamps_update _ _ _ chain _ Hchain); [lia|apply restamped_refl|].
      simpl. apply (restamped_insert _ _ _ _ i t); [exact Ht|apply restamped_refl].
    + split; [|split; [reflexivity|simpl; lia]].
      eapply (stampsOk_insert e); [reflexivity|reflexivity|simpl; lia|exact Hok|].
      simpl. apply (chainStamps_update _ _ _ chain _ Hchain); [lia|apply restamped_refl|].
      simpl. apply (restamped_insert _ _ _ _ i t); [exact Ht|].
      split; [reflexivity|]. right. exists (reads e). split; [lia|reflexivity].
  - cbn [fst]. split; [|split; [reflexivity|simpl; lia]].
    eapply (stampsOk_insert e); [reflexivity|reflexivity|simpl; lia|exact Hok|].
    simpl. apply (chainStamps_update _ _ _ chain _ Hchain); [lia| |].
    + split; [reflexivity|]. right. exists (reads e). split; [lia|reflexivity].
    + intros j t' Hj. exists t'. split; [exact Hj|apply restamped_refl].
Qed.

Lemma cancelTasks_stamps clock :
  forall tasks reads,
    reads <= snd (cancelTasks clock reads tasks)
    /\ forall j t', fst (cancelTasks clock reads tasks) !! j = Some t' ->
         exists t, tasks !! j = Some t
                   /\ restamped clock reads (snd (cancelTasks clock reads tasks))
                                (task_createdAt t) (task_createdAt t')
                                (task_completedAt t) (task_completedAt t').
Proof.
  induction tasks as [|t tasks IH]; intros reads.
  - split; [simpl; lia|]. intros j t' Hj. discriminate.
  - simpl. destruct (decide (task_status t = running)) as [Hr|Hr].
    + destruct (IH (S reads)) as [Hle Hall].
      destruct (cancelTasks clock (S reads) tasks) as [tasks' reads'] eqn:E.
      simpl in *. split; [lia|]. intros j t' Hj. destruct j as [|j]; simpl in Hj.
      * injection Hj as <-. exists t. split; [reflexivity|].
        split; [reflexivity|]. right. exists reads. split; [lia|reflexivity].
      * destruct (Hall j t' Hj) as [t0 [Ht0 [Hc Hd]]]. exists t0. split; [exact Ht0|].
        split; [exact Hc|]. destruct Hd as [Hd|[k [Hk Hd]]]; [left; exact Hd|].
        right. exists k. split; [lia|exact Hd].
    + destruct (IH reads) as [Hle Hall].
      destruct (cancelTasks clock reads tasks) as [tasks' reads'] eqn:E.
      simpl in *. split; [lia|]. intros j t' Hj. destruct j as [|j]; simpl in Hj.
      * injection Hj as <-. exists t. split; [reflexivity|apply restamped_refl].
      * exact (Hall j t' Hj).
Qed.

Lemma newTaskChain_stamps e chainId name descs ctx :
  chainStamps (clock e) (reads e + length descs + 1) (newTaskChain e chainId name descs ctx).
Proof.
  exists (reads e + length descs). split; [lia|]. split; [reflexivity|]. split.
  - intros d Hd. discriminate.
  - intros i t Hi. simpl in Hi. rewrite newTasks_lookup_index in Hi.
    destruct (descs !! i) as [d|] eqn:Hd; [|discriminate].
    apply lookup_lt_Some in Hd. injection Hi as <-. split.
    + exists (reads e + (0 + i)). split; [lia|reflexivity].
    + intros d' Hd'. discriminate.
Qed.

Lemma stampsOk_perform s ev :
  stampsOk (engine s) ->
  stampsOk (engine (perform s ev))
  /\ clock (engine (perform s ev)) = clock (engine s).
Proof.
  intros Hok.
  destruct ev as [chainId name descs ctx|chainId agent|chainId|chainId|p o|p]; simpl.
  - split; [|reflexivity]. intros l chain Hc. simpl in Hc |- *.
    apply lookup_app_Some in Hc as [Hc|[_ Hc]].
    + apply (chainStamps_mono _ (reads (engine s))); [lia|exact (Hok l chain Hc)].
    + apply list_lookup_singleton_Some in Hc as [_ <-]. apply newTaskChain_stamps.
  - unfold executeTaskChain_call.
    destruct (getTaskChainAt (engine s) chainId) as [[l chain]|] eqn:Hget;
      [|split; [exact Hok|reflexivity]].
    apply getTaskChainAt_Some in Hget as [_ Hc].
    destruct (loop_stamps (engine s) l (withStatus chain running) agent [] 0 Hok)
      as (H1 & H2 & _); [exact (Hok l chain Hc)|].
    split; assumption.
  - unfold cancelTaskChain.
    destruct (getTaskChainAt (engine s) chainId) as [[l chain]|] eqn:Hget;
      [|split; [exact Hok|reflexivity]].
    destruct (decide (chain_status chain = running)) as [Hr|Hr];
      [|split; [exact Hok|reflexivity]].
    apply getTaskChainAt_Some in Hget as [_ Hc].
    destruct (cancelTasks_stamps (clock (engine s)) (chain_tasks chain) (reads (engine s)))
      as [Hle Hall].
    destruct (cancelTasks _ _ _) as [tasks reads1] eqn:E. simpl in Hle, Hall |- *.
    split; [|reflexivity].
    eapply (stampsOk_insert (engine s)); [reflexivity|reflexivity|simpl; lia|exact Hok|].
    simpl. apply (chainStamps_update _ _ _ chain _ (Hok l chain Hc)); [lia| |].
    + split; [reflexivity|]. right. exists reads1. split; [lia|reflexivity].
    + simpl. intros j t' Hj. destruct (Hall j t' Hj) as [t [Ht [Hct Hdt]]].
      exists t. split; [exact Ht|]. split; [exact Hct|].
      destruct Hdt as [Hdt|[k [Hk Hdt]]]; [left; exact Hdt|].
      right. exists k. split; [lia|exact Hdt].
  - split; [exact Hok|reflexivity].
  - destruct (executions s !! p) as [[x|o']|] eqn:Hp; [|split; [exact Hok|reflexivity]..].
    simpl. unfold executeTask_settled.
    destruct (exec_phase x); [|split; [exact Hok|reflexivity]].
    destruct (store (engine s) !! exec_chain x) as [chain|] eqn:Hc;
      [|split; [exact Hok|reflexivity]].
    destruct (chain_tasks chain !! exec_i x) as [t|] eqn:Ht;
      [|split; [exact Hok|reflexivity]].
    cbn [fst]. split; [|reflexivity].
    eapply (stampsOk_insert (engine s)); [reflexivity|reflexivity|simpl; lia|exact Hok|].
    simpl. apply (chainStamps_update _ _ _ chain _ (Hok _ chain Hc));
      [lia|apply restamped_refl|].
    simpl. apply (restamped_insert _ _ _ _ (exec_i x) t); [exact Ht|].
    split; [destruct o; reflexivity|]. right. exists (reads (engine s)).
    split; [lia|destruct o; reflexivity].
  - destruct (executions s !! p) as [[x|o']|] eqn:Hp; [|split; [exact Hok|reflexivity]..].
    simpl. unfold executeTaskChain_resume.
    destruct (exec_phase x) as [r|o]; [split; [exact Hok|reflexivity]|].
    destruct (store (engine s) !! exec_chain x) as [chain|] eqn:Hc;
      [|split; [exact Hok|reflexivity]].
    destruct (chain_tasks chain !! exec_i x) as [t|] eqn:Ht;
      [|split; [exact Hok|reflexivity]].
    destruct o as [v|err].
    + destruct (loop_stamps
                  (setActiveTasks (engine s) (delete (task_id t) (activeTasks (engine s))))
                  (exec_chain x) (withResults chain (chain_results chain ++ [v]))
                  (exec_agent x) (exec_results x ++ [v]) (S (exec_i x)))
        as (H1 & H2 & _); [exact Hok|exact (Hok _ chain Hc)|].
      split; assumption.
    + cbn [fst]. split; [|reflexivity].
      eapply (stampsOk_insert (engine s)); [reflexivity|reflexivity|simpl; lia|exact Hok|].
      simpl. apply (chainStamps_update _ _ _ chain _ (Hok _ chain Hc)); [lia| |].
      * split; [reflexivity|]. right. exists (reads (engine s)). split; [lia|reflexivity].
      * intros j t' Hj. exists t'. split; [exact Hj|apply restamped_refl].
Qed.

Lemma reachable_stampsOk s : reachable s -> stampsOk (engine s).
Proof.
  induction 1 as [clock|s ev Hs IH Hen].
  - intros l chain Hc. discriminate.
  - apply stampsOk_perform. exact IH.
Qed.

(** On a clock that does not go back, at every point of every run: a
    chain is created after its tasks; the completion time of a chain or
    of a task, once there is one, is not before the creation of the
    chain, and so not before the creation of the task. *)
Theorem timestamps_ordered s :
  reachable s ->
  (forall i j, i <= j -> (clock (engine s) i <= clock (engine s) j)%Z) ->
  forall l chain, store (engine s) !! l = Some chain ->
    (forall d, chain_completedAt chain = Some d -> (chain_createdAt chain <= d)%Z)
    /\ (forall i t, chain_tasks chain !! i = Some t ->
          (task_createdAt t <= chain_createdAt chain)%Z
          /\ (forall d, task_completedAt t = Some d ->
                (chain_createdAt chain <= d)%Z /\ (task_createdAt t <= d)%Z)).
Proof.
  intros Hs Hmono l chain Hc.
  destruct (reachable_stampsOk s Hs l chain Hc) as (jc & Hjc & Hcreated & Hended & Htasks).
  split.
  - intros d Hd. destruct (Hended d Hd) as [j [Hj ->]]. rewrite Hcreated.
    apply Hmono. lia.
  - intros i t Ht. destruct (Htasks i t Ht) as [[jt [Hjt Hct]] Hdt].
    assert (task_createdAt t <= chain_createdAt chain)%Z as Hle
      by (rewrite Hct, Hcreated; apply Hmono; exact Hjt).
    split; [exact Hle|]. intros d Hd. destruct (Hdt d Hd) as [j [Hj ->]].
    assert (chain_createdAt chain <= clock (engine s) j)%Z as Hle'
      by (rewrite Hcreated; apply Hmono; lia).
    split; [exact Hle'|lia].
Qed.

Lemma timestamps_ordered_witness :
  reachable afterCompletedRun
  /\ (forall i j, i <= j ->
        (clock (engine afterCompletedRun) i <= clock (engine afterCompletedRun) j)%Z)
  /\ forall l chain, store (engine afterCompletedRun) !! l = Some chain ->
       forall d, chain_completedAt chain = Some d -> (chain_createdAt chain <= d)%Z.
Proof.
  pose proof (reachable_gated_reachable _ reachable_gated_afterCompletedRun) as Hs.
  assert (forall i j, i <= j ->
            (clock (engine afterCompletedRun) i <= clock (engine afterCompletedRun) j)%Z)
    as Hmono.
  { intros i j Hij. change (Z.of_nat i <= Z.of_nat j)%Z. lia. }
  split; [exact Hs|]. split; [exact Hmono|].
  intros l chain Hc.
  exact (proj1 (timestamps_ordered afterCompletedRun Hs Hmono l chain Hc)).
Defined.
